(** * Verifiable secret promises (poly/promise/promise.go)

    A shallow embedding of the promise package: the three codecs
    (PromiseSignature, BlameProof, Promise), promise construction, the
    per-share operations (VerifyShare, Sign, VerifySignature, RevealShare,
    VerifyRevealedShare, Blame, VerifyBlame) and the certification check of
    PromiseState.

    Conventions.
    - Go's [int] is taken to be 64 bits wide and is modelled by [Z]; the
      sizes computed by the package stay far below 2^63, so only the
      conversions to [uint32] wrap, and these are written out.
    - A Go function returning [error], or a value and an [error], or
      possibly panicking, is a computation in [result]: [Ret] is the nil
      error, [Err] a non-nil error, [Panic] a run-time panic.
    - The packages abstract, poly, anon and proof are collaborators of the
      promise package; they are interfaces (classes) here, and what the
      development assumes about them is collected in separate law classes. *)

From Stdlib Require Import ZArith List Lia Bool String.
From Stdlib.Strings Require Import Byte.
Import ListNotations.
Local Open Scope Z_scope.

(** ** Errors and results *)

Definition error := string.

Module errors.
Definition New (msg : string) : error := msg.
End errors.

Inductive result (A : Type) : Type :=
| Ret (a : A)
| Err (e : error)
| Panic (msg : string).
Arguments Ret {A} a.
Arguments Err {A} e.
Arguments Panic {A} msg.

Definition bind {A B : Type} (c : result A) (k : A -> result B) : result B :=
  match c with
  | Ret a => k a
  | Err e => Err e
  | Panic m => Panic m
  end.

Notation "x <- c ;; k" := (bind c (fun x => k))
  (at level 61, c at next level, right associativity).

(** [is_nil c]: the call returned a nil error. *)
Definition is_nil {A : Type} (c : result A) : bool :=
  match c with Ret _ => true | _ => false end.

(** ** The fragment of Go's run time the package uses *)

Module Go.

(** A byte slice that may be nil: [reflect.DeepEqual] and the nil test of
    verifySignature tell nil from an empty slice. *)
Inductive bytes : Type :=
| Nil
| Bytes (l : list byte).

Definition data (s : bytes) : list byte :=
  match s with Nil => [] | Bytes l => l end.

Definition len {A : Type} (l : list A) : Z := Z.of_nat (List.length l).

Definition blen (s : bytes) : Z := len (data s).

Definition list_byte_eqb (a b : list byte) : bool :=
  if list_eq_dec Byte.byte_eq_dec a b then true else false.

(** reflect.DeepEqual on two []byte values. *)
Definition DeepEqual (a b : bytes) : bool :=
  match a, b with
  | Nil, Nil => true
  | Bytes x, Bytes y => list_byte_eqb x y
  | _, _ => false
  end.

(** [l[i]] *)
Definition index {A : Type} (l : list A) (i : Z) : result A :=
  if (i <? 0) || (len l <=? i) then Panic "index out of range"
  else match nth_error l (Z.to_nat i) with
       | Some a => Ret a
       | None => Panic "index out of range"
       end.

(** [l[i] = v] *)
Fixpoint set_nth {A : Type} (l : list A) (i : nat) (v : A) : list A :=
  match l, i with
  | [], _ => []
  | _ :: tl, O => v :: tl
  | x :: tl, S i' => x :: set_nth tl i' v
  end.

Definition assign {A : Type} (l : list A) (i : Z) (v : A) : result (list A) :=
  if (i <? 0) || (len l <=? i) then Panic "index out of range"
  else Ret (set_nth l (Z.to_nat i) v).

(** [l[lo:hi]]; the bound is the length (the capacity of the buffers of
    this package is their length). *)
Definition slice {A : Type} (l : list A) (lo hi : Z) : result (list A) :=
  if (lo <? 0) || (hi <? lo) || (len l <? hi)
  then Panic "slice bounds out of range"
  else Ret (firstn (Z.to_nat (hi - lo)) (skipn (Z.to_nat lo) l)).

(** [l[lo:]] *)
Definition slice_from {A : Type} (l : list A) (lo : Z) : result (list A) :=
  slice l lo (len l).

(** A zeroed buffer of [n] bytes. *)
Definition zeros (n : Z) : list byte := repeat x00 (Z.to_nat n).

(** [make([]byte, n)] *)
Definition make (n : Z) : result (list byte) :=
  if n <? 0 then Panic "makeslice: len out of range"
  else Ret (zeros n).

(** [copy(dst, src)]: the contents of [dst] afterwards. *)
Definition copy (dst src : list byte) : list byte :=
  firstn (List.length dst) src ++ skipn (List.length src) dst.

(** [copy(buf[off:], src)]: the contents of [buf] afterwards; the
    sub-slice shares the array of [buf]. *)
Definition copy_at (buf : list byte) (off : Z) (src : list byte)
  : result (list byte) :=
  tl <- slice_from buf off ;;
  Ret (firstn (Z.to_nat off) buf ++ copy tl src).

(** [uint32(x)] for an [int] x. *)
Definition uint32 (x : Z) : Z := x mod 2 ^ 32.

Definition byte_to_Z (b : byte) : Z := Z.of_N (Byte.to_N b).

Definition byte_of_Z (z : Z) : byte :=
  match Byte.of_N (Z.to_N (z mod 256)) with
  | Some b => b
  | None => x00
  end.

Definition le32 (v : Z) : list byte :=
  [byte_of_Z v; byte_of_Z (v / 2 ^ 8); byte_of_Z (v / 2 ^ 16);
   byte_of_Z (v / 2 ^ 24)].

(** [binary.LittleEndian.PutUint32(b, v)]: the contents of [b]
    afterwards. *)
Definition PutUint32 (b : list byte) (v : Z) : result (list byte) :=
  match b with
  | _ :: _ :: _ :: _ :: rest => Ret (le32 v ++ rest)
  | _ => Panic "index out of range"
  end.

(** [binary.LittleEndian.PutUint32(buf[off:], v)] *)
Definition PutUint32_at (buf : list byte) (off : Z) (v : Z)
  : result (list byte) :=
  tl <- slice_from buf off ;;
  tl' <- PutUint32 tl v ;;
  Ret (firstn (Z.to_nat off) buf ++ tl').

(** [int(binary.LittleEndian.Uint32(b))] *)
Definition Uint32 (b : list byte) : result Z :=
  match b with
  | b0 :: b1 :: b2 :: b3 :: _ =>
      Ret (byte_to_Z b0 + 2 ^ 8 * byte_to_Z b1 + 2 ^ 16 * byte_to_Z b2
           + 2 ^ 24 * byte_to_Z b3)
  | _ => Panic "index out of range"
  end.

(** [int(binary.LittleEndian.Uint32(buf[off:]))] *)
Definition Uint32_at (buf : list byte) (off : Z) : result Z :=
  tl <- slice_from buf off ;;
  Uint32 tl.

End Go.

(** ** Package io: readers and writers

    A reader is described by the bytes it still delivers and by the
    error its Read returns once they are used up (io.EOF for a
    bytes.Reader or a file, another error for a failing connection). A
    writer is described by the bytes written so far, the room it has left
    (None: unbounded, as a bytes.Buffer) and the error of a write that
    does not fit. *)
Module io.

Definition EOF : error := errors.New "EOF".
Definition ErrUnexpectedEOF : error := errors.New "unexpected EOF".

Record Reader : Type := {
  pending : list byte;
  failure : error
}.

(** What a read leaves: the contents of the buffer, the number of bytes
    read, the error and the reader afterwards. *)
Record Read : Type := {
  data : list byte;
  n : Z;
  err : option error;
  after : Reader
}.

(** The error of a read that used up the reader before the buffer was
    full: the error of the reader, io.ErrUnexpectedEOF taking the place
    of io.EOF when some bytes were read. *)
Definition shortError (r : Reader) : error :=
  if String.eqb (failure r) EOF
  then match pending r with
       | [] => EOF
       | _ :: _ => ErrUnexpectedEOF
       end
  else failure r.

(** [io.ReadFull(r, buf)]: buf is filled and the error is nil, or the
    reader is used up before and the error is [shortError r]. *)
Definition ReadFull (r : Reader) (buf : list byte) : Read :=
  let want := List.length buf in
  let have := List.length (pending r) in
  if (want <=? have)%nat
  then {| data := firstn want (pending r);
          n := Z.of_nat want;
          err := None;
          after := {| pending := skipn want (pending r);
                      failure := failure r |} |}
  else {| data := pending r ++ skipn have buf;
          n := Z.of_nat have;
          err := Some (shortError r);
          after := {| pending := []; failure := failure r |} |}.

(** [io.ReadFull(r, buf[off:])]: [data] is the whole of buf afterwards. *)
Definition ReadFull_at (r : Reader) (buf : list byte) (off : Z)
  : result Read :=
  tl <- Go.slice_from buf off ;;
  let rd := ReadFull r tl in
  Ret {| data := firstn (Z.to_nat off) buf ++ data rd;
         n := n rd; err := err rd; after := after rd |}.

Record Writer : Type := {
  written : list byte;
  room : option nat;
  shortWrite : error
}.

(** What [w.Write(buf)] returns, and the writer afterwards. *)
Record Wrote : Type := {
  count : Z;
  werr : option error;
  wafter : Writer
}.

Definition Write (w : Writer) (buf : list byte) : Wrote :=
  match room w with
  | None =>
      {| count := Go.len buf; werr := None;
         wafter := {| written := written w ++ buf; room := None;
                      shortWrite := shortWrite w |} |}
  | Some k =>
      if (List.length buf <=? k)%nat
      then {| count := Go.len buf; werr := None;
              wafter := {| written := written w ++ buf;
                           room := Some (k - List.length buf)%nat;
                           shortWrite := shortWrite w |} |}
      else {| count := Z.of_nat k; werr := Some (shortWrite w);
              wafter := {| written := written w ++ firstn k buf;
                           room := Some O;
                           shortWrite := shortWrite w |} |}
  end.

(** What UnmarshalFrom returns: the number of bytes read, the error or
    the decoded receiver, and the reader afterwards. *)
Record Got (A : Type) : Type := {
  read : Z;
  outcome : result A;
  rest : Reader
}.
Arguments read {A} _.
Arguments outcome {A} _.
Arguments rest {A} _.

(** [return k, x.UnmarshalBinary(finalBuf)]; a panic of UnmarshalBinary
    is a panic of the caller. *)
Definition returning {A : Type} (k : Z) (c : result A) (r : Reader)
  : result (Got A) :=
  match c with
  | Panic m => Panic m
  | _ => Ret {| read := k; outcome := c; rest := r |}
  end.

(** [return 0, err] when MarshalBinary failed, [return w.Write(buf)]
    otherwise. *)
Definition writing (c : result (list byte)) (w : Writer) : result Wrote :=
  match c with
  | Ret buf => Ret (Write w buf)
  | Err e => Ret {| count := 0; werr := Some e; wafter := w |}
  | Panic m => Panic m
  end.

End io.

(** ** Collaborating packages *)

(** Package abstract: suites, points and secrets (scalars). An instance
    describes the suites of one group; suite values are compared by
    identity. *)
Module abstract.

Class Group : Type := {
  Suite : Type;
  Point : Type;
  Secret : Type;
  Stream : Type;
  Suite_eq_dec : forall a b : Suite, {a = b} + {a <> b};
  Point_eq_dec : forall a b : Point, {a = b} + {a <> b};
  Secret_eq_dec : forall a b : Secret, {a = b} + {a <> b};
  (** suite.PointLen(), suite.SecretLen() *)
  PointLen : Suite -> Z;
  SecretLen : Suite -> Z;
  (** suite.Cipher(key) *)
  Cipher : Suite -> list byte -> Stream;
  (** suite.Secret().Pick(stream), .Add(a, b), .Sub(a, b) *)
  Secret_Pick : Suite -> Stream -> Secret;
  Secret_Add : Suite -> Secret -> Secret -> Secret;
  Secret_Sub : Suite -> Secret -> Secret -> Secret;
  (** suite.Point().Base(), suite.Point().Mul(P, s) *)
  Point_Base : Suite -> Point;
  Point_Mul : Suite -> Point -> Secret -> Point;
  (** P.MarshalBinary(), suite.Point() then UnmarshalBinary(buf) *)
  Point_MarshalBinary : Point -> result (list byte);
  Point_UnmarshalBinary : Suite -> list byte -> result Point;
  Secret_MarshalBinary : Secret -> result (list byte);
  Secret_UnmarshalBinary : Suite -> list byte -> result Secret
}.

Definition Suite_eqb `{Group} (a b : Suite) : bool :=
  if Suite_eq_dec a b then true else false.

(** P.Equal(Q) *)
Definition Point_Equal `{Group} (a b : Point) : bool :=
  if Point_eq_dec a b then true else false.

(** s.Equal(s') *)
Definition Secret_Equal `{Group} (a b : Secret) : bool :=
  if Secret_eq_dec a b then true else false.

End abstract.
Export abstract.

(** Package config: key pairs. *)
Module config.
Record KeyPair `{Group} : Type := {
  Suite : abstract.Suite;
  Public : Point;
  Secret : abstract.Secret
}.
End config.

(** Package poly: Shamir sharing with a public commitment. *)
Module poly.

Class Lib `{Group} : Type := {
  PriPoly : Type;
  PriShares : Type;
  PubPoly : Type;
  (** new(PriPoly).Pick(suite, k, s0, rand) *)
  PriPoly_Pick : Suite -> Z -> Secret -> Stream -> PriPoly;
  (** new(PriShares).Split(poly, n), shares.Share(i) *)
  PriShares_Split : PriPoly -> Z -> PriShares;
  PriShares_Share : PriShares -> Z -> Secret;
  (** shares.Empty(suite, k, n) *)
  PriShares_Empty : Suite -> Z -> Z -> PriShares;
  (** pub.Commit(poly, nil), pub.Init(suite, k, nil) *)
  PubPoly_Commit : PriPoly -> PubPoly;
  PubPoly_Init : Suite -> Z -> PubPoly;
  (** pub.Check(i, share), pub.Equal(pub2) *)
  PubPoly_Check : PubPoly -> Z -> Secret -> bool;
  PubPoly_Equal : PubPoly -> PubPoly -> bool;
  PubPoly_MarshalSize : PubPoly -> Z;
  PubPoly_MarshalBinary : PubPoly -> result (list byte);
  (** pub.UnmarshalBinary(buf) on a receiver prepared by Init *)
  PubPoly_UnmarshalBinary : PubPoly -> list byte -> result PubPoly
}.

End poly.
Export poly.

(** Package anon: anonymous-set signatures. The link scope is always nil
    in this package and the tag returned by Verify is discarded. *)
Module anon.

Class Lib `{Group} : Type := {
  (** anon.Sign(suite, rand, msg, set, nil, mine, secret) *)
  Sign : Suite -> Stream -> list byte -> list Point -> Z -> Secret
         -> Go.bytes;
  (** anon.Verify(suite, msg, set, nil, sig) *)
  Verify : Suite -> list byte -> list Point -> Go.bytes -> result unit
}.

End anon.

(** Package proof: the predicate [Rep("D", "x", "P")], its prover and
    verifier, and the Fiat-Shamir wrappers HashProve and HashVerify. *)
Module proof.

Class Lib `{Group} : Type := {
  (** HashProve(suite, name, rand, Rep("D","x","P").Prover(suite,
      {x}, {D, P}, choice)) *)
  HashProve_Rep : Suite -> string -> Stream -> Secret -> Point -> Point
                  -> result Go.bytes;
  (** HashVerify(suite, name, Rep("D","x","P").Verifier(suite, {D, P}),
      proof) *)
  HashVerify_Rep : Suite -> string -> Point -> Point -> Go.bytes
                   -> result unit
}.

End proof.

(** ** Package constants *)

Definition uint32Size : Z := 4.
Definition protocolName : string := "Promise Protocol".
Definition sigMsg : list byte := list_byte_of_string "Promise Signature".
Definition sigBlameMsg : list byte :=
  list_byte_of_string "Promise Blame Signature".

(** ** PromiseSignature *)

Module PromiseSignature.
Section Defs.
Context `{G : Group}.

Record T : Type := {
  suite : Suite;
  signature : Go.bytes
}.

Definition init (suite : Suite) (sig : Go.bytes) : T :=
  {| suite := suite; signature := sig |}.

(** new(PromiseSignature).UnmarshalInit(suite) *)
Definition UnmarshalInit (suite : Suite) : T :=
  {| suite := suite; signature := Go.Nil |}.

Definition Equal (p p2 : T) : bool :=
  Suite_eqb (suite p) (suite p2)
  && (Suite_eqb (suite p) (suite p2)
      && Go.DeepEqual (signature p) (signature p2)).

Definition MarshalSize (p : T) : Z :=
  uint32Size + Go.blen (signature p).

Definition MarshalBinary (p : T) : result (list byte) :=
  buf <- Go.make (MarshalSize p) ;;
  buf <- Go.PutUint32_at buf 0 (Go.uint32 (Go.blen (signature p))) ;;
  buf <- Go.copy_at buf uint32Size (Go.data (signature p)) ;;
  Ret buf.

Definition UnmarshalBinary (p : T) (buf : list byte) : result T :=
  if Go.len buf <? uint32Size
  then Err (errors.New "Buffer size too small")
  else
    sigLen <- Go.Uint32_at buf 0 ;;
    if Go.len buf <? uint32Size + sigLen
    then Err (errors.New "Buffer size too small")
    else
      sig <- Go.slice buf uint32Size (uint32Size + sigLen) ;;
      Ret {| suite := suite p; signature := Go.Bytes sig |}.

Definition MarshalTo (p : T) (w : io.Writer) : result io.Wrote :=
  io.writing (MarshalBinary p) w.

Definition UnmarshalFrom (p : T) (r : io.Reader) : result (io.Got T) :=
  buf <- Go.make uint32Size ;;
  let rd := io.ReadFull r buf in
  match io.err rd with
  | Some e =>
      Ret {| io.read := io.n rd; io.outcome := Err e;
             io.rest := io.after rd |}
  | None =>
      let buf := io.data rd in
      let n := io.n rd in
      sigLen <- Go.Uint32_at buf 0 ;;
      finalBuf <- Go.make (uint32Size + sigLen) ;;
      let finalBuf := Go.copy finalBuf buf in
      rd2 <- io.ReadFull_at (io.after rd) finalBuf n ;;
      match io.err rd2 with
      | Some e2 =>
          Ret {| io.read := n + io.n rd2; io.outcome := Err e2;
                 io.rest := io.after rd2 |}
      | None =>
          io.returning (n + io.n rd2) (UnmarshalBinary p (io.data rd2))
            (io.after rd2)
      end
  end.

End Defs.
End PromiseSignature.

(** ** BlameProof *)

Module BlameProof.
Section Defs.
Context `{G : Group}.

Record T : Type := {
  suite : Suite;
  diffieKey : Point;
  diffieKeyProof : Go.bytes;
  signature : PromiseSignature.T
}.

Definition init (suite : Suite) (key : Point) (dkp : Go.bytes)
           (sig : PromiseSignature.T) : T :=
  {| suite := suite; diffieKey := key; diffieKeyProof := dkp;
     signature := sig |}.

Definition Equal (bp bp2 : T) : bool :=
  Suite_eqb (suite bp) (suite bp2)
  && Point_Equal (diffieKey bp) (diffieKey bp2)
  && Go.DeepEqual (diffieKeyProof bp) (diffieKeyProof bp2)
  && PromiseSignature.Equal (signature bp) (signature bp2).

Definition MarshalSize (bp : T) : Z :=
  2 * uint32Size + PointLen (suite bp) + Go.blen (diffieKeyProof bp)
  + PromiseSignature.MarshalSize (signature bp).

Definition MarshalBinary (bp : T) : result (list byte) :=
  let pointLen := PointLen (suite bp) in
  let proofLen := Go.blen (diffieKeyProof bp) in
  buf <- Go.make (MarshalSize bp) ;;
  buf <- Go.PutUint32_at buf 0 (Go.uint32 proofLen) ;;
  buf <- Go.PutUint32_at buf uint32Size
           (Go.uint32 (PromiseSignature.MarshalSize (signature bp))) ;;
  pointBuf <- Point_MarshalBinary (diffieKey bp) ;;
  buf <- Go.copy_at buf (2 * uint32Size) pointBuf ;;
  buf <- Go.copy_at buf (2 * uint32Size + pointLen)
           (Go.data (diffieKeyProof bp)) ;;
  sigBuf <- PromiseSignature.MarshalBinary (signature bp) ;;
  buf <- Go.copy_at buf (2 * uint32Size + pointLen + proofLen) sigBuf ;;
  Ret buf.

(** The receiver is new(BlameProof).UnmarshalInit(suite): only its suite
    is read, every other field is overwritten, so the receiver is
    represented by its suite. *)
Definition UnmarshalBinary (suite : Suite) (buf : list byte) : result T :=
  let pointLen := PointLen suite in
  if Go.len buf <? 2 * uint32Size + pointLen
  then Err (errors.New "Buffer size too small")
  else
    proofLen <- Go.Uint32_at buf 0 ;;
    sigLen <- Go.Uint32_at buf uint32Size ;;
    let bufPos := 2 * uint32Size in
    keyBuf <- Go.slice buf bufPos (bufPos + pointLen) ;;
    key <- Point_UnmarshalBinary suite keyBuf ;;
    let bufPos := bufPos + pointLen in
    if Go.len buf <? 2 * uint32Size + pointLen + proofLen + sigLen
    then Err (errors.New "Buffer size too small")
    else
      dkp <- Go.make proofLen ;;
      src <- Go.slice buf bufPos (bufPos + proofLen) ;;
      let dkp := Go.copy dkp src in
      let bufPos := bufPos + proofLen in
      sigBuf <- Go.slice buf bufPos (bufPos + sigLen) ;;
      sig <- PromiseSignature.UnmarshalBinary
               (PromiseSignature.UnmarshalInit suite) sigBuf ;;
      Ret {| suite := suite; diffieKey := key;
             diffieKeyProof := Go.Bytes dkp; signature := sig |}.

Definition MarshalTo (bp : T) (w : io.Writer) : result io.Wrote :=
  io.writing (MarshalBinary bp) w.

(** The receiver is represented by its suite, as for UnmarshalBinary. *)
Definition UnmarshalFrom (suite : Suite) (r : io.Reader)
  : result (io.Got T) :=
  buf <- Go.make (2 * uint32Size) ;;
  let rd := io.ReadFull r buf in
  match io.err rd with
  | Some e =>
      Ret {| io.read := io.n rd; io.outcome := Err e;
             io.rest := io.after rd |}
  | None =>
      let buf := io.data rd in
      let n := io.n rd in
      let pointLen := PointLen suite in
      proofLen <- Go.Uint32_at buf 0 ;;
      sigLen <- Go.Uint32_at buf uint32Size ;;
      let finalLen := 2 * uint32Size + pointLen + proofLen + sigLen in
      finalBuf <- Go.make finalLen ;;
      let finalBuf := Go.copy finalBuf buf in
      rd2 <- io.ReadFull_at (io.after rd) finalBuf n ;;
      match io.err rd2 with
      | Some e2 =>
          Ret {| io.read := n + io.n rd2; io.outcome := Err e2;
                 io.rest := io.after rd2 |}
      | None =>
          io.returning (n + io.n rd2) (UnmarshalBinary suite (io.data rd2))
            (io.after rd2)
      end
  end.

End Defs.
End BlameProof.

(** [f(...) == nil] for a call [f(...)] returning an error. *)
Definition returns_nil (c : result unit) : result bool :=
  match c with
  | Ret _ => Ret true
  | Err _ => Ret false
  | Panic m => Panic m
  end.

(** ** Promise *)

Module Promise.
Section Defs.
Context `{G : Group} {PL : poly.Lib} {AL : anon.Lib} {ZL : proof.Lib}.

Record T : Type := {
  shareSuite : Suite;
  t : Z;
  r : Z;
  n : Z;
  pubKey : Point;
  pubPoly : PubPoly;
  insurers : list Point;
  secrets : list Secret
}.

(** The receiver of diffieHellmanEncrypt and diffieHellmanDecrypt is
    read through p.shareSuite only; ConstructPromise calls the first
    while p.secrets is being filled, so both take the suite. *)
Definition diffieHellmanEncrypt (shareSuite : Suite) (secret : Secret)
           (diffieBase : Point) : result Secret :=
  match Point_MarshalBinary diffieBase with
  | Ret buff =>
      let cipher := Cipher shareSuite buff in
      let diffieSecret := Secret_Pick shareSuite cipher in
      Ret (Secret_Add shareSuite secret diffieSecret)
  | _ => Panic "Bad shared secret for Diffie-Hellman give."
  end.

Definition diffieHellmanDecrypt (shareSuite : Suite) (secret : Secret)
           (diffieBase : Point) : result Secret :=
  match Point_MarshalBinary diffieBase with
  | Ret buff =>
      let cipher := Cipher shareSuite buff in
      let diffieSecret := Secret_Pick shareSuite cipher in
      Ret (Secret_Sub shareSuite secret diffieSecret)
  | _ => Panic "Bad shared secret for Diffie-Hellman give."
  end.

(** The loop of ConstructPromise that fills p.secrets: iteration [i]
    handles insurers[i]; [n = len(insurers)], so the loop runs once per
    element of the list. *)
Fixpoint encryptShares (shareSuite : Suite) (prishares : PriShares)
         (keySecret : Secret) (insurers : list Point) (i : Z)
  : result (list Secret) :=
  match insurers with
  | [] => Ret []
  | ins :: rest =>
      let diffieBase := Point_Mul shareSuite ins keySecret in
      s <- diffieHellmanEncrypt shareSuite (PriShares_Share prishares i)
             diffieBase ;;
      tl <- encryptShares shareSuite prishares keySecret rest (i + 1) ;;
      Ret (s :: tl)
  end.

(** [rand] is the state of random.Stream when the polynomial is picked. *)
Definition ConstructPromise (rand : Stream) (secret keyPair : config.KeyPair)
           (t r : Z) (insurers : list Point) : result T :=
  let n := Go.len insurers in
  let shareSuite := config.Suite secret in
  if n <? t then Panic "Not enough insurers for the secret"
  else
    let r := if r <? t then t else r in
    let r := if n <? r then n else r in
    let pripoly := PriPoly_Pick shareSuite t (config.Secret secret) rand in
    let prishares := PriShares_Split pripoly n in
    let pubPoly := PubPoly_Commit pripoly in
    secrets <- encryptShares shareSuite prishares (config.Secret keyPair)
                 insurers 0 ;;
    Ret {| shareSuite := shareSuite; t := t; r := r; n := n;
           pubKey := config.Public keyPair; pubPoly := pubPoly;
           insurers := insurers; secrets := secrets |}.

Definition VerifyPromise (p : T) (promiserKey : Point) : result unit :=
  if (n p <? t p) || (r p <? t p) || (n p <? r p)
  then Err (errors.New
              "Invalid t-of-n shares promise: expected t <= r <= n")
  else if negb (Point_Equal promiserKey (pubKey p))
  then Err (errors.New
              "Public key of promise differs from what is expected")
  else if negb (Go.len (insurers p) =? n p)
          || negb (Go.len (secrets p) =? n p)
  then Err (errors.New
              "Insurers and secrets array should be of length promise.n")
  else Ret tt.

Definition VerifyShare (p : T) (i : Z) (gKeyPair : config.KeyPair)
  : result unit :=
  if (i <? 0) || (n p <=? i)
  then Err (errors.New "Invalid index. Expected 0 <= i < n")
  else
    let msg := ("The public key the promise recorded for this"
                ++ "shares differs from what is expected")%string in
    ins <- Go.index (insurers p) i ;;
    if negb (Point_Equal ins (config.Public gKeyPair))
    then Err (errors.New msg)
    else
      let diffieBase :=
        Point_Mul (shareSuite p) (pubKey p) (config.Secret gKeyPair) in
      sec <- Go.index (secrets p) i ;;
      share <- diffieHellmanDecrypt (shareSuite p) sec diffieBase ;;
      if negb (PubPoly_Check (pubPoly p) i share)
      then Err (errors.New "The share failed the public polynomial check.")
      else Ret tt.

(** [rand] is the state of random.Stream at the call of anon.Sign. *)
Definition sign (p : T) (i : Z) (gKeyPair : config.KeyPair)
           (msg : list byte) (rand : Stream) : PromiseSignature.T :=
  let set := [config.Public gKeyPair] in
  let sig := anon.Sign (config.Suite gKeyPair) rand msg set 0
               (config.Secret gKeyPair) in
  PromiseSignature.init (config.Suite gKeyPair) sig.

Definition Sign (p : T) (i : Z) (gKeyPair : config.KeyPair) (rand : Stream)
  : PromiseSignature.T :=
  sign p i gKeyPair sigMsg rand.

Definition verifySignature (p : T) (i : Z) (sig : PromiseSignature.T)
           (msg : list byte) : result unit :=
  match PromiseSignature.signature sig with
  | Go.Nil => Err (errors.New "Nil signature")
  | Go.Bytes _ =>
      if (i <? 0) || (n p <=? i)
      then Err (errors.New "Invalid index. Expected 0 <= i < n")
      else
        ins <- Go.index (insurers p) i ;;
        let set := [ins] in
        anon.Verify (PromiseSignature.suite sig) msg set
          (PromiseSignature.signature sig)
  end.

Definition VerifySignature (p : T) (i : Z) (sig : PromiseSignature.T)
  : result unit :=
  verifySignature p i sig sigMsg.

Definition RevealShare (p : T) (i : Z) (gKeyPair : config.KeyPair)
  : result Secret :=
  let diffieBase :=
    Point_Mul (shareSuite p) (pubKey p) (config.Secret gKeyPair) in
  sec <- Go.index (secrets p) i ;;
  diffieHellmanDecrypt (shareSuite p) sec diffieBase.

Definition VerifyRevealedShare (p : T) (i : Z) (share : Secret)
  : result unit :=
  if (n p <? i) || (i <? 0)
  then Err (errors.New "Invalid index. Expected 0 <= i < n")
  else if negb (PubPoly_Check (pubPoly p) i share)
  then Err (errors.New "The share failed the public polynomial check.")
  else Ret tt.

(** [rand] is the state of random.Stream at the signature, [zkrand] the
    stream p.shareSuite.Cipher(abstract.RandomKey). *)
Definition Blame (p : T) (i : Z) (gKeyPair : config.KeyPair)
           (rand zkrand : Stream) : result BlameProof.T :=
  let diffieKey :=
    Point_Mul (shareSuite p) (pubKey p) (config.Secret gKeyPair) in
  let insurerSig := sign p i gKeyPair sigBlameMsg rand in
  proof <- proof.HashProve_Rep (shareSuite p) protocolName zkrand
             (config.Secret gKeyPair) diffieKey (pubKey p) ;;
  Ret (BlameProof.init (shareSuite p) diffieKey proof insurerSig).

Definition VerifyBlame (p : T) (i : Z) (blSig : BlameProof.T)
  : result unit :=
  if (i <? 0) || (n p <=? i)
  then Err (errors.New "Invalid index. Expected 0 <= i < n")
  else
    _ <- verifySignature p i (BlameProof.signature blSig) sigBlameMsg ;;
    _ <- proof.HashVerify_Rep (shareSuite p) protocolName
           (BlameProof.diffieKey blSig) (pubKey p)
           (BlameProof.diffieKeyProof blSig) ;;
    sec <- Go.index (secrets p) i ;;
    share <- diffieHellmanDecrypt (shareSuite p) sec
               (BlameProof.diffieKey blSig) ;;
    if PubPoly_Check (pubPoly p) i share
    then Err (errors.New "Unjustified blame. The share checks out okay.")
    else Ret tt.

(** The loop of Equal: [k] iterations are left, the next index is [i]. *)
Fixpoint equalLoop (p p2 : T) (k : nat) (i : Z) : result bool :=
  match k with
  | O => Ret true
  | S k' =>
      s1 <- Go.index (secrets p) i ;;
      s2 <- Go.index (secrets p2) i ;;
      if negb (Secret_Equal s1 s2) then Ret false
      else
        i1 <- Go.index (insurers p) i ;;
        i2 <- Go.index (insurers p2) i ;;
        if negb (Point_Equal i1 i2) then Ret false
        else equalLoop p p2 k' (i + 1)
  end.

Definition Equal (p p2 : T) : result bool :=
  if negb (n p =? n p2) then Ret false
  else
    same <- equalLoop p p2 (Z.to_nat (n p)) 0 ;;
    if negb same then Ret false
    else Ret (Suite_eqb (shareSuite p) (shareSuite p2)
              && (t p =? t p2) && (r p =? r p2) && (n p =? n p2)
              && Point_Equal (pubKey p) (pubKey p2)
              && PubPoly_Equal (pubPoly p) (pubPoly p2)).

Definition MarshalSize (p : T) : Z :=
  3 * uint32Size + PointLen (shareSuite p)
  + PubPoly_MarshalSize (pubPoly p)
  + n p * PointLen (shareSuite p) + n p * SecretLen (shareSuite p).

(** [for i := range l { pb, err := l[i].MarshalBinary(); ...;
    copy(buf[bufPos + i*elemLen:], pb) }] *)
Fixpoint marshalLoop {A : Type} (marshal : A -> result (list byte))
         (buf : list byte) (bufPos elemLen : Z) (l : list A) (i : Z)
  : result (list byte) :=
  match l with
  | [] => Ret buf
  | x :: rest =>
      pb <- marshal x ;;
      buf <- Go.copy_at buf (bufPos + i * elemLen) pb ;;
      marshalLoop marshal buf bufPos elemLen rest (i + 1)
  end.

Definition MarshalBinary (p : T) : result (list byte) :=
  buf <- Go.make (MarshalSize p) ;;
  let pointLen := PointLen (shareSuite p) in
  let polyLen := PubPoly_MarshalSize (pubPoly p) in
  let secretLen := SecretLen (shareSuite p) in
  buf <- Go.PutUint32_at buf 0 (Go.uint32 (n p)) ;;
  buf <- Go.PutUint32_at buf uint32Size (Go.uint32 (t p)) ;;
  buf <- Go.PutUint32_at buf (2 * uint32Size) (Go.uint32 (r p)) ;;
  pointBuf <- Point_MarshalBinary (pubKey p) ;;
  buf <- Go.copy_at buf (3 * uint32Size) pointBuf ;;
  polyBuf <- PubPoly_MarshalBinary (pubPoly p) ;;
  buf <- Go.copy_at buf (3 * uint32Size + pointLen) polyBuf ;;
  let bufPos := 3 * uint32Size + pointLen + polyLen in
  buf <- marshalLoop Point_MarshalBinary buf bufPos pointLen
           (insurers p) 0 ;;
  let bufPos := bufPos + n p * pointLen in
  buf <- marshalLoop Secret_MarshalBinary buf bufPos secretLen
           (secrets p) 0 ;;
  Ret buf.

(** [for i := 0; i < n; i++ { start := bufPos + i*elemLen;
    end := start + elemLen; l[i].UnmarshalBinary(buf[start:end]) }]:
    [k] iterations are left, the next index is [i]. *)
Fixpoint unmarshalLoop {A : Type} (unmarshal : list byte -> result A)
         (buf : list byte) (bufPos elemLen : Z) (k : nat) (i : Z)
  : result (list A) :=
  match k with
  | O => Ret []
  | S k' =>
      let start := bufPos + i * elemLen in
      let end_ := start + elemLen in
      b <- Go.slice buf start end_ ;;
      x <- unmarshal b ;;
      tl <- unmarshalLoop unmarshal buf bufPos elemLen k' (i + 1) ;;
      Ret (x :: tl)
  end.

(** The receiver is new(Promise).UnmarshalInit(suite): only its
    shareSuite is read, every other field is overwritten, so the
    receiver is represented by its suite. *)
Definition UnmarshalBinary (suite : Suite) (buf : list byte) : result T :=
  let pointLen := PointLen suite in
  let secretLen := SecretLen suite in
  n <- Go.Uint32_at buf 0 ;;
  t <- Go.Uint32_at buf uint32Size ;;
  r <- Go.Uint32_at buf (2 * uint32Size) ;;
  let bufPos := 3 * uint32Size in
  keyBuf <- Go.slice buf bufPos (bufPos + pointLen) ;;
  pubKey <- Point_UnmarshalBinary suite keyBuf ;;
  let bufPos := bufPos + pointLen in
  let pubPoly := PubPoly_Init suite t in
  let polyLen := PubPoly_MarshalSize pubPoly in
  polyBuf <- Go.slice buf bufPos (bufPos + polyLen) ;;
  pubPoly <- PubPoly_UnmarshalBinary pubPoly polyBuf ;;
  let bufPos := bufPos + polyLen in
  insurers <- unmarshalLoop (Point_UnmarshalBinary suite) buf bufPos
                pointLen (Z.to_nat n) 0 ;;
  let bufPos := bufPos + n * pointLen in
  secrets <- unmarshalLoop (Secret_UnmarshalBinary suite) buf bufPos
               secretLen (Z.to_nat n) 0 ;;
  Ret {| shareSuite := suite; t := t; r := r; n := n; pubKey := pubKey;
         pubPoly := pubPoly; insurers := insurers; secrets := secrets |}.

Definition MarshalTo (p : T) (w : io.Writer) : result io.Wrote :=
  io.writing (MarshalBinary p) w.

(** The receiver is represented by its suite, as for UnmarshalBinary;
    [p.MarshalSize()] is computed from the suite, the n just read and the
    polynomial just initialised for the t just read. *)
Definition UnmarshalFrom (suite : Suite) (r : io.Reader)
  : result (io.Got T) :=
  buf <- Go.make (2 * uint32Size) ;;
  let rd := io.ReadFull r buf in
  match io.err rd with
  | Some e =>
      Ret {| io.read := io.n rd; io.outcome := Err e;
             io.rest := io.after rd |}
  | None =>
      let buf := io.data rd in
      let n := io.n rd in
      pn <- Go.Uint32_at buf 0 ;;
      pt <- Go.Uint32_at buf uint32Size ;;
      let pubPoly := PubPoly_Init suite pt in
      let marshalSize :=
        3 * uint32Size + PointLen suite + PubPoly_MarshalSize pubPoly
        + pn * PointLen suite + pn * SecretLen suite in
      finalBuf <- Go.make marshalSize ;;
      let finalBuf := Go.copy finalBuf buf in
      rd2 <- io.ReadFull_at (io.after rd) finalBuf n ;;
      match io.err rd2 with
      | Some e2 =>
          Ret {| io.read := n + io.n rd2; io.outcome := Err e2;
                 io.rest := io.after rd2 |}
      | None =>
          io.returning (n + io.n rd2) (UnmarshalBinary suite (io.data rd2))
            (io.after rd2)
      end
  end.

End Defs.
End Promise.

(** ** PromiseState *)

Module PromiseState.
Section Defs.
Context `{G : Group} {PL : poly.Lib} {AL : anon.Lib} {ZL : proof.Lib}.

Record T : Type := {
  Promise : Promise.T;
  PriShares : poly.PriShares;
  signatures : list (option PromiseSignature.T);
  blames : list (option BlameProof.T)
}.

Definition Init (promise : Promise.T) : result T :=
  let shares := PriShares_Empty (Promise.shareSuite promise)
                  (Promise.t promise) (Promise.n promise) in
  if Promise.n promise <? 0 then Panic "makeslice: len out of range"
  else
    Ret {| Promise := promise; PriShares := shares;
           signatures := repeat None (Z.to_nat (Promise.n promise));
           blames := repeat None (Z.to_nat (Promise.n promise)) |}.

Definition AddSignature (ps : T) (i : Z) (sig : PromiseSignature.T)
  : result T :=
  sigs <- Go.assign (signatures ps) i (Some sig) ;;
  Ret {| Promise := Promise ps; PriShares := PriShares ps;
         signatures := sigs; blames := blames ps |}.

Definition AddBlameProof (ps : T) (i : Z) (bproof : BlameProof.T)
  : result T :=
  bls <- Go.assign (blames ps) i (Some bproof) ;;
  Ret {| Promise := Promise ps; PriShares := PriShares ps;
         signatures := signatures ps; blames := bls |}.

(** The loop of PromiseCertified: [k] iterations are left, the next
    index is [i]; the result is the final value of validSigs. *)
Fixpoint certifiedLoop (ps : T) (k : nat) (i : Z) (validSigs : Z)
  : result Z :=
  match k with
  | O => Ret validSigs
  | S k' =>
      sigSlot <- Go.index (signatures ps) i ;;
      sigOk <- match sigSlot with
               | None => Ret false
               | Some sig =>
                   returns_nil (Promise.VerifySignature (Promise ps) i sig)
               end ;;
      let validSigs := if sigOk then validSigs + 1 else validSigs in
      blameSlot <- Go.index (blames ps) i ;;
      blameOk <- match blameSlot with
                 | None => Ret false
                 | Some bp =>
                     returns_nil (Promise.VerifyBlame (Promise ps) i bp)
                 end ;;
      if blameOk
      then Err (errors.New
             "A valid blame proofs proves this Promise to be uncertified.")
      else certifiedLoop ps k' (i + 1) validSigs
  end.

Definition PromiseCertified (ps : T) (promiserKey : Point) : result unit :=
  _ <- Promise.VerifyPromise (Promise ps) promiserKey ;;
  validSigs <- certifiedLoop ps (Z.to_nat (Promise.n (Promise ps))) 0 0 ;;
  if validSigs <? Promise.r (Promise ps)
  then Err (errors.New "Not enough signatures yet to be certified")
  else Ret tt.

End Defs.
End PromiseState.

(** ** The scenarios of the package's tests *)

Module PromiseTest.
Section Defs.
Context `{G : Group} {PL : poly.Lib} {AL : anon.Lib} {ZL : proof.Lib}.

(** [promise.secrets[i] = share] *)
Definition corruptShare (p : Promise.T) (i : Z) (share : Secret)
  : result Promise.T :=
  secrets <- Go.assign (Promise.secrets p) i share ;;
  Ret {| Promise.shareSuite := Promise.shareSuite p;
         Promise.t := Promise.t p; Promise.r := Promise.r p;
         Promise.n := Promise.n p; Promise.pubKey := Promise.pubKey p;
         Promise.pubPoly := Promise.pubPoly p;
         Promise.insurers := Promise.insurers p;
         Promise.secrets := secrets |}.

(** The loop of TestPromiseStatePromiseCertified over the key pairs
    [kps] of the insurers i, i + 1, ...: each insurer adds its signature
    and its blame proof,
    [promiseState.AddSignature(i, promise.Sign(i, insurerKeys[i]));
     bproof, _ := promise.Blame(i, insurerKeys[i]);
     promiseState.AddBlameProof(i, bproof)];
    when Blame fails, bproof is nil. [ps.Promise] shares its arrays with
    [promise]. *)
Fixpoint endorseLoop (promise : Promise.T) (ps : PromiseState.T)
         (kps : list config.KeyPair) (i : Z) (rand zkrand : Stream)
  : result PromiseState.T :=
  match kps with
  | [] => Ret ps
  | kp :: others =>
      ps <- PromiseState.AddSignature ps i
              (Promise.Sign promise i kp rand) ;;
      ps <- match Promise.Blame promise i kp rand zkrand with
            | Ret bproof => PromiseState.AddBlameProof ps i bproof
            | Err _ =>
                bls <- Go.assign (PromiseState.blames ps) i None ;;
                Ret {| PromiseState.Promise := PromiseState.Promise ps;
                       PromiseState.PriShares := PromiseState.PriShares ps;
                       PromiseState.signatures :=
                         PromiseState.signatures ps;
                       PromiseState.blames := bls |}
            | Panic m => Panic m
            end ;;
      endorseLoop promise ps others (i + 1) rand zkrand
  end.

End Defs.
End PromiseTest.

(** ** What the development assumes of the collaborating packages *)

(** [no_panic c]: the call returns (a value or an error). *)
Definition no_panic {A : Type} (c : result A) : Prop :=
  match c with Panic _ => False | _ => True end.

(** Modelled from the spec: package abstract is not part of the sources;
    these are the facts the specification states about it. Public keys are
    [g * secret] and scalar multiplication commutes ("both sides compute
    the same D by commutativity of scalar multiplication"); secrets
    support + and -; the marshalling of points and secrets is canonical,
    of the fixed lengths PLEN and SLEN, and does not fail on a group
    element; unmarshalling rejects a buffer with an error. *)
Class GroupLaws `{G : Group} : Prop := {
  Point_Mul_comm : forall s a b,
    Point_Mul s (Point_Mul s (Point_Base s) a) b
    = Point_Mul s (Point_Mul s (Point_Base s) b) a;
  Secret_Sub_Add : forall s x m, Secret_Sub s (Secret_Add s x m) m = x;
  Point_Marshal_ok : forall s P,
    exists buf, Point_MarshalBinary P = Ret buf /\ Go.len buf = PointLen s;
  Point_Unmarshal_Marshal : forall s P buf,
    Point_MarshalBinary P = Ret buf -> Point_UnmarshalBinary s buf = Ret P;
  Point_Unmarshal_no_panic : forall s buf,
    no_panic (Point_UnmarshalBinary s buf);
  Secret_Marshal_ok : forall s x,
    exists buf, Secret_MarshalBinary x = Ret buf /\ Go.len buf = SecretLen s;
  Secret_Unmarshal_Marshal : forall s x buf,
    Secret_MarshalBinary x = Ret buf -> Secret_UnmarshalBinary s buf = Ret x
}.

(** [PubPoly_codec s k pub]: [pub] is a commitment that the polynomial
    codec writes in MarshalSize bytes and reads back into a receiver
    prepared by Init(s, k, nil). *)
Definition PubPoly_codec `{G : Group} {PL : poly.Lib} (s : Suite) (k : Z)
           (pub : PubPoly) : Prop :=
  PubPoly_MarshalSize (PubPoly_Init s k) = PubPoly_MarshalSize pub
  /\ exists buf, PubPoly_MarshalBinary pub = Ret buf
                 /\ Go.len buf = PubPoly_MarshalSize pub
                 /\ PubPoly_UnmarshalBinary (PubPoly_Init s k) buf = Ret pub.

(** Modelled from the spec: package poly is not part of the sources. The
    share of index i of a split polynomial passes Check(i, _) against the
    commitment of the same polynomial (split, check and reveal use the
    same abscissa convention); a commitment of k >= 1 coefficients has a
    fixed length given k and the suite and is read back by the codec;
    Equal is reflexive. *)
Class PolyLaws `{G : Group} {PL : poly.Lib} : Prop := {
  Check_Share : forall pp num i,
    0 <= i < num ->
    PubPoly_Check (PubPoly_Commit pp) i
      (PriShares_Share (PriShares_Split pp num) i) = true;
  Commit_codec : forall s k s0 rand,
    1 <= k -> PubPoly_codec s k (PubPoly_Commit (PriPoly_Pick s k s0 rand));
  PubPoly_Equal_refl : forall pub, PubPoly_Equal pub pub = true
}.

(** Modelled from the spec: package anon is not part of the sources. A
    signature made with the secret of the only member of a one-element
    ring is a non-nil byte string that verifies against that ring and
    message, and against no other ring or message ("ring differs",
    "message differs"); Verify reports failure by an error. *)
Class AnonLaws `{G : Group} {AL : anon.Lib} : Prop := {
  Sign_not_nil : forall s rand msg set mine x,
    anon.Sign s rand msg set mine x <> Go.Nil;
  Verify_Sign : forall s rand msg x,
    let P := Point_Mul s (Point_Base s) x in
    anon.Verify s msg [P] (anon.Sign s rand msg [P] 0 x) = Ret tt;
  Verify_binds : forall s rand msg msg' x P',
    let P := Point_Mul s (Point_Base s) x in
    anon.Verify s msg' [P'] (anon.Sign s rand msg [P] 0 x) = Ret tt ->
    P' = P /\ msg' = msg;
  Verify_no_panic : forall s msg set sig, no_panic (anon.Verify s msg set sig)
}.

(** Modelled from the spec: package proof is not part of the sources. The
    prover of [D = x * P] succeeds on a true statement with a non-nil
    proof that the verifier accepts; the verifier reports failure by an
    error. *)
Class ProofLaws `{G : Group} {ZL : proof.Lib} : Prop := {
  HashProve_complete : forall s name rand x P,
    exists prf,
      proof.HashProve_Rep s name rand x (Point_Mul s P x) P
      = Ret (Go.Bytes prf)
      /\ proof.HashVerify_Rep s name (Point_Mul s P x) P (Go.Bytes prf)
         = Ret tt;
  HashVerify_no_panic : forall s name D P prf,
    no_panic (proof.HashVerify_Rep s name D P prf)
}.

(** ** A small instance of the collaborating packages

    The group is the additive group of integers modulo 5 with generator 1
    (so [x * P] is the product modulo 5); secrets are the field of 5
    elements. It is used to run the package on concrete inputs. *)

Module Toy.

Inductive F5 : Type := f0 | f1 | f2 | f3 | f4.

Definition to_Z (a : F5) : Z :=
  match a with f0 => 0 | f1 => 1 | f2 => 2 | f3 => 3 | f4 => 4 end.

Definition of_Z (z : Z) : F5 :=
  match z mod 5 with
  | 0 => f0 | 1 => f1 | 2 => f2 | 3 => f3 | _ => f4
  end.

Definition add (a b : F5) : F5 := of_Z (to_Z a + to_Z b).
Definition sub (a b : F5) : F5 := of_Z (to_Z a - to_Z b).
Definition mul (a b : F5) : F5 := of_Z (to_Z a * to_Z b).

Definition F5_eq_dec (a b : F5) : {a = b} + {a <> b}.
Proof. decide equality. Defined.

Definition unit_eq_dec (a b : unit) : {a = b} + {a <> b}.
Proof. decide equality. Defined.

Definition marshal1 (a : F5) : byte := Go.byte_of_Z (to_Z a).

Definition unmarshal1 (b : byte) : result F5 :=
  if Go.byte_to_Z b <? 5 then Ret (of_Z (Go.byte_to_Z b))
  else Err (errors.New "invalid encoding").

Definition unmarshal (buf : list byte) : result F5 :=
  match buf with
  | [b] => unmarshal1 b
  | _ => Err (errors.New "invalid length")
  end.

(** The secret picked from a stream: the sum of its bytes. *)
Definition pick (stream : list byte) : F5 :=
  of_Z (fold_right (fun b acc => Go.byte_to_Z b + acc) 0 stream).

Definition group : Group := {|
  Suite := unit;
  Point := F5;
  Secret := F5;
  Stream := list byte;
  Suite_eq_dec := unit_eq_dec;
  Point_eq_dec := F5_eq_dec;
  Secret_eq_dec := F5_eq_dec;
  PointLen := fun _ => 1;
  SecretLen := fun _ => 1;
  Cipher := fun _ key => key;
  Secret_Pick := fun _ stream => pick stream;
  Secret_Add := fun _ => add;
  Secret_Sub := fun _ => sub;
  Point_Base := fun _ => f1;
  Point_Mul := fun _ => mul;
  Point_MarshalBinary := fun P => Ret [marshal1 P];
  Point_UnmarshalBinary := fun _ => unmarshal;
  Secret_MarshalBinary := fun x => Ret [marshal1 x];
  Secret_UnmarshalBinary := fun _ => unmarshal
|}.

(** Coefficients 1 .. k of a picked polynomial, from the stream. *)
Fixpoint coeffs (k : nat) (rand : list byte) : list F5 :=
  match k with
  | O => []
  | S k' =>
      match rand with
      | [] => f1 :: coeffs k' []
      | b :: tl => of_Z (Go.byte_to_Z b) :: coeffs k' tl
      end
  end.

Definition Pick (k : Z) (s0 : F5) (rand : list byte) : list F5 :=
  match Z.to_nat k with
  | O => []
  | S k' => s0 :: coeffs k' rand
  end.

(** Horner evaluation of [a0 + a1 x + ...] . *)
Fixpoint eval (p : list F5) (x : F5) : F5 :=
  match p with
  | [] => f0
  | a :: rest => add a (mul x (eval rest x))
  end.

(** The abscissa of index i is i + 1. *)
Definition abscissa (i : Z) : F5 := of_Z (i + 1).

Definition Split (pp : list F5) (num : Z) : list F5 :=
  map (fun i => eval pp (abscissa (Z.of_nat i))) (seq 0 (Z.to_nat num)).

Definition Share (shares : list F5) (i : Z) : F5 :=
  nth (Z.to_nat i) shares f0.

Definition Check (pub : list F5) (i : Z) (share : F5) : bool :=
  if F5_eq_dec (mul f1 share) (eval pub (abscissa i)) then true else false.

Fixpoint unmarshalAll (buf : list byte) : result (list F5) :=
  match buf with
  | [] => Ret []
  | b :: rest =>
      x <- unmarshal1 b ;;
      tl <- unmarshalAll rest ;;
      Ret (x :: tl)
  end.

Definition polylib : @poly.Lib group :=
  @poly.Build_Lib group
    (list F5) (list F5) (list F5)
    (fun _ k s0 rand => Pick k s0 rand)
    Split
    Share
    (fun _ _ num => repeat f0 (Z.to_nat num))
    (fun pp => map (mul f1) pp)
    (fun _ k => repeat f0 (Z.to_nat k))
    Check
    (fun a b => if list_eq_dec F5_eq_dec a b then true else false)
    (fun pub => Go.len pub)
    (fun pub => Ret (map marshal1 pub))
    (fun recv buf =>
       if Go.len buf =? Go.len recv then unmarshalAll buf
       else Err (errors.New "invalid length")).

(** A signature names the public key of the signer and the message. *)
Definition anonlib : @anon.Lib group :=
  @anon.Build_Lib group
    (fun _ _ msg _ _ x => Go.Bytes (marshal1 (mul f1 x) :: msg))
    (fun _ msg set sig =>
       match set, sig with
       | [P], Go.Bytes l =>
           if Go.list_byte_eqb l (marshal1 P :: msg) then Ret tt
           else Err (errors.New "invalid signature")
       | _, _ => Err (errors.New "invalid signature")
       end).

(** A proof of [D = x * P] is the encoding of [x]. *)
Definition prooflib : @proof.Lib group :=
  @proof.Build_Lib group
    (fun _ _ _ x D P =>
       if F5_eq_dec D (mul P x) then Ret (Go.Bytes [marshal1 x])
       else Err (errors.New "the statement is false"))
    (fun _ _ D P prf =>
       match prf with
       | Go.Bytes [b] =>
           match unmarshal1 b with
           | Ret x => if F5_eq_dec D (mul P x) then Ret tt
                      else Err (errors.New "invalid proof")
           | _ => Err (errors.New "invalid proof")
           end
       | _ => Err (errors.New "invalid proof")
       end).

(** Key pairs [Gen]erated from a secret: the public key is [g * x]. *)
Definition keyPair (x : F5) : @config.KeyPair group :=
  @config.Build_KeyPair group tt (mul f1 x) x.

(** The promise of the runs below: secret 4, promiser secret 2, three
    insurers with secrets 1, 2, 3, threshold t = 2 and r = 2. *)
Definition secretKey : @config.KeyPair group := keyPair f4.
Definition promiserKey : @config.KeyPair group := keyPair f2.
Definition insurerKeys : list (@config.KeyPair group) :=
  [keyPair f1; keyPair f2; keyPair f3].
Definition rand : list byte := [x03; x01].

Definition basicPromise : @Promise.T group polylib :=
  @Promise.Build_T group polylib tt 2 2 3 f2 [f4; f3] [f1; f2; f3]
    [f4; f4; f4].

(** The promise with secrets[0] replaced by another scalar. *)
Definition corruptedPromise : @Promise.T group polylib :=
  @Promise.Build_T group polylib tt 2 2 3 f2 [f4; f3] [f1; f2; f3]
    [f0; f4; f4].

(** A state holding the signatures of insurers 0 and 1. *)
Definition twoSignatures : @PromiseState.T group polylib :=
  @PromiseState.Build_T group polylib basicPromise [f0; f0; f0]
    [Some (@Promise.sign group polylib anonlib basicPromise 0 (keyPair f1)
             sigMsg []);
     Some (@Promise.sign group polylib anonlib basicPromise 1 (keyPair f2)
             sigMsg []);
     None]
    [None; None; None].

(** A stream that ends inside the message its prefix declares, and a
    writer that takes every byte. *)
Definition shortStream : io.Reader :=
  {| io.pending := [x02; x00; x00; x00; x07];
     io.failure := io.EOF |}.

Definition sink : io.Writer :=
  {| io.written := [x07]; io.room := None;
     io.shortWrite := errors.New "short write" |}.

(** A blame proof around the endorsement of insurer 0. *)
Definition endorsementAsBlame : @BlameProof.T group :=
  @BlameProof.init group tt f2 (Go.Bytes [x01])
    (@Promise.sign group polylib anonlib basicPromise 0 (keyPair f1)
       sigMsg []).

End Toy.

(** ** Notions used to state the properties *)

(** The errors of the package, by their messages. *)
Definition BufferTooSmall : error := errors.New "Buffer size too small".
Definition BadIndex : error :=
  errors.New "Invalid index. Expected 0 <= i < n".
Definition NilSignature : error := errors.New "Nil signature".
Definition BadShare : error :=
  errors.New "The share failed the public polynomial check.".
Definition UnjustifiedBlame : error :=
  errors.New "Unjustified blame. The share checks out okay.".
Definition PromiseRepudiated : error :=
  errors.New "A valid blame proofs proves this Promise to be uncertified.".
Definition InsufficientSignatures : error :=
  errors.New "Not enough signatures yet to be certified".

Section Notions.
Context `{G : Group} {PL : poly.Lib} {AL : anon.Lib} {ZL : proof.Lib}.

(** A key pair drawn by [kp.Gen(s, random.Stream)]: the public key is
    [g * secret] in the group of [s]. *)
Definition honestKey (s : Suite) (kp : config.KeyPair) : Prop :=
  config.Suite kp = s
  /\ config.Public kp = Point_Mul s (Point_Base s) (config.Secret kp).

(** The list of public keys handed to ConstructPromise. *)
Definition insurerList (kps : list config.KeyPair) : list Point :=
  map config.Public kps.

(** The arrays of a promise have the length it records. *)
Definition arraysSynchronised (p : Promise.T) : Prop :=
  Go.len (Promise.insurers p) = Promise.n p
  /\ Go.len (Promise.secrets p) = Promise.n p.

(** The slots of a state are allocated for the n insurers, as Init
    leaves them and AddSignature and AddBlameProof keep them. *)
Definition slotsAllocated (ps : PromiseState.T) : Prop :=
  Go.len (PromiseState.signatures ps)
  = Promise.n (PromiseState.Promise ps)
  /\ Go.len (PromiseState.blames ps)
     = Promise.n (PromiseState.Promise ps).

(** Slot [i] holds a signature that passes VerifySignature now. *)
Definition validSignatureAt (ps : PromiseState.T) (i : Z) : bool :=
  match nth_error (PromiseState.signatures ps) (Z.to_nat i) with
  | Some (Some sig) =>
      is_nil (Promise.VerifySignature (PromiseState.Promise ps) i sig)
  | _ => false
  end.

(** Slot [i] holds a blame proof that passes VerifyBlame now. *)
Definition validBlameAt (ps : PromiseState.T) (i : Z) : bool :=
  match nth_error (PromiseState.blames ps) (Z.to_nat i) with
  | Some (Some bp) =>
      is_nil (Promise.VerifyBlame (PromiseState.Promise ps) i bp)
  | _ => false
  end.

(** The indices [0, 1, ..., num - 1]. *)
Definition indices (num : Z) : list Z :=
  map Z.of_nat (seq 0 (Z.to_nat num)).

(** The number of indices holding a valid signature. *)
Definition validSignatures (ps : PromiseState.T) : Z :=
  Go.len (filter (validSignatureAt ps)
            (indices (Promise.n (PromiseState.Promise ps)))).

(** A fully populated PromiseSignature: the signature is a byte string
    (not nil) whose length fits the 32-bit length prefix. *)
Definition populatedSignature (x : PromiseSignature.T) : Prop :=
  exists l, PromiseSignature.signature x = Go.Bytes l
            /\ Go.len l < 2 ^ 32.

(** A fully populated BlameProof: the proof is a byte string whose length
    fits its prefix, the embedded signature is populated, of the suite of
    the proof, and its marshal size fits its prefix. *)
Definition populatedBlame (x : BlameProof.T) : Prop :=
  PromiseSignature.suite (BlameProof.signature x) = BlameProof.suite x
  /\ (exists prf, BlameProof.diffieKeyProof x = Go.Bytes prf
                  /\ Go.len prf < 2 ^ 32)
  /\ (exists l, PromiseSignature.signature (BlameProof.signature x)
                = Go.Bytes l
                /\ uint32Size + Go.len l < 2 ^ 32).

(** A fully populated Promise: the arrays have length n; t, r and n fit
    their 32-bit fields; the commitment is one of t coefficients over the
    share suite. *)
Definition populatedPromise (x : Promise.T) : Prop :=
  arraysSynchronised x
  /\ 0 <= Promise.t x < 2 ^ 32
  /\ 0 <= Promise.r x < 2 ^ 32
  /\ Promise.n x < 2 ^ 32
  /\ PubPoly_codec (Promise.shareSuite x) (Promise.t x) (Promise.pubPoly x).

End Notions.

(** * Properties *)

(** ** The small instance satisfies the assumed laws *)

Module ToyFacts.
Import Toy.

Lemma mul_f1_l (a : F5) : mul f1 a = a.
Proof. destruct a; reflexivity. Qed.

Lemma map_mul_f1 (l : list F5) : map (mul f1) l = l.
Proof.
  induction l as [|a l IH]; simpl; [reflexivity|].
  now rewrite mul_f1_l, IH.
Qed.

Lemma unmarshal1_marshal1 (a : F5) : unmarshal1 (marshal1 a) = Ret a.
Proof. destruct a; reflexivity. Qed.

Lemma marshal1_inj (a b : F5) : marshal1 a = marshal1 b -> a = b.
Proof. destruct a, b; intros H; try reflexivity; discriminate H. Qed.

Lemma unmarshalAll_marshal (l : list F5) :
  unmarshalAll (map marshal1 l) = Ret l.
Proof.
  induction l as [|a l IH]; simpl; [reflexivity|].
  now rewrite unmarshal1_marshal1, IH.
Qed.

Lemma coeffs_length (k : nat) (rand : list byte) :
  List.length (coeffs k rand) = k.
Proof.
  revert rand; induction k as [|k IH]; intros rand; simpl; [reflexivity|].
  destruct rand; simpl; now rewrite IH.
Qed.

Lemma Pick_length (k : Z) (s0 : F5) (rand : list byte) :
  List.length (Pick k s0 rand) = Z.to_nat k.
Proof.
  unfold Pick. destruct (Z.to_nat k); simpl; [reflexivity|].
  now rewrite coeffs_length.
Qed.

Lemma Share_Split (pp : list F5) (num i : Z) :
  0 <= i < num -> Share (Split pp num) i = eval pp (abscissa i).
Proof.
  intros Hi. unfold Share, Split.
  set (f := fun j : nat => eval pp (abscissa (Z.of_nat j))).
  rewrite nth_indep with (d' := f O)
    by (rewrite length_map, length_seq; lia).
  rewrite (map_nth f), seq_nth by lia. unfold f; simpl.
  now rewrite Z2Nat.id by lia.
Qed.

Lemma group_laws : @GroupLaws group.
Proof.
  constructor.
  - intros s a b; destruct a, b; reflexivity.
  - intros s x m; destruct x, m; reflexivity.
  - intros s P; exists [marshal1 P]; split; reflexivity.
  - intros s P buf H; injection H as <-. simpl. apply unmarshal1_marshal1.
  - intros s buf; simpl. destruct buf as [|b [|c rest]]; simpl; trivial.
    unfold unmarshal1; destruct (_ <? _); exact I.
  - intros s x; exists [marshal1 x]; split; reflexivity.
  - intros s x buf H; injection H as <-. simpl. apply unmarshal1_marshal1.
Qed.

Lemma poly_laws : @PolyLaws group polylib.
Proof.
  constructor.
  - intros pp num i Hi. simpl. unfold Check.
    rewrite Share_Split, map_mul_f1, mul_f1_l by assumption.
    destruct (F5_eq_dec _ _); congruence.
  - intros s k s0 rand Hk. unfold PubPoly_codec. simpl.
    rewrite map_mul_f1. unfold Go.len.
    rewrite repeat_length, Pick_length. split; [reflexivity|].
    exists (map marshal1 (Pick k s0 rand)). repeat split.
    + now rewrite length_map, Pick_length.
    + rewrite length_map, Pick_length, Z.eqb_refl.
      apply unmarshalAll_marshal.
  - intros pub; simpl. destruct (list_eq_dec _ _ _); congruence.
Qed.

Lemma list_byte_eqb_refl (l : list byte) : Go.list_byte_eqb l l = true.
Proof. unfold Go.list_byte_eqb; destruct (list_eq_dec _ _ _); congruence. Qed.

Lemma list_byte_eqb_eq (a b : list byte) :
  Go.list_byte_eqb a b = true -> a = b.
Proof.
  unfold Go.list_byte_eqb; destruct (list_eq_dec _ _ _); congruence.
Qed.

Lemma anon_laws : @AnonLaws group anonlib.
Proof.
  constructor.
  - intros; simpl; discriminate.
  - intros s rand msg x; simpl. now rewrite list_byte_eqb_refl.
  - intros s rand msg msg' x P'; simpl.
    destruct (Go.list_byte_eqb _ _) eqn:E; [|discriminate].
    intros _. apply list_byte_eqb_eq in E. injection E as E1 E2.
    split; [|now symmetry]. symmetry; now apply marshal1_inj.
  - intros s msg set sig; simpl.
    destruct set as [|P [|Q rest]]; simpl; trivial.
    destruct sig; simpl; trivial.
    destruct (Go.list_byte_eqb _ _); exact I.
Qed.

Lemma proof_laws : @ProofLaws group prooflib.
Proof.
  constructor.
  - intros s name rand x P; exists [marshal1 x]; simpl.
    rewrite unmarshal1_marshal1.
    destruct (F5_eq_dec _ _); [split; reflexivity|congruence].
  - intros s name D P prf; simpl.
    destruct prf as [|[|b [|c rest]]]; simpl; trivial.
    destruct (unmarshal1 b); simpl; trivial.
    destruct (F5_eq_dec _ _); exact I.
Qed.

End ToyFacts.

(** ** Facts about the run-time fragment *)

Module GoFacts.

Lemma len_nonneg {A : Type} (l : list A) : 0 <= Go.len l.
Proof. unfold Go.len; lia. Qed.

Lemma len_app {A : Type} (a b : list A) :
  Go.len (a ++ b) = Go.len a + Go.len b.
Proof. unfold Go.len; rewrite length_app; lia. Qed.

Lemma index_ok {A : Type} (l : list A) (i : Z) (a : A) :
  0 <= i -> nth_error l (Z.to_nat i) = Some a -> Go.index l i = Ret a.
Proof.
  intros Hi Hn. unfold Go.index.
  assert (Hlt : (Z.to_nat i < List.length l)%nat)
    by (apply nth_error_Some; congruence).
  replace (i <? 0) with false by (symmetry; apply Z.ltb_ge; lia).
  replace (Go.len l <=? i) with false
    by (symmetry; apply Z.leb_gt; unfold Go.len; lia).
  simpl. now rewrite Hn.
Qed.

Lemma index_in_range {A : Type} (l : list A) (i : Z) :
  0 <= i < Go.len l -> exists a,
    nth_error l (Z.to_nat i) = Some a /\ Go.index l i = Ret a.
Proof.
  intros Hi. destruct (nth_error l (Z.to_nat i)) as [a|] eqn:E.
  - exists a; split; [reflexivity|]. apply index_ok; [lia|assumption].
  - apply nth_error_None in E. unfold Go.len in Hi. lia.
Qed.

Lemma index_out_of_range {A : Type} (l : list A) (i : Z) :
  i < 0 \/ Go.len l <= i -> Go.index l i = Panic "index out of range".
Proof.
  intros Hi. unfold Go.index.
  destruct (i <? 0) eqn:E1; [reflexivity|].
  destruct (Go.len l <=? i) eqn:E2; [reflexivity|].
  apply Z.ltb_ge in E1. apply Z.leb_gt in E2. lia.
Qed.

Lemma make_ok (n : Z) : 0 <= n -> Go.make n = Ret (repeat x00 (Z.to_nat n)).
Proof.
  intros Hn. unfold Go.make.
  now replace (n <? 0) with false by (symmetry; apply Z.ltb_ge; lia).
Qed.

Lemma slice_app {A : Type} (pre mid post : list A) (lo hi : Z) :
  Go.len pre = lo -> Go.len mid = hi - lo ->
  Go.slice (pre ++ mid ++ post) lo hi = Ret mid.
Proof.
  intros Hpre Hmid. unfold Go.slice.
  pose proof (len_nonneg pre). pose proof (len_nonneg mid).
  replace (lo <? 0) with false by (symmetry; apply Z.ltb_ge; lia).
  replace (hi <? lo) with false by (symmetry; apply Z.ltb_ge; lia).
  replace (Go.len (pre ++ mid ++ post) <? hi) with false.
  2:{ symmetry; apply Z.ltb_ge. rewrite !len_app.
      pose proof (len_nonneg post). lia. }
  simpl. f_equal.
  replace (Z.to_nat lo) with (List.length pre + 0)%nat
    by (unfold Go.len in Hpre; lia).
  rewrite skipn_app, skipn_all2 by lia.
  replace (List.length pre + 0 - List.length pre)%nat with O by lia.
  simpl.
  replace (Z.to_nat (hi - lo)) with (List.length mid + 0)%nat
    by (unfold Go.len in Hmid; lia).
  rewrite firstn_app_2. simpl. apply app_nil_r.
Qed.

Lemma slice_from_app {A : Type} (pre rest : list A) (lo : Z) :
  Go.len pre = lo -> Go.slice_from (pre ++ rest) lo = Ret rest.
Proof.
  intros Hpre. unfold Go.slice_from.
  assert (E : Go.slice (pre ++ rest ++ []) lo (Go.len (pre ++ rest))
              = Ret rest)
    by (apply slice_app; [assumption|rewrite len_app; lia]).
  now rewrite app_nil_r in E.
Qed.

Lemma firstn_len_app {A : Type} (pre rest : list A) (off : Z) :
  Go.len pre = off -> firstn (Z.to_nat off) (pre ++ rest) = pre.
Proof.
  intros Hpre.
  replace (Z.to_nat off) with (List.length pre + 0)%nat
    by (unfold Go.len in Hpre; lia).
  rewrite firstn_app_2. simpl. apply app_nil_r.
Qed.

Lemma copy_fill (mid post src : list byte) :
  List.length mid = List.length src ->
  Go.copy (mid ++ post) src = src ++ post.
Proof.
  intros Hlen. unfold Go.copy. f_equal.
  - apply firstn_all2. rewrite length_app. lia.
  - rewrite <- Hlen.
    replace (List.length mid) with (List.length mid + 0)%nat by lia.
    now rewrite skipn_app, skipn_all2, Nat.add_0_r, Nat.sub_diag by lia.
Qed.

(** Copying into a window of the right size replaces the window. *)
Lemma copy_at_fill (pre mid post src : list byte) (off : Z) :
  Go.len pre = off -> List.length mid = List.length src ->
  Go.copy_at (pre ++ mid ++ post) off src = Ret (pre ++ src ++ post).
Proof.
  intros Hpre Hlen. unfold Go.copy_at.
  rewrite slice_from_app by assumption. simpl.
  now rewrite firstn_len_app, copy_fill by assumption.
Qed.

Lemma PutUint32_at_fill (pre mid post : list byte) (off v : Z) :
  Go.len pre = off -> List.length mid = 4%nat ->
  Go.PutUint32_at (pre ++ mid ++ post) off v
  = Ret (pre ++ Go.le32 v ++ post).
Proof.
  intros Hpre Hlen. unfold Go.PutUint32_at.
  rewrite slice_from_app by assumption. simpl.
  destruct mid as [|a [|b [|c [|d [|e mid]]]]]; try discriminate Hlen.
  simpl. now rewrite firstn_len_app by assumption.
Qed.

Lemma byte_to_Z_of_Z (z : Z) : Go.byte_to_Z (Go.byte_of_Z z) = z mod 256.
Proof.
  unfold Go.byte_to_Z, Go.byte_of_Z.
  assert (Hr : 0 <= z mod 256 < 256) by (apply Z.mod_pos_bound; lia).
  destruct (Byte.of_N (Z.to_N (z mod 256))) as [b|] eqn:E.
  - apply Byte.to_of_N in E. rewrite E. lia.
  - apply Byte.of_N_None_iff in E. lia.
Qed.

Lemma byte_to_Z_range (b : byte) : 0 <= Go.byte_to_Z b < 256.
Proof.
  unfold Go.byte_to_Z. pose proof (Byte.to_N_bounded b). lia.
Qed.

Lemma Uint32_le32 (v : Z) (rest : list byte) :
  Go.Uint32 (Go.le32 v ++ rest) = Ret (v mod 2 ^ 32).
Proof.
  unfold Go.le32, Go.Uint32; cbn [app]. rewrite !byte_to_Z_of_Z. f_equal.
  replace (v / 2 ^ 16) with (v / 256 / 256)
    by (rewrite Z.div_div by lia; reflexivity).
  replace (v / 2 ^ 24) with (v / 256 / 256 / 256)
    by (rewrite !Z.div_div by lia; reflexivity).
  change (2 ^ 8) with 256. change (2 ^ 16) with 65536.
  change (2 ^ 24) with 16777216. change (2 ^ 32) with 4294967296.
  set (q1 := v / 256). set (q2 := q1 / 256). set (q3 := q2 / 256).
  pose proof (Z.div_mod v 256 ltac:(lia)) as E0.
  pose proof (Z.div_mod q1 256 ltac:(lia)) as E1.
  pose proof (Z.div_mod q2 256 ltac:(lia)) as E2.
  pose proof (Z.div_mod q3 256 ltac:(lia)) as E3.
  fold q1 in E0. fold q2 in E1. fold q3 in E2.
  pose proof (Z.mod_pos_bound v 256 ltac:(lia)).
  pose proof (Z.mod_pos_bound q1 256 ltac:(lia)).
  pose proof (Z.mod_pos_bound q2 256 ltac:(lia)).
  pose proof (Z.mod_pos_bound q3 256 ltac:(lia)).
  apply Z.mod_unique with (q := q3 / 256); lia.
Qed.

Lemma Uint32_range (b : list byte) (v : Z) :
  Go.Uint32 b = Ret v -> 0 <= v < 2 ^ 32.
Proof.
  unfold Go.Uint32.
  destruct b as [|b0 [|b1 [|b2 [|b3 rest]]]]; try discriminate.
  intros H.
  assert (E : v = Go.byte_to_Z b0 + 256 * Go.byte_to_Z b1
                  + 65536 * Go.byte_to_Z b2 + 16777216 * Go.byte_to_Z b3)
    by (symmetry; injection H; trivial).
  pose proof (byte_to_Z_range b0). pose proof (byte_to_Z_range b1).
  pose proof (byte_to_Z_range b2). pose proof (byte_to_Z_range b3).
  change (2 ^ 32) with 4294967296. lia.
Qed.

Lemma le32_length (v : Z) : List.length (Go.le32 v) = 4%nat.
Proof. reflexivity. Qed.

Lemma uint32_small (v : Z) : 0 <= v < 2 ^ 32 -> Go.uint32 v = v.
Proof. intros H; unfold Go.uint32; now apply Z.mod_small. Qed.

End GoFacts.

(** ** Share encryption and promise construction *)

Section ConstructionFacts.
Context `{G : Group} {PL : poly.Lib} {AL : anon.Lib} {ZL : proof.Lib}.
Context {GL : GroupLaws} {PLaws : PolyLaws}.

Lemma in_range_guard (i num : Z) :
  0 <= i < num -> (i <? 0) || (num <=? i) = false.
Proof.
  intros Hi. apply orb_false_iff; split;
    [apply Z.ltb_ge | apply Z.leb_gt]; lia.
Qed.

Lemma out_of_range_guard (i num : Z) :
  i < 0 \/ num <= i -> (i <? 0) || (num <=? i) = true.
Proof.
  intros Hi. apply orb_true_iff.
  destruct Hi; [left; apply Z.ltb_lt | right; apply Z.leb_le]; lia.
Qed.

Lemma Point_Equal_refl (P : Point) : Point_Equal P P = true.
Proof. unfold Point_Equal; destruct (Point_eq_dec P P); congruence. Qed.

Lemma encrypt_returns (s : Suite) (x : Secret) (D : Point) :
  exists c, Promise.diffieHellmanEncrypt s x D = Ret c.
Proof.
  unfold Promise.diffieHellmanEncrypt.
  destruct (Point_Marshal_ok s D) as [buf [-> _]]. eauto.
Qed.

Lemma decrypt_returns (s : Suite) (c : Secret) (D : Point) :
  exists x, Promise.diffieHellmanDecrypt s c D = Ret x.
Proof.
  unfold Promise.diffieHellmanDecrypt.
  destruct (Point_Marshal_ok s D) as [buf [-> _]]. eauto.
Qed.

Lemma decrypt_encrypt (s : Suite) (x c : Secret) (D : Point) :
  Promise.diffieHellmanEncrypt s x D = Ret c ->
  Promise.diffieHellmanDecrypt s c D = Ret x.
Proof.
  unfold Promise.diffieHellmanEncrypt, Promise.diffieHellmanDecrypt.
  destruct (Point_MarshalBinary D); try discriminate.
  intros H; injection H as <-. now rewrite Secret_Sub_Add.
Qed.

(** The loop fills slot [j] with the encryption of share [i0 + j] under
    the key shared with insurer [j]. *)
Lemma encryptShares_spec (s : Suite) (sh : PriShares) (ksec : Secret)
      (ins : list Point) (i0 : Z) :
  exists secrets,
    Promise.encryptShares s sh ksec ins i0 = Ret secrets
    /\ List.length secrets = List.length ins
    /\ forall (j : nat) (P : Point),
        nth_error ins j = Some P ->
        exists c, nth_error secrets j = Some c
                  /\ Promise.diffieHellmanEncrypt s
                       (PriShares_Share sh (i0 + Z.of_nat j))
                       (Point_Mul s P ksec) = Ret c.
Proof.
  revert i0; induction ins as [|P0 ins IH]; intros i0; simpl.
  - exists []. repeat split. intros [|j] P; discriminate.
  - destruct (encrypt_returns s (PriShares_Share sh i0)
                (Point_Mul s P0 ksec)) as [c0 Hc0].
    destruct (IH (i0 + 1)) as [tl [Htl [Hlen Hnth]]].
    rewrite Hc0, Htl; simpl. exists (c0 :: tl). repeat split.
    + simpl; now rewrite Hlen.
    + intros [|j] P; simpl.
      * intros H; injection H as <-. exists c0.
        now rewrite Z.add_0_r.
      * intros H. destruct (Hnth j P H) as [c [H1 H2]].
        exists c; split; [assumption|].
        now replace (i0 + Z.pos (Pos.of_succ_nat j))
          with (i0 + 1 + Z.of_nat j) by lia.
Qed.

(** What ConstructPromise stores when its check passes. *)
Lemma ConstructPromise_returns (rand : Stream)
      (secret keyPair : config.KeyPair) (t r : Z) (insurers : list Point) :
  t <= Go.len insurers ->
  exists secrets,
    Promise.encryptShares (config.Suite secret)
      (PriShares_Split
         (PriPoly_Pick (config.Suite secret) t (config.Secret secret) rand)
         (Go.len insurers))
      (config.Secret keyPair) insurers 0 = Ret secrets
    /\ Promise.ConstructPromise rand secret keyPair t r insurers
       = Ret {| Promise.shareSuite := config.Suite secret;
                Promise.t := t;
                Promise.r := Z.max t (Z.min r (Go.len insurers));
                Promise.n := Go.len insurers;
                Promise.pubKey := config.Public keyPair;
                Promise.pubPoly :=
                  PubPoly_Commit
                    (PriPoly_Pick (config.Suite secret) t
                       (config.Secret secret) rand);
                Promise.insurers := insurers;
                Promise.secrets := secrets |}.
Proof.
  intros Hn. unfold Promise.ConstructPromise.
  replace (Go.len insurers <? t) with false
    by (symmetry; apply Z.ltb_ge; lia).
  destruct (encryptShares_spec (config.Suite secret)
              (PriShares_Split
                 (PriPoly_Pick (config.Suite secret) t
                    (config.Secret secret) rand) (Go.len insurers))
              (config.Secret keyPair) insurers 0) as [secrets [Hs _]].
  exists secrets; split; [assumption|].
  rewrite Hs; simpl. do 2 f_equal.
  destruct (r <? t) eqn:E1.
  - apply Z.ltb_lt in E1.
    replace (Go.len insurers <? t) with false
      by (symmetry; apply Z.ltb_ge; lia). lia.
  - apply Z.ltb_ge in E1.
    destruct (Go.len insurers <? r) eqn:E2;
      [apply Z.ltb_lt in E2 | apply Z.ltb_ge in E2]; lia.
Qed.

(** C7. For every secret s and every point D whose marshalling succeeds,
    encryption adds and decryption subtracts the same mask
    [Pick(Cipher(marshal(D)))], which depends on D only, so decrypting
    the encryption of s under D gives back s. *)
Theorem diffieHellman_roundtrip (suite : Suite) (s c : Secret) (D : Point)
        (buf : list byte) :
  Point_MarshalBinary D = Ret buf ->
  let mask := Secret_Pick suite (Cipher suite buf) in
  Promise.diffieHellmanEncrypt suite s D = Ret (Secret_Add suite s mask)
  /\ Promise.diffieHellmanDecrypt suite c D = Ret (Secret_Sub suite c mask)
  /\ (e <- Promise.diffieHellmanEncrypt suite s D ;;
      Promise.diffieHellmanDecrypt suite e D) = Ret s.
Proof.
  intros Hbuf mask.
  unfold Promise.diffieHellmanEncrypt, Promise.diffieHellmanDecrypt.
  rewrite Hbuf; simpl.
  repeat split. unfold mask. now rewrite Secret_Sub_Add.
Qed.


End ConstructionFacts.

(** ** Shares, signatures and blames *)

Section ShareFacts.
Context `{G : Group} {PL : poly.Lib} {AL : anon.Lib} {ZL : proof.Lib}.
Context {GL : GroupLaws} {PLaws : PolyLaws} {ALaws : AnonLaws}
        {ZLaws : ProofLaws}.

Lemma insurerList_nth (kps : list config.KeyPair) (j : nat)
      (kp : config.KeyPair) :
  nth_error kps j = Some kp ->
  nth_error (insurerList kps) j = Some (config.Public kp).
Proof. intros H. unfold insurerList. now rewrite nth_error_map, H. Qed.

Lemma insurerList_len (kps : list config.KeyPair) :
  Go.len (insurerList kps) = Go.len kps.
Proof. unfold Go.len, insurerList. now rewrite length_map. Qed.

(** The key the promiser shares with an honest insurer is the key the
    insurer computes from the promiser's public key. *)
Lemma diffieBase_agree (s : Suite) (promiser kp : config.KeyPair) :
  honestKey s promiser -> honestKey s kp ->
  Point_Mul s (config.Public promiser) (config.Secret kp)
  = Point_Mul s (config.Public kp) (config.Secret promiser).
Proof.
  intros [_ Hp] [_ Hk]. rewrite Hp, Hk. apply Point_Mul_comm.
Qed.

(** The promise built from honest keys and the share it holds for
    insurer [i]. *)
Lemma ConstructPromise_share (rand : Stream)
      (secret promiser : config.KeyPair) (kps : list config.KeyPair)
      (t r : Z) (p : Promise.T) :
  let s := config.Suite secret in
  Promise.ConstructPromise rand secret promiser t r (insurerList kps)
  = Ret p ->
  honestKey s promiser -> Forall (honestKey s) kps ->
  Promise.shareSuite p = s
  /\ Promise.n p = Go.len kps
  /\ Promise.insurers p = insurerList kps
  /\ Promise.pubKey p = config.Public promiser
  /\ forall i kp,
      0 <= i < Go.len kps -> nth_error kps (Z.to_nat i) = Some kp ->
      exists sec share,
        nth_error (Promise.secrets p) (Z.to_nat i) = Some sec
        /\ Promise.diffieHellmanDecrypt s sec
             (Point_Mul s (config.Public promiser) (config.Secret kp))
           = Ret share
        /\ PubPoly_Check (Promise.pubPoly p) i share = true.
Proof.
  intros s Hret Hprom Hkps.
  destruct (Z.lt_ge_cases (Go.len (insurerList kps)) t) as [Hlt|Hge].
  { unfold Promise.ConstructPromise in Hret.
    replace (Go.len (insurerList kps) <? t) with true in Hret
      by (symmetry; apply Z.ltb_lt; lia).
    discriminate. }
  destruct (ConstructPromise_returns rand secret promiser t r
              (insurerList kps) Hge) as [secrets [Hsec Heq]].
  rewrite Heq in Hret. injection Hret as <-. simpl.
  repeat split; [apply insurerList_len|].
  intros i kp Hi Hkp.
  destruct (encryptShares_spec (config.Suite secret)
              (PriShares_Split
                 (PriPoly_Pick (config.Suite secret) t
                    (config.Secret secret) rand)
                 (Go.len (insurerList kps)))
              (config.Secret promiser) (insurerList kps) 0)
    as [secrets' [Hsec' [_ Hnth]]].
  rewrite Hsec in Hsec'. injection Hsec' as <-.
  destruct (Hnth (Z.to_nat i) (config.Public kp)
              (insurerList_nth kps _ kp Hkp)) as [c [Hc Henc]].
  exists c. eexists. split; [exact Hc|]. split.
  - rewrite (diffieBase_agree s promiser kp Hprom).
    + apply decrypt_encrypt. exact Henc.
    + eapply Forall_forall; [exact Hkps|].
      eapply nth_error_In; exact Hkp.
  - rewrite Z2Nat.id, Z.add_0_l by lia.
    apply Check_Share. rewrite insurerList_len. lia.
Qed.

(** C1. On the promise returned by ConstructPromise for t <= r <= n,
    n >= 1 and honestly drawn keys, VerifyShare(i, kp_i) with the key
    pair of insurer i returns nil for every index i in [0, n). *)
Theorem VerifyShare_ConstructPromise (rand : Stream)
        (secret promiser : config.KeyPair) (kps : list config.KeyPair)
        (t r : Z) :
  let s := config.Suite secret in
  let n := Go.len (insurerList kps) in
  t <= r <= n -> 1 <= n ->
  honestKey s promiser -> Forall (honestKey s) kps ->
  exists p,
    Promise.ConstructPromise rand secret promiser t r (insurerList kps)
    = Ret p
    /\ forall i kp,
        0 <= i < n -> nth_error kps (Z.to_nat i) = Some kp ->
        Promise.VerifyShare p i kp = Ret tt.
Proof.
  intros s n Htr Hn Hprom Hkps.
  destruct (ConstructPromise_returns rand secret promiser t r
              (insurerList kps)) as [secrets [_ Hret]]; [fold n; lia|].
  match type of Hret with _ = Ret ?q => remember q as p eqn:Hp end.
  clear Hp. exists p; split; [exact Hret|].
  intros i kp Hi Hkp.
  destruct (ConstructPromise_share rand secret promiser kps t r _ Hret
              Hprom Hkps) as [Hs [Hnp [Hins [Hpub Hshare]]]].
  unfold n in Hi. rewrite insurerList_len in Hi.
  destruct (Hshare i kp Hi Hkp) as [sec [share [Hsec [Hdec Hchk]]]].
  unfold Promise.VerifyShare.
  rewrite Hnp, in_range_guard by assumption.
  rewrite Hins, (GoFacts.index_ok _ i (config.Public kp));
    [|lia|now apply insurerList_nth]. simpl.
  rewrite Point_Equal_refl. simpl.
  rewrite (GoFacts.index_ok _ i sec); [|lia|exact Hsec]. simpl.
  rewrite Hs, Hpub. unfold s. rewrite Hdec. simpl.
  now rewrite Hchk.
Qed.

Lemma verifySignature_in_range (p : Promise.T) (i : Z)
      (sig : PromiseSignature.T) (msg : list byte) (ins : Point)
      (l : list byte) :
  0 <= i < Promise.n p ->
  nth_error (Promise.insurers p) (Z.to_nat i) = Some ins ->
  PromiseSignature.signature sig = Go.Bytes l ->
  Promise.verifySignature p i sig msg
  = anon.Verify (PromiseSignature.suite sig) msg [ins] (Go.Bytes l).
Proof.
  intros Hi Hins Hsig. unfold Promise.verifySignature.
  rewrite Hsig, in_range_guard by assumption.
  rewrite (GoFacts.index_ok _ i ins); [reflexivity|lia|assumption].
Qed.

Lemma verifySignature_out_of_range (p : Promise.T) (i : Z)
      (sig : PromiseSignature.T) (msg : list byte) :
  i < 0 \/ Promise.n p <= i ->
  Promise.verifySignature p i sig msg
  = match PromiseSignature.signature sig with
    | Go.Nil => Err NilSignature
    | Go.Bytes _ => Err BadIndex
    end.
Proof.
  intros Hi. unfold Promise.verifySignature.
  destruct (PromiseSignature.signature sig); [reflexivity|].
  now rewrite out_of_range_guard.
Qed.

(** A signature made by [sign] verifies, under its own message, at
    every index that holds the signer's public key. *)
Lemma verifySignature_sign (p p' : Promise.T) (i j : Z)
      (kp : config.KeyPair) (msg : list byte) (rand : Stream) :
  honestKey (config.Suite kp) kp ->
  0 <= j < Promise.n p ->
  nth_error (Promise.insurers p) (Z.to_nat j) = Some (config.Public kp) ->
  Promise.verifySignature p j (Promise.sign p' i kp msg rand) msg = Ret tt.
Proof.
  intros [_ Hpub] Hj Hins.
  destruct (anon.Sign (config.Suite kp) rand msg [config.Public kp] 0
              (config.Secret kp)) as [|l] eqn:E.
  { now apply Sign_not_nil in E. }
  rewrite (verifySignature_in_range p j _ msg (config.Public kp) l Hj Hins).
  2:{ unfold Promise.sign; simpl. exact E. }
  unfold Promise.sign; simpl. rewrite <- E, Hpub. apply Verify_Sign.
Qed.

(** A signature made by [sign] for one message and key is rejected with
    an error under another ring or another message. *)
Lemma verifySignature_sign_rejects (p p' : Promise.T) (i j : Z)
      (kp : config.KeyPair) (msg msg' : list byte) (rand : Stream)
      (ins : Point) :
  honestKey (config.Suite kp) kp ->
  0 <= j < Promise.n p ->
  nth_error (Promise.insurers p) (Z.to_nat j) = Some ins ->
  ins <> config.Public kp \/ msg' <> msg ->
  exists e,
    Promise.verifySignature p j (Promise.sign p' i kp msg rand) msg'
    = Err e.
Proof.
  intros [_ Hpub] Hj Hins Hdiff.
  destruct (anon.Sign (config.Suite kp) rand msg [config.Public kp] 0
              (config.Secret kp)) as [|l] eqn:E.
  { now apply Sign_not_nil in E. }
  rewrite (verifySignature_in_range p j _ msg' ins l Hj Hins).
  2:{ unfold Promise.sign; simpl. exact E. }
  unfold Promise.sign; simpl. rewrite <- E.
  pose proof (Verify_no_panic (config.Suite kp) msg' [ins]
                (anon.Sign (config.Suite kp) rand msg [config.Public kp] 0
                   (config.Secret kp))) as Hnp.
  destruct (anon.Verify _ _ _ _) as [[]|e|m] eqn:V.
  - exfalso. rewrite Hpub in V.
    apply Verify_binds in V. destruct V as [V1 V2].
    rewrite <- Hpub in V1. destruct Hdiff; contradiction.
  - now exists e.
  - destruct Hnp.
Qed.

Lemma sigMsg_differ : sigBlameMsg <> sigMsg.
Proof. intros H; vm_compute in H; discriminate H. Qed.


(** C10. The index argument of Sign, and of the signature made inside
    Blame, does not influence the result: with the same key pair and
    randomness, Sign(i, kp) and Sign(j, kp) are the same signature, made
    over the one-element ring {kp.Public}, and Blame(i, kp) and
    Blame(j, kp) are the same proof. Such a signature therefore verifies
    under VerifySignature at every index j' whose insurer key is
    kp.Public. *)
Theorem Sign_ignores_index (p : Promise.T) (i j : Z) (kp : config.KeyPair)
        (rand zkrand : Stream) :
  Promise.Sign p i kp rand = Promise.Sign p j kp rand
  /\ Promise.Sign p i kp rand
     = PromiseSignature.init (config.Suite kp)
         (anon.Sign (config.Suite kp) rand sigMsg [config.Public kp] 0
            (config.Secret kp))
  /\ Promise.Blame p i kp rand zkrand = Promise.Blame p j kp rand zkrand
  /\ (forall bp, Promise.Blame p i kp rand zkrand = Ret bp ->
        BlameProof.signature bp
        = PromiseSignature.init (config.Suite kp)
            (anon.Sign (config.Suite kp) rand sigBlameMsg
               [config.Public kp] 0 (config.Secret kp)))
  /\ (honestKey (config.Suite kp) kp ->
      forall j', 0 <= j' < Promise.n p ->
        nth_error (Promise.insurers p) (Z.to_nat j')
        = Some (config.Public kp) ->
        Promise.VerifySignature p j' (Promise.Sign p i kp rand) = Ret tt).
Proof.
  repeat split.
  - intros bp. unfold Promise.Blame.
    destruct (proof.HashProve_Rep _ _ _ _ _ _); simpl; try discriminate.
    intros H; injection H as <-. reflexivity.
  - intros Hkp j' Hj' Hins. unfold Promise.VerifySignature, Promise.Sign.
    now apply verifySignature_sign.
Qed.

(** C4. On an honestly constructed promise whose insurer keys are
    pairwise distinct, the signature Sign(i, kp_i) of insurer i verifies
    at index i, is rejected with an error at every other index j, and is
    rejected with an error over the blame tag at every index. *)
Theorem Sign_VerifySignature (rand sigrand : Stream)
        (secret promiser : config.KeyPair) (kps : list config.KeyPair)
        (t r : Z) (p : Promise.T) :
  let s := config.Suite secret in
  let n := Go.len (insurerList kps) in
  Promise.ConstructPromise rand secret promiser t r (insurerList kps)
  = Ret p ->
  honestKey s promiser -> Forall (honestKey s) kps ->
  NoDup (insurerList kps) ->
  forall i kp,
    0 <= i < n -> nth_error kps (Z.to_nat i) = Some kp ->
    Promise.VerifySignature p i (Promise.Sign p i kp sigrand) = Ret tt
    /\ (forall j, 0 <= j < n -> j <> i ->
          exists e,
            Promise.VerifySignature p j (Promise.Sign p i kp sigrand)
            = Err e)
    /\ (forall j,
          exists e,
            Promise.verifySignature p j (Promise.Sign p i kp sigrand)
              sigBlameMsg = Err e).
Proof.
  intros s n Hret Hprom Hkps Hnd i kp Hi Hkp.
  destruct (ConstructPromise_share rand secret promiser kps t r p Hret
              Hprom Hkps) as [_ [Hnp [Hins _]]].
  unfold n in *. rewrite insurerList_len in *.
  assert (Hhon : honestKey (config.Suite kp) kp).
  { assert (H : honestKey s kp)
      by (eapply Forall_forall; [exact Hkps|eapply nth_error_In; exact Hkp]).
    destruct H as [H1 H2]. split; [reflexivity|]. now rewrite H1. }
  assert (Hi' : nth_error (Promise.insurers p) (Z.to_nat i)
                = Some (config.Public kp))
    by (rewrite Hins; now apply insurerList_nth).
  split; [|split].
  - unfold Promise.VerifySignature, Promise.Sign.
    apply verifySignature_sign; [assumption|lia|assumption].
  - intros j Hj Hne.
    destruct (nth_error kps (Z.to_nat j)) as [kpj|] eqn:Ekj.
    2:{ apply nth_error_None in Ekj. unfold Go.len in Hj. lia. }
    unfold Promise.VerifySignature, Promise.Sign.
    apply verifySignature_sign_rejects with (ins := config.Public kpj);
      [assumption|lia|rewrite Hins; now apply insurerList_nth|].
    left. intros Heq.
    apply Hne. apply Z2Nat.inj; try lia.
    eapply (proj1 (NoDup_nth_error (insurerList kps))); [exact Hnd| |].
    + unfold insurerList; rewrite length_map. unfold Go.len in Hj. lia.
    + rewrite (insurerList_nth kps _ kpj Ekj), (insurerList_nth kps _ kp Hkp).
      now rewrite Heq.
  - intros j. unfold Promise.Sign.
    destruct (Z.lt_ge_cases j 0) as [Hneg|Hnn];
      [|destruct (Z.lt_ge_cases j (Promise.n p)) as [Hlt|Hge]].
    + rewrite verifySignature_out_of_range by lia.
      destruct (PromiseSignature.signature _); eauto.
    + destruct (GoFacts.index_in_range (Promise.insurers p) j)
        as [ins [Hins' _]].
      { rewrite Hins, insurerList_len. lia. }
      apply verifySignature_sign_rejects with (ins := ins);
        [assumption|lia|assumption|].
      right. apply sigMsg_differ.
    + rewrite verifySignature_out_of_range by lia.
      destruct (PromiseSignature.signature _); eauto.
Qed.

(** The insurer's own blame of an honestly built share: all checks of
    VerifyBlame pass and the share satisfies the polynomial. *)
Lemma VerifyBlame_honest (rand sigrand zkrand : Stream)
      (secret promiser : config.KeyPair) (kps : list config.KeyPair)
      (t r : Z) (p : Promise.T) (i : Z) (kp : config.KeyPair) :
  let s := config.Suite secret in
  Promise.ConstructPromise rand secret promiser t r (insurerList kps)
  = Ret p ->
  honestKey s promiser -> Forall (honestKey s) kps ->
  0 <= i < Go.len (insurerList kps) ->
  nth_error kps (Z.to_nat i) = Some kp ->
  exists bp,
    Promise.Blame p i kp sigrand zkrand = Ret bp
    /\ Promise.VerifyBlame p i bp = Err UnjustifiedBlame.
Proof.
  intros s Hret Hprom Hkps Hi Hkp.
  destruct (ConstructPromise_share rand secret promiser kps t r p Hret
              Hprom Hkps) as [Hs [Hnp [Hins [Hpub Hshare]]]].
  rewrite insurerList_len in Hi.
  destruct (Hshare i kp Hi Hkp) as [sec [share [Hsec [Hdec Hchk]]]].
  assert (Hhon : honestKey (config.Suite kp) kp).
  { assert (H : honestKey s kp)
      by (eapply Forall_forall; [exact Hkps|eapply nth_error_In; exact Hkp]).
    destruct H as [H1 H2]. split; [reflexivity|]. now rewrite H1. }
  unfold Promise.Blame.
  destruct (HashProve_complete (Promise.shareSuite p) protocolName zkrand
              (config.Secret kp) (Promise.pubKey p)) as [prf [Hprove Hver]].
  rewrite Hprove; simpl. eexists; split; [reflexivity|].
  unfold Promise.VerifyBlame.
  cbn [BlameProof.signature BlameProof.init BlameProof.diffieKey
       BlameProof.diffieKeyProof].
  rewrite Hnp, in_range_guard by assumption.
  rewrite verifySignature_sign;
    [|assumption|lia|rewrite Hins; now apply insurerList_nth].
  simpl. rewrite Hver; simpl.
  rewrite (GoFacts.index_ok _ i sec); [|lia|exact Hsec]. simpl.
  rewrite Hs, Hpub. unfold s in Hdec. rewrite Hdec; simpl.
  now rewrite Hchk.
Qed.

(** C2. VerifyBlame(i, proof) runs its checks in this order: the index
    bounds, the embedded signature over the blame tag against the ring
    {insurers[i]}, the proof of [D = x * P] with D = proof.diffieKey and
    P = pubKey, the decryption of secrets[i] with proof.diffieKey, and the
    polynomial check. The first failing check decides the error; nil is
    returned exactly when the first three pass and the polynomial check
    fails, and the UnjustifiedBlame error when they pass and the
    decrypted share satisfies the polynomial. On an honest promise the
    blame of insurer i is unjustified for every i in [0, n). *)
Theorem VerifyBlame_checks :
  (forall (p : Promise.T) (i : Z) (bp : BlameProof.T),
     arraysSynchronised p ->
     let inRange := 0 <= i < Promise.n p in
     let sigCheck :=
       Promise.verifySignature p i (BlameProof.signature bp) sigBlameMsg in
     let zkCheck :=
       proof.HashVerify_Rep (Promise.shareSuite p) protocolName
         (BlameProof.diffieKey bp) (Promise.pubKey p)
         (BlameProof.diffieKeyProof bp) in
     let polyCheck (b : bool) :=
       exists sec share,
         nth_error (Promise.secrets p) (Z.to_nat i) = Some sec
         /\ Promise.diffieHellmanDecrypt (Promise.shareSuite p) sec
              (BlameProof.diffieKey bp) = Ret share
         /\ PubPoly_Check (Promise.pubPoly p) i share = b in
     (~ inRange -> Promise.VerifyBlame p i bp = Err BadIndex)
     /\ (inRange ->
         forall ins l,
           nth_error (Promise.insurers p) (Z.to_nat i) = Some ins ->
           PromiseSignature.signature (BlameProof.signature bp)
           = Go.Bytes l ->
           sigCheck
           = anon.Verify (PromiseSignature.suite (BlameProof.signature bp))
               sigBlameMsg [ins] (Go.Bytes l))
     /\ (inRange -> forall e, sigCheck = Err e ->
         Promise.VerifyBlame p i bp = Err e)
     /\ (inRange -> sigCheck = Ret tt -> forall e, zkCheck = Err e ->
         Promise.VerifyBlame p i bp = Err e)
     /\ (inRange -> sigCheck = Ret tt -> zkCheck = Ret tt ->
         (polyCheck true /\ Promise.VerifyBlame p i bp = Err UnjustifiedBlame)
         \/ (polyCheck false /\ Promise.VerifyBlame p i bp = Ret tt))
     /\ (Promise.VerifyBlame p i bp = Ret tt
         <-> inRange /\ sigCheck = Ret tt /\ zkCheck = Ret tt
             /\ polyCheck false))
  /\ (forall (rand sigrand zkrand : Stream)
        (secret promiser : config.KeyPair) (kps : list config.KeyPair)
        (t r : Z) (p : Promise.T) (i : Z) (kp : config.KeyPair),
        Promise.ConstructPromise rand secret promiser t r (insurerList kps)
        = Ret p ->
        honestKey (config.Suite secret) promiser ->
        Forall (honestKey (config.Suite secret)) kps ->
        0 <= i < Go.len (insurerList kps) ->
        nth_error kps (Z.to_nat i) = Some kp ->
        exists bp,
          Promise.Blame p i kp sigrand zkrand = Ret bp
          /\ Promise.VerifyBlame p i bp = Err UnjustifiedBlame).
Proof.
  split.
  2:{ intros. eapply VerifyBlame_honest; eassumption. }
  intros p i bp [Hlen1 Hlen2] inRange sigCheck zkCheck polyCheck.
  assert (Hout : ~ inRange -> Promise.VerifyBlame p i bp = Err BadIndex).
  { intros Hno. unfold Promise.VerifyBlame.
    rewrite out_of_range_guard; [reflexivity|unfold inRange in Hno; lia]. }
  assert (Hpoly : inRange -> sigCheck = Ret tt -> zkCheck = Ret tt ->
            (polyCheck true
             /\ Promise.VerifyBlame p i bp = Err UnjustifiedBlame)
            \/ (polyCheck false /\ Promise.VerifyBlame p i bp = Ret tt)).
  { intros Hin Hsig Hzk. unfold Promise.VerifyBlame.
    rewrite in_range_guard by exact Hin.
    fold sigCheck zkCheck. rewrite Hsig; simpl. rewrite Hzk; simpl.
    destruct (GoFacts.index_in_range (Promise.secrets p) i)
      as [sec [Hsec Hidx]]; [unfold inRange in Hin; lia|].
    rewrite Hidx; simpl.
    destruct (decrypt_returns (Promise.shareSuite p) sec
                (BlameProof.diffieKey bp)) as [share Hdec].
    rewrite Hdec; simpl.
    destruct (PubPoly_Check (Promise.pubPoly p) i share) eqn:Hchk;
      [left|right]; (split; [exists sec, share; auto|reflexivity]). }
  split; [exact Hout|]. split.
  { intros Hin ins l Hins Hl.
    now apply verifySignature_in_range. }
  split.
  { intros Hin e He. unfold Promise.VerifyBlame.
    rewrite in_range_guard by exact Hin. fold sigCheck. now rewrite He. }
  split.
  { intros Hin Hsig e He. unfold Promise.VerifyBlame.
    rewrite in_range_guard by exact Hin. fold sigCheck zkCheck.
    rewrite Hsig; simpl. now rewrite He. }
  split; [exact Hpoly|]. split.
  - intros Hnil.
    assert (Hin : inRange).
    { destruct (Z.lt_ge_cases i 0) as [H1|H1];
        [|destruct (Z.lt_ge_cases i (Promise.n p)) as [H2|H2]];
        [|unfold inRange; lia|];
        (rewrite Hout in Hnil by (unfold inRange; lia); discriminate). }
    assert (Hsig : sigCheck = Ret tt).
    { unfold Promise.VerifyBlame in Hnil.
      rewrite in_range_guard in Hnil by exact Hin. fold sigCheck in Hnil.
      destruct sigCheck as [[]|e|m]; [reflexivity|discriminate..]. }
    assert (Hzk : zkCheck = Ret tt).
    { unfold Promise.VerifyBlame in Hnil.
      rewrite in_range_guard in Hnil by exact Hin.
      fold sigCheck zkCheck in Hnil. rewrite Hsig in Hnil; simpl in Hnil.
      destruct zkCheck as [[]|e|m]; [reflexivity|discriminate..]. }
    split; [exact Hin|]. split; [exact Hsig|]. split; [exact Hzk|].
    destruct (Hpoly Hin Hsig Hzk) as [[_ H]|[H _]]; [|exact H].
    rewrite H in Hnil; discriminate.
  - intros [Hin [Hsig [Hzk [sec [share [Hsec [Hdec Hchk]]]]]]].
    destruct (Hpoly Hin Hsig Hzk)
      as [[[sec' [share' [Hs' [Hd' Hc']]]] _]|[_ H]];
      [|exact H].
    rewrite Hsec in Hs'. injection Hs' as <-.
    rewrite Hdec in Hd'. injection Hd' as <-. congruence.
Qed.

End ShareFacts.

(** ** Index checks *)

Section IndexFacts.
Context `{G : Group} {PL : poly.Lib} {AL : anon.Lib} {ZL : proof.Lib}.

(** VerifyRevealedShare compares with [i > p.n]: the index n passes the
    bounds check and reaches the polynomial check. *)
Lemma VerifyRevealedShare_at_n (p : Promise.T) (share : Secret) :
  0 <= Promise.n p ->
  Promise.VerifyRevealedShare p (Promise.n p) share
  = if PubPoly_Check (Promise.pubPoly p) (Promise.n p) share
    then Ret tt else Err BadShare.
Proof.
  intros Hn. unfold Promise.VerifyRevealedShare.
  rewrite Z.ltb_irrefl.
  replace (Promise.n p <? 0) with false by (symmetry; apply Z.ltb_ge; lia).
  simpl. now destruct (PubPoly_Check _ _ _).
Qed.

(** C6, as the code has it. For an index i outside [0, n): VerifyShare
    and VerifyBlame return the BadIndex error; VerifySignature returns an
    error, BadIndex for a non-nil signature and NilSignature for a nil
    one; VerifyRevealedShare returns BadIndex when i < 0 or i > n. Blame
    and RevealShare make no index check: Blame does not use its index, and
    RevealShare, which has no error result, panics on the array access
    when the index is outside the secrets array. *)
Theorem indexed_operations_bounds (p : Promise.T) (i : Z) :
  i < 0 \/ Promise.n p <= i ->
  (forall kp, Promise.VerifyShare p i kp = Err BadIndex)
  /\ (forall bp, Promise.VerifyBlame p i bp = Err BadIndex)
  /\ (forall sig,
        Promise.VerifySignature p i sig
        = match PromiseSignature.signature sig with
          | Go.Nil => Err NilSignature
          | Go.Bytes _ => Err BadIndex
          end)
  /\ (forall share,
        i <> Promise.n p ->
        Promise.VerifyRevealedShare p i share = Err BadIndex)
  /\ (forall kp rand zkrand j,
        Promise.Blame p i kp rand zkrand = Promise.Blame p j kp rand zkrand)
  /\ (forall kp,
        Go.len (Promise.secrets p) = Promise.n p ->
        Promise.RevealShare p i kp = Panic "index out of range").
Proof.
  intros Hi. repeat split.
  - intros kp. unfold Promise.VerifyShare.
    now rewrite out_of_range_guard.
  - intros bp. unfold Promise.VerifyBlame.
    now rewrite out_of_range_guard.
  - intros sig. unfold Promise.VerifySignature, Promise.verifySignature.
    destruct (PromiseSignature.signature sig); [reflexivity|].
    now rewrite out_of_range_guard.
  - intros share Hne. unfold Promise.VerifyRevealedShare.
    replace ((Promise.n p <? i) || (i <? 0)) with true; [reflexivity|].
    symmetry; apply orb_true_iff.
    destruct Hi; [right; apply Z.ltb_lt | left; apply Z.ltb_lt]; lia.
  - intros kp Hlen. unfold Promise.RevealShare.
    rewrite GoFacts.index_out_of_range by lia. reflexivity.
Qed.

End IndexFacts.

(** ** Certification *)

Section CertificationFacts.
Context `{G : Group} {PL : poly.Lib} {AL : anon.Lib} {ZL : proof.Lib}.
Context {GL : GroupLaws} {ALaws : AnonLaws} {ZLaws : ProofLaws}.

Lemma returns_nil_is_nil (c : result unit) :
  no_panic c -> returns_nil c = Ret (is_nil c).
Proof. destruct c; simpl; [reflexivity|reflexivity|intros []]. Qed.

Lemma VerifyPromise_arrays (p : Promise.T) (key : Point) :
  Promise.VerifyPromise p key = Ret tt -> arraysSynchronised p.
Proof.
  unfold Promise.VerifyPromise, arraysSynchronised.
  destruct (_ || _ || _); [discriminate|].
  destruct (negb (Point_Equal key (Promise.pubKey p))); [discriminate|].
  destruct (Go.len (Promise.insurers p) =? Promise.n p) eqn:E1;
    [|discriminate].
  destruct (Go.len (Promise.secrets p) =? Promise.n p) eqn:E2;
    [|discriminate].
  intros _. split; now apply Z.eqb_eq.
Qed.


Lemma VerifySignature_no_panic (p : Promise.T) (i : Z)
      (sig : PromiseSignature.T) :
  arraysSynchronised p -> no_panic (Promise.VerifySignature p i sig).
Proof.
  intros [Hlen _].
  unfold Promise.VerifySignature, Promise.verifySignature.
  destruct (PromiseSignature.signature sig) as [|l]; [exact I|].
  destruct ((i <? 0) || (Promise.n p <=? i)) eqn:E; [exact I|].
  apply orb_false_iff in E. destruct E as [E1 E2].
  apply Z.ltb_ge in E1. apply Z.leb_gt in E2.
  destruct (GoFacts.index_in_range (Promise.insurers p) i)
    as [ins [_ Hidx]]; [lia|].
  rewrite Hidx; simpl. apply Verify_no_panic.
Qed.

Lemma VerifyBlame_no_panic (p : Promise.T) (i : Z) (bp : BlameProof.T) :
  arraysSynchronised p -> no_panic (Promise.VerifyBlame p i bp).
Proof.
  intros [Hlen1 Hlen2]. unfold Promise.VerifyBlame.
  destruct ((i <? 0) || (Promise.n p <=? i)) eqn:E; [exact I|].
  apply orb_false_iff in E. destruct E as [E1 E2].
  apply Z.ltb_ge in E1. apply Z.leb_gt in E2.
  pose proof (VerifySignature_no_panic p i (BlameProof.signature bp)
                (conj Hlen1 Hlen2)) as Hs.
  unfold Promise.VerifySignature, Promise.verifySignature in Hs.
  unfold Promise.verifySignature.
  destruct (PromiseSignature.signature (BlameProof.signature bp)) as [|l];
    [exact I|].
  replace ((i <? 0) || (Promise.n p <=? i)) with false
    by (symmetry; apply orb_false_iff; split;
        [apply Z.ltb_ge|apply Z.leb_gt]; lia).
  destruct (GoFacts.index_in_range (Promise.insurers p) i)
    as [ins [_ Hidx]]; [lia|].
  rewrite Hidx; simpl.
  pose proof (Verify_no_panic
                (PromiseSignature.suite (BlameProof.signature bp))
                sigBlameMsg [ins] (Go.Bytes l)) as Hv.
  destruct (anon.Verify _ _ _ _) as [[]|e|m]; simpl; [|exact I|exact Hv].
  pose proof (HashVerify_no_panic (Promise.shareSuite p) protocolName
                (BlameProof.diffieKey bp) (Promise.pubKey p)
                (BlameProof.diffieKeyProof bp)) as Hz.
  destruct (proof.HashVerify_Rep _ _ _ _ _) as [[]|e|m]; simpl;
    [|exact I|exact Hz].
  destruct (GoFacts.index_in_range (Promise.secrets p) i)
    as [sec [_ Hsec]]; [lia|].
  rewrite Hsec; simpl.
  destruct (decrypt_returns (Promise.shareSuite p) sec
              (BlameProof.diffieKey bp)) as [share Hdec].
  rewrite Hdec; simpl. destruct (PubPoly_Check _ _ _); exact I.
Qed.

(** The loop of PromiseCertified over the indices [j, j + k). *)
Lemma certifiedLoop_spec (ps : PromiseState.T) (k j : nat) (v : Z) :
  arraysSynchronised (PromiseState.Promise ps) -> slotsAllocated ps ->
  Z.of_nat (j + k) <= Promise.n (PromiseState.Promise ps) ->
  PromiseState.certifiedLoop ps k (Z.of_nat j) v
  = if existsb (validBlameAt ps) (map Z.of_nat (seq j k))
    then Err PromiseRepudiated
    else Ret (v + Go.len (filter (validSignatureAt ps)
                            (map Z.of_nat (seq j k)))).
Proof.
  intros Harr [Hs Hb]. revert j v.
  induction k as [|k IH]; intros j v Hjk.
  - simpl. f_equal. unfold Go.len; simpl. lia.
  - cbn [PromiseState.certifiedLoop seq map existsb filter].
    destruct (GoFacts.index_in_range (PromiseState.signatures ps)
                (Z.of_nat j)) as [sslot [Hsn Hsi]]; [lia|].
    destruct (GoFacts.index_in_range (PromiseState.blames ps)
                (Z.of_nat j)) as [bslot [Hbn Hbi]]; [lia|].
    rewrite Hsi; cbn [bind].
    assert (Es : (match sslot with
                  | None => Ret false
                  | Some sig =>
                      returns_nil
                        (Promise.VerifySignature (PromiseState.Promise ps)
                           (Z.of_nat j) sig)
                  end) = Ret (validSignatureAt ps (Z.of_nat j))).
    { unfold validSignatureAt. rewrite Hsn.
      destruct sslot as [sig|]; [|reflexivity].
      apply returns_nil_is_nil. now apply VerifySignature_no_panic. }
    rewrite Es; cbn [bind]. rewrite Hbi; cbn [bind].
    assert (Eb : (match bslot with
                  | None => Ret false
                  | Some bp =>
                      returns_nil
                        (Promise.VerifyBlame (PromiseState.Promise ps)
                           (Z.of_nat j) bp)
                  end) = Ret (validBlameAt ps (Z.of_nat j))).
    { unfold validBlameAt. rewrite Hbn.
      destruct bslot as [bp|]; [|reflexivity].
      apply returns_nil_is_nil. now apply VerifyBlame_no_panic. }
    rewrite Eb; cbn [bind].
    destruct (validBlameAt ps (Z.of_nat j)); [reflexivity|].
    cbn [orb].
    replace (Z.of_nat j + 1) with (Z.of_nat (S j)) by lia.
    rewrite IH by lia.
    destruct (existsb _ _); [reflexivity|]. f_equal.
    destruct (validSignatureAt ps (Z.of_nat j));
      unfold Go.len; simpl; lia.
Qed.

(** PromiseCertified as a function of the three conditions. *)
Lemma PromiseCertified_eq (ps : PromiseState.T) (key : Point) :
  slotsAllocated ps ->
  let p := PromiseState.Promise ps in
  PromiseState.PromiseCertified ps key
  = match Promise.VerifyPromise p key with
    | Ret _ =>
        if existsb (validBlameAt ps) (indices (Promise.n p))
        then Err PromiseRepudiated
        else if validSignatures ps <? Promise.r p
             then Err InsufficientSignatures
             else Ret tt
    | Err e => Err e
    | Panic m => Panic m
    end.
Proof.
  intros Hslots p. unfold PromiseState.PromiseCertified. fold p.
  destruct (Promise.VerifyPromise p key) as [[]|e|m] eqn:Hvp;
    [|reflexivity..].
  cbn [bind].
  assert (Harr : arraysSynchronised p) by (eapply VerifyPromise_arrays; eauto).
  assert (Hn : 0 <= Promise.n p)
    by (destruct Harr as [<- _]; apply GoFacts.len_nonneg).
  change 0 with (Z.of_nat 0) at 1.
  rewrite certifiedLoop_spec; [|assumption|assumption|fold p; lia].
  unfold indices, validSignatures. fold p.
  destruct (existsb _ _); [reflexivity|]. cbn [bind].
  now rewrite Z.add_0_l.
Qed.

Lemma indices_In (num i : Z) : In i (indices num) <-> 0 <= i < num.
Proof.
  unfold indices. rewrite in_map_iff. split.
  - intros [j [<- Hj]]. apply in_seq in Hj. lia.
  - intros Hi. exists (Z.to_nat i). split; [lia|]. apply in_seq. lia.
Qed.

(** C3. For a state whose slots are allocated, PromiseCertified returns
    nil exactly when VerifyPromise succeeds, no index holds a blame proof
    that passes VerifyBlame, and at least r indices hold signatures that
    pass VerifySignature. Once VerifyPromise succeeds, one index holding a
    valid blame makes it return the PromiseRepudiated error whatever the
    signatures are; it returns InsufficientSignatures when there is no
    valid blame and fewer than r valid signatures. The result depends on
    the slots only through which indices hold a valid signature and which
    hold a valid blame, so a slot holding an invalid signature or an
    invalid blame counts like an empty slot. *)
Theorem PromiseCertified_spec (ps : PromiseState.T) (key : Point) :
  slotsAllocated ps ->
  let p := PromiseState.Promise ps in
  let noValidBlame :=
    forall i, 0 <= i < Promise.n p -> validBlameAt ps i = false in
  (PromiseState.PromiseCertified ps key = Ret tt
   <-> Promise.VerifyPromise p key = Ret tt
       /\ noValidBlame
       /\ Promise.r p <= validSignatures ps)
  /\ (Promise.VerifyPromise p key = Ret tt ->
      (exists i, 0 <= i < Promise.n p /\ validBlameAt ps i = true) ->
      PromiseState.PromiseCertified ps key = Err PromiseRepudiated)
  /\ (Promise.VerifyPromise p key = Ret tt -> noValidBlame ->
      validSignatures ps < Promise.r p ->
      PromiseState.PromiseCertified ps key = Err InsufficientSignatures)
  /\ (forall ps',
        PromiseState.Promise ps' = p -> slotsAllocated ps' ->
        (forall i, 0 <= i < Promise.n p ->
           validSignatureAt ps' i = validSignatureAt ps i
           /\ validBlameAt ps' i = validBlameAt ps i) ->
        PromiseState.PromiseCertified ps' key
        = PromiseState.PromiseCertified ps key).
Proof.
  intros Hslots p noValidBlame.
  pose proof (PromiseCertified_eq ps key Hslots) as Heq. fold p in Heq.
  cbv zeta in Heq.
  assert (Hex : existsb (validBlameAt ps) (indices (Promise.n p)) = false
                <-> noValidBlame).
  { split.
    - intros H i Hi. destruct (validBlameAt ps i) eqn:E; [|reflexivity].
      assert (existsb (validBlameAt ps) (indices (Promise.n p)) = true)
        by (apply existsb_exists; exists i; split;
            [now apply indices_In|assumption]).
      congruence.
    - intros H. destruct (existsb _ _) eqn:E; [|reflexivity].
      apply existsb_exists in E. destruct E as [i [Hi Hv]].
      apply indices_In in Hi. rewrite (H i Hi) in Hv. discriminate. }
  split; [|split; [|split]].
  - rewrite Heq. split.
    + destruct (Promise.VerifyPromise p key) as [[]|e|m]; try discriminate.
      destruct (existsb _ _) eqn:E; [discriminate|].
      destruct (validSignatures ps <? Promise.r p) eqn:E2; [discriminate|].
      intros _. split; [reflexivity|]. split; [now apply Hex|].
      apply Z.ltb_ge in E2. exact E2.
    + intros [Hvp [Hnb Hr]]. rewrite Hvp.
      rewrite (proj2 Hex Hnb).
      now replace (validSignatures ps <? Promise.r p) with false
        by (symmetry; apply Z.ltb_ge; lia).
  - intros Hvp [i [Hi Hv]]. rewrite Heq, Hvp.
    replace (existsb (validBlameAt ps) (indices (Promise.n p))) with true;
      [reflexivity|].
    symmetry; apply existsb_exists. exists i; split;
      [now apply indices_In|assumption].
  - intros Hvp Hnb Hr. rewrite Heq, Hvp, (proj2 Hex Hnb).
    now replace (validSignatures ps <? Promise.r p) with true
      by (symmetry; apply Z.ltb_lt; lia).
  - intros ps' Hp' Hslots' Hsame.
    rewrite Heq.
    rewrite (PromiseCertified_eq ps' key Hslots'). cbv zeta. rewrite Hp'.
    destruct (Promise.VerifyPromise p key); try reflexivity.
    assert (E1 : existsb (validBlameAt ps') (indices (Promise.n p))
                 = existsb (validBlameAt ps) (indices (Promise.n p))).
    { apply eq_true_iff_eq. rewrite !existsb_exists.
      split; intros [i [Hi Hv]]; exists i; (split; [assumption|]);
        apply indices_In in Hi; destruct (Hsame i Hi) as [_ H]; congruence. }
    assert (E2 : validSignatures ps' = validSignatures ps).
    { unfold validSignatures. rewrite Hp'. fold p. f_equal.
      apply filter_ext_in. intros i Hi. apply indices_In in Hi.
      now destruct (Hsame i Hi). }
    now rewrite E1, E2.
Qed.

End CertificationFacts.

(** ** Codecs *)

Module CodecFacts.

Lemma zeros_len (n : Z) : 0 <= n -> Go.len (Go.zeros n) = n.
Proof. intros Hn. unfold Go.len, Go.zeros. rewrite repeat_length. lia. Qed.

Lemma zeros_length (n : Z) : List.length (Go.zeros n) = Z.to_nat n.
Proof. unfold Go.zeros. apply repeat_length. Qed.

Lemma zeros_add (a b : Z) :
  0 <= a -> 0 <= b -> Go.zeros (a + b) = Go.zeros a ++ Go.zeros b.
Proof.
  intros Ha Hb. unfold Go.zeros. rewrite Z2Nat.inj_add by assumption.
  apply repeat_app.
Qed.

Lemma make_zeros (n : Z) : 0 <= n -> Go.make n = Ret (Go.zeros n).
Proof. apply GoFacts.make_ok. Qed.

Lemma slice_ok {A : Type} (l : list A) (lo hi : Z) :
  0 <= lo <= hi -> hi <= Go.len l ->
  exists r, Go.slice l lo hi = Ret r /\ Go.len r = hi - lo.
Proof.
  intros Hlo Hhi. unfold Go.slice.
  replace (lo <? 0) with false by (symmetry; apply Z.ltb_ge; lia).
  replace (hi <? lo) with false by (symmetry; apply Z.ltb_ge; lia).
  replace (Go.len l <? hi) with false by (symmetry; apply Z.ltb_ge; lia).
  simpl. eexists; split; [reflexivity|].
  unfold Go.len in *. rewrite length_firstn, length_skipn. lia.
Qed.

Lemma slice_from_ok {A : Type} (l : list A) (lo : Z) :
  0 <= lo <= Go.len l ->
  exists r, Go.slice_from l lo = Ret r /\ Go.len r = Go.len l - lo.
Proof. intros H. unfold Go.slice_from. apply slice_ok; lia. Qed.

Lemma Uint32_ok (b : list byte) :
  4 <= Go.len b -> exists v, Go.Uint32 b = Ret v /\ 0 <= v < 2 ^ 32.
Proof.
  intros Hlen. unfold Go.len in Hlen.
  destruct b as [|b0 [|b1 [|b2 [|b3 rest]]]]; simpl in Hlen; try lia.
  eexists; split; [reflexivity|].
  apply (GoFacts.Uint32_range (b0 :: b1 :: b2 :: b3 :: rest)). reflexivity.
Qed.

Lemma Uint32_short (b : list byte) :
  Go.len b < 4 -> Go.Uint32 b = Panic "index out of range".
Proof.
  intros Hlen. unfold Go.len in Hlen.
  destruct b as [|b0 [|b1 [|b2 [|b3 rest]]]]; simpl in Hlen;
    try reflexivity; lia.
Qed.

Lemma Uint32_at_ok (buf : list byte) (off : Z) :
  0 <= off -> off + 4 <= Go.len buf ->
  exists v, Go.Uint32_at buf off = Ret v /\ 0 <= v < 2 ^ 32.
Proof.
  intros Hoff Hlen. unfold Go.Uint32_at.
  destruct (slice_from_ok buf off) as [tl [Htl Hl]]; [lia|].
  rewrite Htl; simpl. apply Uint32_ok. lia.
Qed.

Lemma Uint32_at_0 (buf : list byte) : Go.Uint32_at buf 0 = Go.Uint32 buf.
Proof.
  unfold Go.Uint32_at.
  pose proof (GoFacts.slice_from_app [] buf 0 eq_refl) as E.
  simpl app in E. now rewrite E.
Qed.

Lemma Uint32_at_le32 (pre rest : list byte) (off v : Z) :
  Go.len pre = off -> 0 <= v < 2 ^ 32 ->
  Go.Uint32_at (pre ++ Go.le32 v ++ rest) off = Ret v.
Proof.
  intros Hpre Hv. unfold Go.Uint32_at.
  rewrite GoFacts.slice_from_app by assumption. cbn [bind].
  rewrite GoFacts.Uint32_le32. f_equal. now apply Z.mod_small.
Qed.

End CodecFacts.

Section CodecProperties.
Context `{G : Group} {PL : poly.Lib} {AL : anon.Lib} {ZL : proof.Lib}.
Context {GL : GroupLaws} {PLaws : PolyLaws}.

Lemma PointLen_nonneg (s : Suite) : 0 <= PointLen s.
Proof.
  destruct (Point_Marshal_ok s (Point_Base s)) as [buf [_ <-]].
  apply GoFacts.len_nonneg.
Qed.

Lemma SecretLen_nonneg (s : Suite) (x : Secret) : 0 <= SecretLen s.
Proof.
  destruct (Secret_Marshal_ok s x) as [buf [_ <-]].
  apply GoFacts.len_nonneg.
Qed.

(** PromiseSignature.UnmarshalBinary on an arbitrary buffer. *)
Lemma PromiseSignature_Unmarshal_cases (p : PromiseSignature.T)
      (buf : list byte) :
  (Go.len buf < uint32Size
   /\ PromiseSignature.UnmarshalBinary p buf = Err BufferTooSmall)
  \/ (exists sigLen,
        uint32Size <= Go.len buf /\ Go.Uint32 buf = Ret sigLen
        /\ Go.len buf < uint32Size + sigLen
        /\ PromiseSignature.UnmarshalBinary p buf = Err BufferTooSmall)
  \/ (exists sigLen sig,
        Go.Uint32 buf = Ret sigLen /\ uint32Size + sigLen <= Go.len buf
        /\ Go.slice buf uint32Size (uint32Size + sigLen) = Ret sig
        /\ PromiseSignature.UnmarshalBinary p buf
           = Ret {| PromiseSignature.suite := PromiseSignature.suite p;
                    PromiseSignature.signature := Go.Bytes sig |}).
Proof.
  unfold PromiseSignature.UnmarshalBinary, uint32Size.
  destruct (Go.len buf <? 4) eqn:E1.
  { left. apply Z.ltb_lt in E1. split; [assumption|reflexivity]. }
  apply Z.ltb_ge in E1. right.
  rewrite CodecFacts.Uint32_at_0.
  destruct (CodecFacts.Uint32_ok buf E1) as [sigLen [Hu Hr]].
  rewrite Hu; cbn [bind].
  destruct (Go.len buf <? 4 + sigLen) eqn:E2.
  { left. apply Z.ltb_lt in E2. exists sigLen.
    repeat split; try assumption; reflexivity. }
  apply Z.ltb_ge in E2. right.
  destruct (CodecFacts.slice_ok buf 4 (4 + sigLen)) as [sig [Hs _]];
    [lia|lia|].
  rewrite Hs; cbn [bind]. exists sigLen, sig.
  repeat split; try assumption; reflexivity.
Qed.

Lemma PromiseSignature_Unmarshal_no_panic (p : PromiseSignature.T)
      (buf : list byte) :
  no_panic (PromiseSignature.UnmarshalBinary p buf).
Proof.
  destruct (PromiseSignature_Unmarshal_cases p buf)
    as [[_ ->]|[[n [_ [_ [_ ->]]]]|[n [sig [_ [_ [_ ->]]]]]]]; exact I.
Qed.

(** BlameProof.UnmarshalBinary never panics, and a buffer shorter than
    its prefixes declare is rejected with an error. *)
Lemma BlameProof_Unmarshal_total (s : Suite) (buf : list byte) :
  no_panic (BlameProof.UnmarshalBinary s buf)
  /\ (Go.len buf < 2 * uint32Size + PointLen s ->
      BlameProof.UnmarshalBinary s buf = Err BufferTooSmall)
  /\ (forall proofLen sigLen,
        2 * uint32Size + PointLen s <= Go.len buf ->
        Go.Uint32_at buf 0 = Ret proofLen ->
        Go.Uint32_at buf uint32Size = Ret sigLen ->
        Go.len buf < 2 * uint32Size + PointLen s + proofLen + sigLen ->
        BlameProof.UnmarshalBinary s buf = Err BufferTooSmall
        \/ exists keyBuf e,
             Go.slice buf (2 * uint32Size) (2 * uint32Size + PointLen s)
             = Ret keyBuf
             /\ Point_UnmarshalBinary s keyBuf = Err e
             /\ BlameProof.UnmarshalBinary s buf = Err e).
Proof.
  pose proof (PointLen_nonneg s) as Hpl.
  unfold BlameProof.UnmarshalBinary, uint32Size.
  destruct (Go.len buf <? 2 * 4 + PointLen s) eqn:E1.
  { apply Z.ltb_lt in E1. split; [exact I|]. split; [reflexivity|].
    intros; lia. }
  apply Z.ltb_ge in E1.
  destruct (CodecFacts.Uint32_at_ok buf 0) as [proofLen [Hu1 Hr1]];
    [lia|lia|].
  destruct (CodecFacts.Uint32_at_ok buf 4) as [sigLen [Hu2 Hr2]];
    [lia|lia|].
  rewrite Hu1, Hu2; cbn [bind].
  destruct (CodecFacts.slice_ok buf (2 * 4) (2 * 4 + PointLen s))
    as [keyBuf [Hk _]]; [lia|lia|].
  rewrite Hk; cbn [bind].
  pose proof (Point_Unmarshal_no_panic s keyBuf) as Hnp.
  destruct (Point_UnmarshalBinary s keyBuf) as [key|e|m] eqn:Hkey;
    cbn [bind].
  3:{ destruct Hnp. }
  2:{ split; [exact I|]. split; [intros; lia|].
      intros pl sl _ _ _ _. right. exists keyBuf, e. auto. }
  destruct (Go.len buf <? 2 * 4 + PointLen s + proofLen + sigLen) eqn:E2.
  { split; [exact I|]. split; [intros; lia|]. intros; now left. }
  apply Z.ltb_ge in E2.
  rewrite GoFacts.make_ok by lia; cbn [bind].
  destruct (CodecFacts.slice_ok buf (2 * 4 + PointLen s)
              (2 * 4 + PointLen s + proofLen)) as [src [Hsrc _]];
    [lia|lia|].
  rewrite Hsrc; cbn [bind].
  destruct (CodecFacts.slice_ok buf (2 * 4 + PointLen s + proofLen)
              (2 * 4 + PointLen s + proofLen + sigLen))
    as [sigBuf [HsigBuf _]]; [lia|lia|].
  rewrite HsigBuf; cbn [bind].
  pose proof (PromiseSignature_Unmarshal_no_panic
                (PromiseSignature.UnmarshalInit s) sigBuf) as Hsp.
  destruct (PromiseSignature.UnmarshalBinary _ sigBuf) as [sig|e|m];
    cbn [bind].
  3:{ destruct Hsp. }
  - split; [exact I|]. split; [intros; lia|].
    intros pl sl _ H1 H2 Hlt. injection H1 as <-. injection H2 as <-. lia.
  - split; [exact I|]. split; [intros; lia|].
    intros pl sl _ H1 H2 Hlt. injection H1 as <-. injection H2 as <-. lia.
Qed.


End CodecProperties.

(** ** Codec round trips *)

Module FillFacts.
Import CodecFacts.

(** Marshalling writes a zeroed buffer from left to right: the buffer is
    always the bytes written so far followed by Go.zeros. *)
Lemma put_next (pre : list byte) (off total k v : Z) :
  Go.len pre = off -> total = 4 + k -> 0 <= k ->
  Go.PutUint32_at (pre ++ Go.zeros total) off v
  = Ret ((pre ++ Go.le32 v) ++ Go.zeros k).
Proof.
  intros Hpre -> Hk. rewrite zeros_add by lia.
  rewrite GoFacts.PutUint32_at_fill by (assumption || reflexivity).
  now rewrite app_assoc.
Qed.

Lemma put_first (total k v : Z) :
  total = 4 + k -> 0 <= k ->
  Go.PutUint32_at (Go.zeros total) 0 v = Ret (Go.le32 v ++ Go.zeros k).
Proof. intros Ht Hk. now apply (put_next [] 0 total k v). Qed.

Lemma Uint32_first (v : Z) (rest : list byte) :
  0 <= v < 2 ^ 32 -> Go.Uint32_at (Go.le32 v ++ rest) 0 = Ret v.
Proof. intros Hv. now apply (Uint32_at_le32 [] rest 0 v). Qed.

Lemma copy_next (pre src : list byte) (off total k : Z) :
  Go.len pre = off -> total = Go.len src + k -> 0 <= k ->
  Go.copy_at (pre ++ Go.zeros total) off src = Ret ((pre ++ src) ++ Go.zeros k).
Proof.
  intros Hpre -> Hk. rewrite zeros_add by (try apply GoFacts.len_nonneg; lia).
  rewrite GoFacts.copy_at_fill;
    [now rewrite app_assoc|assumption|].
  rewrite zeros_length. unfold Go.len. lia.
Qed.

Lemma marshalLoop_fill {A : Type} (marshal : A -> result (list byte))
      (elemLen : Z) (l : list A) (bs : list (list byte)) :
  Forall2 (fun x b => marshal x = Ret b /\ Go.len b = elemLen) l bs ->
  forall (pre : list byte) (bufPos i total k : Z),
    0 <= k -> Go.len pre = bufPos + i * elemLen ->
    total = Go.len l * elemLen + k ->
    Promise.marshalLoop marshal (pre ++ Go.zeros total) bufPos elemLen l i
    = Ret ((pre ++ List.concat bs) ++ Go.zeros k).
Proof.
  intros HF. induction HF as [|x b l bs [Hm Hb] HF IH];
    intros pre bufPos i total k Hk Hpre Htot.
  - simpl. unfold Go.len in Htot; simpl in Htot.
    rewrite app_nil_r. now replace total with k by lia.
  - cbn [Promise.marshalLoop List.concat]. rewrite Hm; cbn [bind].
    assert (Hl : Go.len (x :: l) = 1 + Go.len l)
      by (unfold Go.len; simpl List.length; lia).
    rewrite (copy_next pre b _ total (Go.len l * elemLen + k));
      [|assumption|rewrite Htot, Hl, Hb; lia
       |pose proof (GoFacts.len_nonneg l);
        pose proof (GoFacts.len_nonneg b); nia].
    cbn [bind].
    rewrite (IH (pre ++ b) bufPos (i + 1) _ k); [|assumption| |reflexivity].
    + now rewrite <- !app_assoc.
    + rewrite GoFacts.len_app, Hpre, Hb. lia.
Qed.

Lemma unmarshalLoop_read {A : Type} (unmarshal : list byte -> result A)
      (elemLen : Z) (l : list A) (bs : list (list byte)) :
  Forall2 (fun x b => unmarshal b = Ret x /\ Go.len b = elemLen) l bs ->
  forall (pre post : list byte) (bufPos i : Z),
    Go.len pre = bufPos + i * elemLen ->
    Promise.unmarshalLoop unmarshal (pre ++ List.concat bs ++ post) bufPos
      elemLen (List.length l) i = Ret l.
Proof.
  intros HF. induction HF as [|x b l bs [Hu Hb] HF IH];
    intros pre post bufPos i Hpre.
  - reflexivity.
  - cbn [Promise.unmarshalLoop List.concat List.length].
    rewrite <- app_assoc.
    rewrite (GoFacts.slice_app pre b (List.concat bs ++ post)) by lia.
    cbn [bind]. rewrite Hu; cbn [bind].
    rewrite app_assoc.
    rewrite (IH (pre ++ b) post bufPos (i + 1));
      [reflexivity|rewrite GoFacts.len_app, Hpre, Hb; lia].
Qed.

Lemma slice_eq {A : Type} (l pre mid post : list A) (lo hi : Z) :
  l = pre ++ mid ++ post -> Go.len pre = lo -> Go.len mid = hi - lo ->
  Go.slice l lo hi = Ret mid.
Proof. intros ->. apply GoFacts.slice_app. Qed.

Lemma Uint32_at_eq (buf pre rest : list byte) (off v : Z) :
  buf = pre ++ Go.le32 v ++ rest -> Go.len pre = off -> 0 <= v < 2 ^ 32 ->
  Go.Uint32_at buf off = Ret v.
Proof. intros ->. apply Uint32_at_le32. Qed.

Lemma le32_len (v : Z) : Go.len (Go.le32 v) = 4.
Proof. reflexivity. Qed.

Lemma copy_all (src : list byte) :
  Go.copy (Go.zeros (Go.len src)) src = src.
Proof.
  pose proof (GoFacts.copy_fill (Go.zeros (Go.len src)) [] src) as E.
  rewrite !app_nil_r in E. apply E.
  rewrite zeros_length. unfold Go.len. lia.
Qed.

End FillFacts.

Section RoundTrip.
Context `{G : Group} {PL : poly.Lib} {AL : anon.Lib} {ZL : proof.Lib}.
Context {GL : GroupLaws} {PLaws : PolyLaws}.
Import CodecFacts FillFacts.

Lemma Suite_eqb_refl (s : Suite) : Suite_eqb s s = true.
Proof. unfold Suite_eqb; destruct (Suite_eq_dec s s); congruence. Qed.

Lemma Secret_Equal_refl (x : Secret) : Secret_Equal x x = true.
Proof. unfold Secret_Equal; destruct (Secret_eq_dec x x); congruence. Qed.

Lemma DeepEqual_refl (b : Go.bytes) : Go.DeepEqual b b = true.
Proof.
  destruct b as [|l]; [reflexivity|]. simpl. unfold Go.list_byte_eqb.
  destruct (list_eq_dec _ l l); congruence.
Qed.

Lemma PromiseSignature_Equal_refl (x : PromiseSignature.T) :
  PromiseSignature.Equal x x = true.
Proof.
  unfold PromiseSignature.Equal.
  now rewrite Suite_eqb_refl, DeepEqual_refl.
Qed.

Lemma BlameProof_Equal_refl (x : BlameProof.T) : BlameProof.Equal x x = true.
Proof.
  unfold BlameProof.Equal.
  now rewrite Suite_eqb_refl, Point_Equal_refl, DeepEqual_refl,
    PromiseSignature_Equal_refl.
Qed.

Lemma equalLoop_refl (x : Promise.T) (k j : nat) :
  arraysSynchronised x -> Z.of_nat (j + k) <= Promise.n x ->
  Promise.equalLoop x x k (Z.of_nat j) = Ret true.
Proof.
  intros [H1 H2]. revert j; induction k as [|k IH]; intros j Hj;
    [reflexivity|].
  cbn [Promise.equalLoop].
  destruct (GoFacts.index_in_range (Promise.secrets x) (Z.of_nat j))
    as [s [_ Hs]]; [lia|].
  destruct (GoFacts.index_in_range (Promise.insurers x) (Z.of_nat j))
    as [P [_ HP]]; [lia|].
  rewrite Hs; cbn [bind]. rewrite Secret_Equal_refl; cbn [negb].
  rewrite HP; cbn [bind]. rewrite Point_Equal_refl; cbn [negb].
  replace (Z.of_nat j + 1) with (Z.of_nat (S j)) by lia.
  apply IH. lia.
Qed.

Lemma Promise_Equal_refl (x : Promise.T) :
  arraysSynchronised x -> Promise.Equal x x = Ret true.
Proof.
  intros Harr. unfold Promise.Equal.
  rewrite Z.eqb_refl; cbn [negb].
  assert (Hn : 0 <= Promise.n x)
    by (destruct Harr as [<- _]; apply GoFacts.len_nonneg).
  change 0 with (Z.of_nat 0).
  rewrite equalLoop_refl by (assumption || simpl; lia). cbn [bind negb].
  now rewrite Suite_eqb_refl, !Z.eqb_refl, Point_Equal_refl,
    PubPoly_Equal_refl.
Qed.

(** The bytes written by PromiseSignature.MarshalBinary. *)
Lemma PromiseSignature_Marshal_eq (x : PromiseSignature.T) :
  PromiseSignature.MarshalBinary x
  = Ret (Go.le32 (Go.uint32 (Go.blen (PromiseSignature.signature x)))
         ++ Go.data (PromiseSignature.signature x)).
Proof.
  unfold PromiseSignature.MarshalBinary, PromiseSignature.MarshalSize,
    uint32Size, Go.blen.
  set (d := Go.data (PromiseSignature.signature x)).
  pose proof (GoFacts.len_nonneg d) as Hd.
  rewrite make_zeros by lia. cbn [bind].
  rewrite (put_first _ (Go.len d)) by (reflexivity || lia). cbn [bind].
  rewrite (copy_next _ d 4 _ 0); [|reflexivity|lia|lia]. cbn [bind].
  unfold Go.zeros; simpl repeat. now rewrite app_nil_r.
Qed.

Lemma PromiseSignature_roundtrip (x : PromiseSignature.T) :
  populatedSignature x ->
  exists buf,
    PromiseSignature.MarshalBinary x = Ret buf
    /\ PromiseSignature.MarshalSize x = Go.len buf
    /\ PromiseSignature.UnmarshalBinary
         (PromiseSignature.UnmarshalInit (PromiseSignature.suite x)) buf
       = Ret x.
Proof.
  intros [l [Hl Hlen]]. rewrite PromiseSignature_Marshal_eq.
  eexists; split; [reflexivity|].
  unfold PromiseSignature.MarshalSize, Go.blen. rewrite Hl; cbn [Go.data].
  pose proof (GoFacts.len_nonneg l) as Hl0.
  rewrite GoFacts.uint32_small by lia.
  split.
  - rewrite GoFacts.len_app. reflexivity.
  - unfold PromiseSignature.UnmarshalBinary, uint32Size.
    replace (Go.len (Go.le32 (Go.len l) ++ l) <? 4) with false
      by (symmetry; apply Z.ltb_ge; rewrite GoFacts.len_app;
          change (Go.len (Go.le32 (Go.len l))) with 4; lia).
    rewrite Uint32_first by lia. cbn [bind].
    replace (Go.len (Go.le32 (Go.len l) ++ l) <? 4 + Go.len l) with false
      by (symmetry; apply Z.ltb_ge; rewrite GoFacts.len_app;
          change (Go.len (Go.le32 (Go.len l))) with 4; lia).
    pose proof (GoFacts.slice_app (Go.le32 (Go.len l)) l [] 4
                  (4 + Go.len l) eq_refl ltac:(lia)) as E.
    rewrite app_nil_r in E. rewrite E; cbn [bind].
    destruct x as [s sig]; simpl in *. now subst sig.
Qed.

(** The bytes written by BlameProof.MarshalBinary. *)
Lemma BlameProof_Marshal_eq (x : BlameProof.T) (pointBuf : list byte) :
  Point_MarshalBinary (BlameProof.diffieKey x) = Ret pointBuf ->
  Go.len pointBuf = PointLen (BlameProof.suite x) ->
  let sig := BlameProof.signature x in
  BlameProof.MarshalBinary x
  = Ret (Go.le32 (Go.uint32 (Go.blen (BlameProof.diffieKeyProof x)))
         ++ Go.le32 (Go.uint32 (PromiseSignature.MarshalSize sig))
         ++ pointBuf
         ++ Go.data (BlameProof.diffieKeyProof x)
         ++ Go.le32 (Go.uint32 (Go.blen (PromiseSignature.signature sig)))
         ++ Go.data (PromiseSignature.signature sig)).
Proof.
  intros Hpt Hptlen sig.
  unfold BlameProof.MarshalBinary, BlameProof.MarshalSize.
  fold sig. rewrite Hpt, (PromiseSignature_Marshal_eq sig).
  unfold PromiseSignature.MarshalSize, uint32Size, Go.blen.
  set (prf := Go.data (BlameProof.diffieKeyProof x)).
  set (d := Go.data (PromiseSignature.signature sig)).
  pose proof (GoFacts.len_nonneg prf) as Hprf.
  pose proof (GoFacts.len_nonneg d) as Hd.
  pose proof (GoFacts.len_nonneg pointBuf) as Hpb.
  rewrite <- Hptlen.
  rewrite make_zeros by lia. cbn [bind].
  rewrite (put_first _
             (4 + Go.len pointBuf + Go.len prf + (4 + Go.len d)))
    by (reflexivity || lia). cbn [bind].
  rewrite (put_next _ 4 _ (Go.len pointBuf + Go.len prf + (4 + Go.len d)))
    by (reflexivity || lia). cbn [bind].
  rewrite (copy_next _ pointBuf (2 * 4) _ (Go.len prf + (4 + Go.len d)));
    [|reflexivity|lia|lia]. cbn [bind].
  rewrite (copy_next _ prf _ _ (4 + Go.len d));
    [|rewrite !GoFacts.len_app; cbn; lia|lia|lia]. cbn [bind].
  rewrite (copy_next _ (Go.le32 (Go.uint32 (Go.len d)) ++ d) _ _ 0);
    [|rewrite !GoFacts.len_app; cbn; lia
     |rewrite GoFacts.len_app; cbn; lia|lia].
  cbn [bind]. unfold Go.zeros; simpl repeat.
  rewrite app_nil_r. simpl app. now rewrite <- !app_assoc.
Qed.


Ltac reassoc := rewrite <- ?app_assoc; reflexivity.
Ltac lens := rewrite ?GoFacts.len_app, ?le32_len; lia.

Lemma BlameProof_roundtrip (x : BlameProof.T) :
  populatedBlame x ->
  exists buf,
    BlameProof.MarshalBinary x = Ret buf
    /\ BlameProof.MarshalSize x = Go.len buf
    /\ BlameProof.UnmarshalBinary (BlameProof.suite x) buf = Ret x.
Proof.
  intros [Hsuite [[prf [Hprf Hprflen]] [l [Hl Hllen]]]].
  destruct (Point_Marshal_ok (BlameProof.suite x) (BlameProof.diffieKey x))
    as [pointBuf [Hpt Hptlen]].
  rewrite (BlameProof_Marshal_eq x pointBuf Hpt Hptlen). cbv zeta.
  unfold BlameProof.MarshalSize, PromiseSignature.MarshalSize, Go.blen.
  rewrite Hprf, Hl. cbn [Go.data]. unfold uint32Size in *.
  pose proof (GoFacts.len_nonneg prf) as Hprf0.
  pose proof (GoFacts.len_nonneg l) as Hl0.
  pose proof (GoFacts.len_nonneg pointBuf) as Hpb0.
  rewrite !GoFacts.uint32_small by lia.
  set (s := BlameProof.suite x) in *.
  set (buf := Go.le32 (Go.len prf) ++ Go.le32 (4 + Go.len l) ++ pointBuf
              ++ prf ++ Go.le32 (Go.len l) ++ l).
  assert (Hbuf : Go.len buf = 2 * 4 + PointLen s + Go.len prf
                              + (4 + Go.len l))
    by (unfold buf; rewrite <- Hptlen; lens).
  exists buf. split; [reflexivity|]. split; [lia|].
  unfold BlameProof.UnmarshalBinary, uint32Size.
  replace (Go.len buf <? 2 * 4 + PointLen s) with false
    by (symmetry; apply Z.ltb_ge; lia).
  rewrite (Uint32_at_eq buf []
             (Go.le32 (4 + Go.len l) ++ pointBuf ++ prf
              ++ Go.le32 (Go.len l) ++ l) 0 (Go.len prf))
    by (reflexivity || lia).
  cbn [bind].
  rewrite (Uint32_at_eq buf (Go.le32 (Go.len prf))
             (pointBuf ++ prf ++ Go.le32 (Go.len l) ++ l) 4
             (4 + Go.len l)) by (reflexivity || lia).
  cbn [bind].
  rewrite (slice_eq buf (Go.le32 (Go.len prf) ++ Go.le32 (4 + Go.len l))
             pointBuf (prf ++ Go.le32 (Go.len l) ++ l));
    [|unfold buf; reassoc|lens|lia].
  cbn [bind].
  rewrite (Point_Unmarshal_Marshal s _ _ Hpt). cbn [bind].
  replace (Go.len buf <? 2 * 4 + PointLen s + Go.len prf + (4 + Go.len l))
    with false by (symmetry; apply Z.ltb_ge; lia).
  rewrite make_zeros by lia. cbn [bind].
  rewrite (slice_eq buf
             (Go.le32 (Go.len prf) ++ Go.le32 (4 + Go.len l) ++ pointBuf)
             prf (Go.le32 (Go.len l) ++ l));
    [|unfold buf; reassoc|lens|lia].
  cbn [bind]. rewrite copy_all.
  rewrite (slice_eq buf
             (Go.le32 (Go.len prf) ++ Go.le32 (4 + Go.len l) ++ pointBuf
              ++ prf)
             (Go.le32 (Go.len l) ++ l) []);
    [|unfold buf; rewrite app_nil_r; reassoc|lens|lens].
  cbn [bind].
  destruct (PromiseSignature_roundtrip (BlameProof.signature x))
    as [sbuf [Hsm [_ Hsu]]].
  { exists l; split; [assumption|lia]. }
  rewrite PromiseSignature_Marshal_eq in Hsm.
  unfold Go.blen in Hsm. rewrite Hl in Hsm. cbn [Go.data] in Hsm.
  rewrite GoFacts.uint32_small in Hsm by lia.
  assert (E : sbuf = Go.le32 (Go.len l) ++ l) by congruence.
  rewrite E, Hsuite in Hsu. fold s in Hsu.
  rewrite Hsu. cbn [bind].
  destruct x as [xs xk xp xsig]; simpl in *. now subst xp.
Qed.

Lemma marshal_points (s : Suite) (l : list Point) :
  exists bs,
    Forall2 (fun P b => Point_MarshalBinary P = Ret b
                        /\ Go.len b = PointLen s) l bs
    /\ Forall2 (fun P b => Point_UnmarshalBinary s b = Ret P
                           /\ Go.len b = PointLen s) l bs.
Proof.
  induction l as [|P l [bs [H1 H2]]]; [exists []; split; constructor|].
  destruct (Point_Marshal_ok s P) as [b [Hb Hlen]].
  exists (b :: bs). split; constructor; try assumption; split;
    try assumption.
  now apply Point_Unmarshal_Marshal.
Qed.

Lemma marshal_secrets (s : Suite) (l : list Secret) :
  exists bs,
    Forall2 (fun x b => Secret_MarshalBinary x = Ret b
                        /\ Go.len b = SecretLen s) l bs
    /\ Forall2 (fun x b => Secret_UnmarshalBinary s b = Ret x
                           /\ Go.len b = SecretLen s) l bs.
Proof.
  induction l as [|x l [bs [H1 H2]]]; [exists []; split; constructor|].
  destruct (Secret_Marshal_ok s x) as [b [Hb Hlen]].
  exists (b :: bs). split; constructor; try assumption; split;
    try assumption.
  now apply Secret_Unmarshal_Marshal.
Qed.

Lemma Forall2_concat_len {A : Type} (R : A -> list byte -> Prop)
      (elemLen : Z) (l : list A) (bs : list (list byte)) :
  Forall2 (fun x b => R x b /\ Go.len b = elemLen) l bs ->
  Go.len (List.concat bs) = Go.len l * elemLen.
Proof.
  induction 1 as [|x b l bs [_ Hb] HF IH]; [reflexivity|].
  simpl List.concat. rewrite GoFacts.len_app, IH, Hb.
  unfold Go.len; simpl List.length. lia.
Qed.

Lemma Promise_roundtrip (x : Promise.T) :
  populatedPromise x ->
  exists buf,
    Promise.MarshalBinary x = Ret buf
    /\ Promise.MarshalSize x = Go.len buf
    /\ Promise.UnmarshalBinary (Promise.shareSuite x) buf = Ret x.
Proof.
  intros [[Hins Hsec] [Ht [Hr [Hn [Hsz [polyBuf [Hpm [Hplen Hpu]]]]]]]].
  set (s := Promise.shareSuite x) in *.
  destruct (Point_Marshal_ok s (Promise.pubKey x)) as [keyBuf [Hkm Hklen]].
  destruct (marshal_points s (Promise.insurers x)) as [ibs [Him Hiu]].
  destruct (marshal_secrets s (Promise.secrets x)) as [sbs [Hsm Hsu]].
  pose proof (Forall2_concat_len _ _ _ _ Him) as Hilen.
  pose proof (Forall2_concat_len _ _ _ _ Hsm) as Hslen.
  rewrite Hins in Hilen. rewrite Hsec in Hslen.
  pose proof (PointLen_nonneg s) as Hpl.
  assert (Hsl : 0 <= Promise.n x * SecretLen s)
    by (rewrite <- Hslen; apply GoFacts.len_nonneg).
  assert (Hn0 : 0 <= Promise.n x)
    by (rewrite <- Hins; apply GoFacts.len_nonneg).
  pose proof (GoFacts.len_nonneg polyBuf) as Hpoly0.
  set (n := Promise.n x) in *. set (t := Promise.t x) in *.
  set (r := Promise.r x) in *.
  set (buf := Go.le32 n ++ Go.le32 t ++ Go.le32 r ++ keyBuf ++ polyBuf
              ++ List.concat ibs ++ List.concat sbs).
  assert (Hbuf : Go.len buf = 3 * 4 + PointLen s + Go.len polyBuf
                              + n * PointLen s + n * SecretLen s)
    by (unfold buf; rewrite <- Hilen, <- Hslen, <- Hklen; lens).
  exists buf.
  assert (Hm : Promise.MarshalBinary x = Ret buf).
  { unfold Promise.MarshalBinary, Promise.MarshalSize, uint32Size.
    fold s n t r. rewrite <- Hplen, <- Hklen.
    rewrite make_zeros by (rewrite Hklen; nia). cbn [bind].
    rewrite !GoFacts.uint32_small by lia.
    rewrite (put_first _ (2 * 4 + Go.len keyBuf + Go.len polyBuf
                          + n * Go.len keyBuf + n * SecretLen s))
      by (try reflexivity; rewrite ?Hklen; nia).
    cbn [bind].
    rewrite (put_next _ 4 _ (4 + Go.len keyBuf + Go.len polyBuf
                             + n * Go.len keyBuf + n * SecretLen s))
      by (try reflexivity; rewrite ?Hklen; nia).
    cbn [bind].
    rewrite (put_next _ (2 * 4) _ (Go.len keyBuf + Go.len polyBuf
                                   + n * Go.len keyBuf + n * SecretLen s))
      by (try reflexivity; rewrite ?Hklen; nia).
    cbn [bind]. rewrite Hkm. cbn [bind].
    rewrite (copy_next _ keyBuf (3 * 4) _
               (Go.len polyBuf + n * Go.len keyBuf + n * SecretLen s));
      [|lens|lia|rewrite ?Hklen; nia].
    cbn [bind]. rewrite Hpm. cbn [bind].
    rewrite (copy_next _ polyBuf _ _
               (n * Go.len keyBuf + n * SecretLen s));
      [|lens|lia|rewrite ?Hklen; nia].
    cbn [bind]. rewrite Hklen.
    rewrite (marshalLoop_fill Point_MarshalBinary (PointLen s)
               (Promise.insurers x) ibs Him _ _ 0 _ (n * SecretLen s));
      [|lia|rewrite <- Hklen; lens|rewrite Hins; reflexivity].
    cbn [bind].
    rewrite (marshalLoop_fill Secret_MarshalBinary (SecretLen s)
               (Promise.secrets x) sbs Hsm _ _ 0 _ 0);
      [|lia|rewrite <- Hilen, <- Hklen; lens|rewrite Hsec; lia].
    unfold Go.zeros; simpl repeat. rewrite app_nil_r.
    unfold buf. f_equal. reassoc. }
  split; [exact Hm|]. split.
  { unfold Promise.MarshalSize, uint32Size. fold s n. rewrite Hbuf. lia. }
  unfold Promise.UnmarshalBinary, uint32Size.
  rewrite (Uint32_at_eq buf []
             (Go.le32 t ++ Go.le32 r ++ keyBuf ++ polyBuf
              ++ List.concat ibs ++ List.concat sbs) 0 n)
    by (reflexivity || lia).
  cbn [bind].
  rewrite (Uint32_at_eq buf (Go.le32 n)
             (Go.le32 r ++ keyBuf ++ polyBuf
              ++ List.concat ibs ++ List.concat sbs) 4 t)
    by (reflexivity || lia).
  cbn [bind].
  rewrite (Uint32_at_eq buf (Go.le32 n ++ Go.le32 t)
             (keyBuf ++ polyBuf ++ List.concat ibs ++ List.concat sbs)
             (2 * 4) r);
    [|unfold buf; reassoc|lens|lia].
  cbn [bind].
  rewrite (slice_eq buf (Go.le32 n ++ Go.le32 t ++ Go.le32 r) keyBuf
             (polyBuf ++ List.concat ibs ++ List.concat sbs));
    [|unfold buf; reassoc|lens|lia].
  cbn [bind]. rewrite (Point_Unmarshal_Marshal s _ _ Hkm). cbn [bind].
  fold t in Hsz, Hpu. rewrite Hsz, <- Hplen.
  rewrite (slice_eq buf
             (Go.le32 n ++ Go.le32 t ++ Go.le32 r ++ keyBuf) polyBuf
             (List.concat ibs ++ List.concat sbs));
    [|unfold buf; reassoc|rewrite <- Hklen; lens|lia].
  cbn [bind]. rewrite Hpu. cbn [bind].
  replace (Z.to_nat n) with (List.length (Promise.insurers x)) at 1
    by (unfold Go.len in Hins; fold n in Hins; lia).
  replace buf with
    ((Go.le32 n ++ Go.le32 t ++ Go.le32 r ++ keyBuf ++ polyBuf)
     ++ List.concat ibs ++ List.concat sbs) by (unfold buf; reassoc).
  rewrite (unmarshalLoop_read (Point_UnmarshalBinary s) (PointLen s)
             (Promise.insurers x) ibs Hiu);
    [|rewrite <- Hklen; lens].
  cbn [bind].
  replace (Z.to_nat n) with (List.length (Promise.secrets x))
    by (unfold Go.len in Hsec; fold n in Hsec; lia).
  replace ((Go.le32 n ++ Go.le32 t ++ Go.le32 r ++ keyBuf ++ polyBuf)
           ++ List.concat ibs ++ List.concat sbs)
    with ((Go.le32 n ++ Go.le32 t ++ Go.le32 r ++ keyBuf ++ polyBuf
           ++ List.concat ibs) ++ List.concat sbs ++ [])
    by (rewrite app_nil_r; reassoc).
  rewrite (unmarshalLoop_read (Secret_UnmarshalBinary s) (SecretLen s)
             (Promise.secrets x) sbs Hsu);
    [|rewrite <- Hilen, <- Hklen; lens].
  cbn [bind]. destruct x; reflexivity.
Qed.

(** C8. For each of PromiseSignature, BlameProof and Promise and every
    fully populated instance x: MarshalBinary(x) succeeds with exactly
    MarshalSize(x) bytes, and unmarshalling these bytes into a fresh
    instance initialised with the suite of x yields an instance x' that
    is Equal to x (it has the same fields), so that every Verify call
    that returned nil on x returns nil on x'. *)
Theorem codec_roundtrip :
  (forall x : PromiseSignature.T,
     populatedSignature x ->
     exists buf x',
       PromiseSignature.MarshalBinary x = Ret buf
       /\ PromiseSignature.MarshalSize x = Go.len buf
       /\ PromiseSignature.UnmarshalBinary
            (PromiseSignature.UnmarshalInit (PromiseSignature.suite x)) buf
          = Ret x'
       /\ PromiseSignature.Equal x x' = true
       /\ (forall p i, Promise.VerifySignature p i x = Ret tt ->
                       Promise.VerifySignature p i x' = Ret tt))
  /\ (forall x : BlameProof.T,
        populatedBlame x ->
        exists buf x',
          BlameProof.MarshalBinary x = Ret buf
          /\ BlameProof.MarshalSize x = Go.len buf
          /\ BlameProof.UnmarshalBinary (BlameProof.suite x) buf = Ret x'
          /\ BlameProof.Equal x x' = true
          /\ (forall p i, Promise.VerifyBlame p i x = Ret tt ->
                          Promise.VerifyBlame p i x' = Ret tt))
  /\ (forall x : Promise.T,
        populatedPromise x ->
        exists buf x',
          Promise.MarshalBinary x = Ret buf
          /\ Promise.MarshalSize x = Go.len buf
          /\ Promise.UnmarshalBinary (Promise.shareSuite x) buf = Ret x'
          /\ Promise.Equal x x' = Ret true
          /\ (forall key, Promise.VerifyPromise x key = Ret tt ->
                          Promise.VerifyPromise x' key = Ret tt)
          /\ (forall i kp, Promise.VerifyShare x i kp = Ret tt ->
                           Promise.VerifyShare x' i kp = Ret tt)
          /\ (forall i sig, Promise.VerifySignature x i sig = Ret tt ->
                            Promise.VerifySignature x' i sig = Ret tt)
          /\ (forall i share,
                Promise.VerifyRevealedShare x i share = Ret tt ->
                Promise.VerifyRevealedShare x' i share = Ret tt)
          /\ (forall i bp, Promise.VerifyBlame x i bp = Ret tt ->
                           Promise.VerifyBlame x' i bp = Ret tt)).
Proof.
  split; [|split].
  - intros x Hx.
    destruct (PromiseSignature_roundtrip x Hx) as [buf [H1 [H2 H3]]].
    exists buf, x. repeat split; try assumption; try (intros; assumption).
    apply PromiseSignature_Equal_refl.
  - intros x Hx.
    destruct (BlameProof_roundtrip x Hx) as [buf [H1 [H2 H3]]].
    exists buf, x. repeat split; try assumption; try (intros; assumption).
    apply BlameProof_Equal_refl.
  - intros x Hx.
    destruct (Promise_roundtrip x Hx) as [buf [H1 [H2 H3]]].
    exists buf, x. repeat split; try assumption; try (intros; assumption).
    apply Promise_Equal_refl. apply Hx.
Qed.

End RoundTrip.

(** ** The state and the promise that the operations build *)

Section BuiltValues.
Context `{G : Group} {PL : poly.Lib} {AL : anon.Lib} {ZL : proof.Lib}.
Context {GL : GroupLaws} {PLaws : PolyLaws}.

Lemma set_nth_length {A : Type} (l : list A) (i : nat) (v : A) :
  List.length (Go.set_nth l i v) = List.length l.
Proof.
  revert i; induction l as [|x l IH]; intros i; [reflexivity|].
  destruct i; simpl; [reflexivity|]. now rewrite IH.
Qed.

(** Init allocates the slots; AddSignature and AddBlameProof keep them. *)
Lemma Init_allocated (promise : Promise.T) (ps : PromiseState.T) :
  PromiseState.Init promise = Ret ps ->
  PromiseState.Promise ps = promise /\ slotsAllocated ps.
Proof.
  unfold PromiseState.Init.
  destruct (Promise.n promise <? 0) eqn:E; [discriminate|].
  apply Z.ltb_ge in E. intros H; injection H as <-.
  split; [reflexivity|]. unfold slotsAllocated, Go.len; simpl.
  rewrite !repeat_length. lia.
Qed.

Lemma AddSignature_allocated (ps ps' : PromiseState.T) (i : Z)
      (sig : PromiseSignature.T) :
  slotsAllocated ps -> PromiseState.AddSignature ps i sig = Ret ps' ->
  PromiseState.Promise ps' = PromiseState.Promise ps /\ slotsAllocated ps'.
Proof.
  intros [H1 H2]. unfold PromiseState.AddSignature, Go.assign.
  destruct (_ || _); [discriminate|]. cbn [bind].
  intros H; injection H as <-. split; [reflexivity|].
  unfold slotsAllocated, Go.len in *; simpl.
  rewrite set_nth_length. auto.
Qed.

Lemma AddBlameProof_allocated (ps ps' : PromiseState.T) (i : Z)
      (bp : BlameProof.T) :
  slotsAllocated ps -> PromiseState.AddBlameProof ps i bp = Ret ps' ->
  PromiseState.Promise ps' = PromiseState.Promise ps /\ slotsAllocated ps'.
Proof.
  intros [H1 H2]. unfold PromiseState.AddBlameProof, Go.assign.
  destruct (_ || _); [discriminate|]. cbn [bind].
  intros H; injection H as <-. split; [reflexivity|].
  unfold slotsAllocated, Go.len in *; simpl.
  rewrite set_nth_length. auto.
Qed.

(** A promise built by ConstructPromise with 1 <= t and fewer than 2^32
    insurers is fully populated. *)
Lemma ConstructPromise_populated (rand : Stream)
      (secret keyPair : config.KeyPair) (t r : Z) (insurers : list Point)
      (p : Promise.T) :
  1 <= t -> Go.len insurers < 2 ^ 32 ->
  Promise.ConstructPromise rand secret keyPair t r insurers = Ret p ->
  populatedPromise p.
Proof.
  intros Ht Hn Hret.
  destruct (Z.lt_ge_cases (Go.len insurers) t) as [Hlt|Hge].
  { unfold Promise.ConstructPromise in Hret.
    replace (Go.len insurers <? t) with true in Hret
      by (symmetry; apply Z.ltb_lt; lia).
    discriminate. }
  destruct (ConstructPromise_returns rand secret keyPair t r insurers Hge)
    as [secrets [Hsec Heq]].
  rewrite Heq in Hret. injection Hret as <-.
  destruct (encryptShares_spec (config.Suite secret)
              (PriShares_Split
                 (PriPoly_Pick (config.Suite secret) t
                    (config.Secret secret) rand) (Go.len insurers))
              (config.Secret keyPair) insurers 0)
    as [secrets' [Hsec' [Hlen _]]].
  rewrite Hsec in Hsec'. injection Hsec' as <-.
  unfold populatedPromise, arraysSynchronised; simpl.
  repeat split; try lia.
  - unfold Go.len. now rewrite Hlen.
  - apply Commit_codec; lia.
  - apply Commit_codec; lia.
Qed.

End BuiltValues.

(** ** Runs on the small instance *)

Section Runs.
#[local] Existing Instance Toy.group.
#[local] Existing Instance Toy.polylib.
#[local] Existing Instance Toy.anonlib.
#[local] Existing Instance Toy.prooflib.
#[local] Existing Instance ToyFacts.group_laws.
#[local] Existing Instance ToyFacts.poly_laws.
#[local] Existing Instance ToyFacts.anon_laws.
#[local] Existing Instance ToyFacts.proof_laws.
Import Toy.

Lemma basicPromise_built :
  Promise.ConstructPromise (G:=group) (PL:=polylib) rand secretKey
      promiserKey 2 2
    (insurerList insurerKeys) = Ret basicPromise.
Proof. reflexivity. Qed.

Lemma insurerKeys_honest : Forall (honestKey (G:=group) tt) insurerKeys.
Proof. repeat constructor. Qed.

Lemma promiserKey_honest : honestKey (G:=group) tt promiserKey.
Proof. split; reflexivity. Qed.

Lemma insurerKeys_distinct : NoDup (insurerList (G:=group) insurerKeys).
Proof.
  repeat constructor; simpl; intros H;
    repeat (destruct H as [H|H]; [discriminate H|]); exact H.
Qed.

(** A blame of the corrupted share is justified: VerifyBlame returns
    nil. *)
Example corrupted_share_blame :
  (bp <- Promise.Blame corruptedPromise 0 (keyPair f1) [] [] ;;
   Promise.VerifyBlame corruptedPromise 0 bp) = Ret tt.
Proof. reflexivity. Qed.

(** With a valid blame in slot 0 the state is repudiated although r
    valid signatures are present. *)
Example repudiated_state :
  (bp <- Promise.Blame corruptedPromise 0 (keyPair f1) [] [] ;;
   PromiseState.PromiseCertified
     {| PromiseState.Promise := corruptedPromise;
        PromiseState.PriShares := [f0; f0; f0];
        PromiseState.signatures := PromiseState.signatures twoSignatures;
        PromiseState.blames := [Some bp; None; None] |} f2)
  = Err PromiseRepudiated.
Proof. reflexivity. Qed.

Lemma diffieHellman_roundtrip_witness :
  Point_MarshalBinary (Group:=group) f2 = Ret [marshal1 f2]
  /\ (e <- Promise.diffieHellmanEncrypt (G:=group) tt f3 f2 ;;
      Promise.diffieHellmanDecrypt (G:=group) tt e f2) = Ret f3.
Proof.
  split; [reflexivity|].
  exact (proj2 (proj2 (diffieHellman_roundtrip (G:=group) tt f3 f0 f2
                         [marshal1 f2] eq_refl))).
Defined.



Lemma VerifyShare_ConstructPromise_witness :
  exists p,
    Promise.ConstructPromise (G:=group) (PL:=polylib) rand secretKey
      promiserKey 2 2
      (insurerList insurerKeys) = Ret p
    /\ Promise.VerifyShare p 1 (keyPair f2) = Ret tt.
Proof.
  destruct (VerifyShare_ConstructPromise (G:=group) rand secretKey promiserKey
              insurerKeys 2 2) as [p [H1 H2]].
  - unfold Go.len; simpl; lia.
  - unfold Go.len; simpl; lia.
  - exact promiserKey_honest.
  - exact insurerKeys_honest.
  - exists p. split; [exact H1|].
    apply H2; [unfold Go.len; simpl; lia|reflexivity].
Defined.

Lemma Sign_ignores_index_witness :
  honestKey (G:=group) tt (keyPair f1)
  /\ Promise.Sign basicPromise 2 (keyPair f1) []
     = Promise.Sign basicPromise 0 (keyPair f1) []
  /\ Promise.VerifySignature basicPromise 0
       (Promise.Sign basicPromise 2 (keyPair f1) []) = Ret tt.
Proof.
  assert (H : honestKey (G:=group) tt (keyPair f1)) by (split; reflexivity).
  split; [exact H|].
  destruct (Sign_ignores_index basicPromise 2 0 (keyPair f1) [] [])
    as [H1 [_ [_ [_ H5]]]].
  split; [exact H1|].
  apply H5; [exact H|simpl; lia|reflexivity].
Defined.

Lemma Sign_VerifySignature_witness :
  Promise.VerifySignature basicPromise 0
    (Promise.Sign basicPromise 0 (keyPair f1) []) = Ret tt
  /\ (exists e,
        Promise.VerifySignature basicPromise 1
          (Promise.Sign basicPromise 0 (keyPair f1) []) = Err e)
  /\ (exists e,
        Promise.verifySignature basicPromise 0
          (Promise.Sign basicPromise 0 (keyPair f1) []) sigBlameMsg
        = Err e).
Proof.
  destruct (Sign_VerifySignature (G:=group) rand [] secretKey promiserKey
              insurerKeys 2 2 basicPromise basicPromise_built promiserKey_honest
              insurerKeys_honest insurerKeys_distinct 0 (keyPair f1))
    as [H1 [H2 H3]].
  - unfold Go.len; simpl; lia.
  - reflexivity.
  - split; [exact H1|]. split; [|apply H3].
    apply H2; [unfold Go.len; simpl; lia|lia].
Defined.

Lemma VerifyBlame_checks_witness :
  arraysSynchronised basicPromise
  /\ (forall bp, Promise.VerifyBlame basicPromise 5 bp = Err BadIndex)
  /\ (exists bp,
        Promise.Blame basicPromise 0 (keyPair f1) [] [] = Ret bp
        /\ Promise.VerifyBlame basicPromise 0 bp = Err UnjustifiedBlame).
Proof.
  assert (Harr : arraysSynchronised basicPromise) by (split; reflexivity).
  split; [exact Harr|]. split.
  - intros bp.
    apply (proj1 (proj1 (VerifyBlame_checks (G:=group)) basicPromise 5 bp
                    Harr)).
    simpl; lia.
  - apply (proj2 (VerifyBlame_checks (G:=group)) rand [] [] secretKey
             promiserKey insurerKeys 2 2 basicPromise 0 (keyPair f1)
             basicPromise_built promiserKey_honest insurerKeys_honest).
    + unfold Go.len; simpl; lia.
    + reflexivity.
Defined.

Lemma indexed_operations_bounds_witness :
  (5 < 0 \/ Promise.n basicPromise <= 5)
  /\ Promise.VerifyShare basicPromise 5 (keyPair f1) = Err BadIndex
  /\ Promise.VerifyRevealedShare basicPromise 5 f1 = Err BadIndex.
Proof.
  assert (H : 5 < 0 \/ Promise.n basicPromise <= 5) by (right; simpl; lia).
  split; [exact H|].
  destruct (indexed_operations_bounds basicPromise 5 H)
    as [H1 [_ [_ [H4 _]]]].
  split; [apply H1|]. apply H4. simpl; lia.
Defined.

(** Counterexample to C6 as stated: at the index n = 3, RevealShare panics
    instead of returning an error, Blame returns a proof and a nil error,
    and VerifyRevealedShare accepts a share that satisfies the polynomial
    at abscissa n + 1. *)
Lemma index_n_not_reported :
  Promise.RevealShare basicPromise 3 (keyPair f1)
  = Panic "index out of range"
  /\ (exists bp, Promise.Blame basicPromise 3 (keyPair f1) [] [] = Ret bp)
  /\ Promise.VerifyRevealedShare basicPromise 3 f1 = Ret tt.
Proof. split; [reflexivity|]. split; [eexists|]; reflexivity. Qed.

Lemma PromiseCertified_spec_witness :
  slotsAllocated twoSignatures
  /\ PromiseState.PromiseCertified twoSignatures f2 = Ret tt.
Proof.
  assert (H : slotsAllocated twoSignatures) by (split; reflexivity).
  split; [exact H|].
  apply (proj1 (PromiseCertified_spec twoSignatures f2 H)).
  split; [reflexivity|]. split.
  - intros i Hi. simpl in Hi.
    assert (E : i = 0 \/ i = 1 \/ i = 2) by lia.
    destruct E as [->|[->| ->]]; reflexivity.
  - vm_compute. discriminate.
Defined.



Lemma basicPromise_populated : populatedPromise basicPromise.
Proof.
  apply (ConstructPromise_populated (G:=group) rand secretKey promiserKey 2 2
           (insurerList insurerKeys)).
  - lia.
  - unfold Go.len; simpl; lia.
  - exact basicPromise_built.
Defined.

Lemma codec_roundtrip_witness :
  populatedPromise basicPromise
  /\ exists buf x',
       Promise.MarshalBinary basicPromise = Ret buf
       /\ Promise.MarshalSize basicPromise = Go.len buf
       /\ Promise.UnmarshalBinary (G:=group) (PL:=polylib)
         tt buf = Ret x'
       /\ Promise.Equal basicPromise x' = Ret true.
Proof.
  split; [exact basicPromise_populated|].
  destruct (proj2 (proj2 (codec_roundtrip (G:=group))) basicPromise
              basicPromise_populated)
    as [buf [x' [H1 [H2 [H3 [H4 _]]]]]].
  exists buf, x'. repeat split; assumption.
Defined.

End Runs.

(** * Further properties of the package *)

(** ** What a constructed promise stores *)

Section PromiseContents.
Context `{G : Group} {PL : poly.Lib} {AL : anon.Lib} {ZL : proof.Lib}.
Context {GL : GroupLaws} {PLaws : PolyLaws} {ALaws : AnonLaws}
        {ZLaws : ProofLaws}.

Lemma ConstructPromise_Ret_inv (rand : Stream)
      (secret keyPair : config.KeyPair) (t r : Z) (insurers : list Point)
      (p : Promise.T) :
  Promise.ConstructPromise rand secret keyPair t r insurers = Ret p ->
  t <= Go.len insurers
  /\ exists secrets,
       Promise.encryptShares (config.Suite secret)
         (PriShares_Split
            (PriPoly_Pick (config.Suite secret) t (config.Secret secret)
               rand) (Go.len insurers))
         (config.Secret keyPair) insurers 0 = Ret secrets
       /\ p = {| Promise.shareSuite := config.Suite secret;
                 Promise.t := t;
                 Promise.r := Z.max t (Z.min r (Go.len insurers));
                 Promise.n := Go.len insurers;
                 Promise.pubKey := config.Public keyPair;
                 Promise.pubPoly :=
                   PubPoly_Commit
                     (PriPoly_Pick (config.Suite secret) t
                        (config.Secret secret) rand);
                 Promise.insurers := insurers;
                 Promise.secrets := secrets |}.
Proof.
  intros Hret.
  destruct (Z.lt_ge_cases (Go.len insurers) t) as [Hlt|Hge].
  { unfold Promise.ConstructPromise in Hret.
    replace (Go.len insurers <? t) with true in Hret
      by (symmetry; apply Z.ltb_lt; lia).
    discriminate. }
  split; [exact Hge|].
  destruct (ConstructPromise_returns rand secret keyPair t r insurers Hge)
    as [secrets [Hsec Heq]].
  exists secrets. split; [exact Hsec|]. congruence.
Qed.

(** The fields of a promise returned by ConstructPromise. *)
Lemma ConstructPromise_fields (rand : Stream)
        (secret keyPair : config.KeyPair) (t r : Z) (insurers : list Point)
        (p : Promise.T) :
  Promise.ConstructPromise rand secret keyPair t r insurers = Ret p ->
  let s := config.Suite secret in
  let pripoly := PriPoly_Pick s t (config.Secret secret) rand in
  Promise.shareSuite p = s
  /\ Promise.pubKey p = config.Public keyPair
  /\ Promise.insurers p = insurers
  /\ Promise.n p = Go.len insurers
  /\ Promise.pubPoly p = PubPoly_Commit pripoly
  /\ arraysSynchronised p
  /\ forall i ins,
       0 <= i < Promise.n p ->
       nth_error insurers (Z.to_nat i) = Some ins ->
       exists buf,
         Point_MarshalBinary (Point_Mul s ins (config.Secret keyPair))
         = Ret buf
         /\ nth_error (Promise.secrets p) (Z.to_nat i)
            = Some (Secret_Add s
                      (PriShares_Share
                         (PriShares_Split pripoly (Go.len insurers)) i)
                      (Secret_Pick s (Cipher s buf))).
Proof.
  intros Hret s pripoly.
  destruct (ConstructPromise_Ret_inv _ _ _ _ _ _ _ Hret)
    as [Hge [secrets [Hsec ->]]].
  destruct (encryptShares_spec s (PriShares_Split pripoly (Go.len insurers))
              (config.Secret keyPair) insurers 0)
    as [secrets' [Hsec' [Hlen Hnth]]].
  fold s pripoly in Hsec. rewrite Hsec in Hsec'. injection Hsec' as <-.
  cbn [Promise.shareSuite Promise.pubKey Promise.insurers Promise.n
       Promise.pubPoly Promise.secrets].
  repeat split.
  - unfold arraysSynchronised, Go.len; simpl. now rewrite Hlen.
  - intros i ins Hi Hins.
    destruct (Hnth _ _ Hins) as [c [Hc Henc]].
    destruct (Point_Marshal_ok s (Point_Mul s ins (config.Secret keyPair)))
      as [buf [Hbuf _]].
    exists buf. split; [exact Hbuf|].
    unfold Promise.diffieHellmanEncrypt in Henc. rewrite Hbuf in Henc.
    rewrite Z2Nat.id, Z.add_0_l in Henc by lia.
    rewrite Hc. congruence.
Qed.

(** X1. A promise returned by ConstructPromise stores the suite of the
    secret, the promiser's public key, the insurers as given and their
    number; its arrays have length n; and its i-th secret is the i-th
    share of the split polynomial plus the mask picked from the cipher
    seeded with the marshalled key [insurers[i] * promiser secret]. *)
Theorem ConstructPromise_stores (rand : Stream)
        (secret keyPair : config.KeyPair) (t r : Z) (insurers : list Point)
        (p : Promise.T) :
  Promise.ConstructPromise rand secret keyPair t r insurers = Ret p ->
  let s := config.Suite secret in
  let pripoly := PriPoly_Pick s t (config.Secret secret) rand in
  Promise.shareSuite p = s
  /\ Promise.pubKey p = config.Public keyPair
  /\ Promise.insurers p = insurers
  /\ Promise.n p = Go.len insurers
  /\ Promise.pubPoly p = PubPoly_Commit pripoly
  /\ arraysSynchronised p
  /\ forall i ins,
       0 <= i < Promise.n p ->
       nth_error insurers (Z.to_nat i) = Some ins ->
       exists buf,
         Point_MarshalBinary (Point_Mul s ins (config.Secret keyPair))
         = Ret buf
         /\ nth_error (Promise.secrets p) (Z.to_nat i)
            = Some (Secret_Add s
                      (PriShares_Share
                         (PriShares_Split pripoly (Go.len insurers)) i)
                      (Secret_Pick s (Cipher s buf))).
Proof. apply ConstructPromise_fields. Qed.

(** X2. VerifyPromise accepts every promise returned by ConstructPromise
    when given the promiser's public key, and rejects it with the
    public-key error when given any other key. *)
Theorem VerifyPromise_ConstructPromise (rand : Stream)
        (secret keyPair : config.KeyPair) (t r : Z) (insurers : list Point)
        (p : Promise.T) :
  Promise.ConstructPromise rand secret keyPair t r insurers = Ret p ->
  Promise.VerifyPromise p (config.Public keyPair) = Ret tt
  /\ forall key,
       key <> config.Public keyPair ->
       Promise.VerifyPromise p key
       = Err (errors.New
                "Public key of promise differs from what is expected").
Proof.
  intros Hret.
  destruct (ConstructPromise_fields _ _ _ _ _ _ _ Hret)
    as [_ [Hpub [_ [Hn [_ [[Hl1 Hl2] _]]]]]].
  destruct (ConstructPromise_Ret_inv _ _ _ _ _ _ _ Hret)
    as [Hge [secrets [_ Hp]]].
  assert (Ht : Promise.t p = t) by (subst p; reflexivity).
  assert (Hr : Promise.r p = Z.max t (Z.min r (Go.len insurers)))
    by (subst p; reflexivity).
  assert (Hguard : (Promise.n p <? Promise.t p)
                   || (Promise.r p <? Promise.t p)
                   || (Promise.n p <? Promise.r p) = false).
  { rewrite Hn, Ht, Hr. repeat (apply orb_false_iff; split);
      apply Z.ltb_ge; lia. }
  unfold Promise.VerifyPromise. rewrite Hguard, Hpub, Hl1, Hl2.
  rewrite !Z.eqb_refl. split.
  - now rewrite Point_Equal_refl.
  - intros key Hkey. unfold Point_Equal.
    destruct (Point_eq_dec key (config.Public keyPair)); [contradiction|].
    reflexivity.
Qed.

(** X3. On an honestly constructed promise, RevealShare(i, kp_i) returns
    the i-th share of the split polynomial, and VerifyRevealedShare
    accepts it. *)
Theorem RevealShare_ConstructPromise (rand : Stream)
        (secret promiser : config.KeyPair) (kps : list config.KeyPair)
        (t r : Z) (p : Promise.T) (i : Z) (kp : config.KeyPair) :
  let s := config.Suite secret in
  let share :=
    PriShares_Share
      (PriShares_Split (PriPoly_Pick s t (config.Secret secret) rand)
         (Go.len (insurerList kps))) i in
  Promise.ConstructPromise rand secret promiser t r (insurerList kps)
  = Ret p ->
  honestKey s promiser -> Forall (honestKey s) kps ->
  0 <= i < Go.len kps -> nth_error kps (Z.to_nat i) = Some kp ->
  Promise.RevealShare p i kp = Ret share
  /\ Promise.VerifyRevealedShare p i share = Ret tt.
Proof.
  intros s share Hret Hprom Hkps Hi Hkp.
  destruct (ConstructPromise_fields _ _ _ _ _ _ _ Hret)
    as [Hs [Hpub [Hins [Hn [Hpoly [_ Hsec]]]]]].
  rewrite insurerList_len in Hn.
  destruct (Hsec i (config.Public kp)) as [buf [Hbuf Hnth]];
    [lia|now apply insurerList_nth|].
  assert (Hk : honestKey s kp)
    by (eapply Forall_forall; [exact Hkps|eapply nth_error_In; exact Hkp]).
  subst s share. split.
  - unfold Promise.RevealShare.
    rewrite (GoFacts.index_ok _ i _ ltac:(lia) Hnth). cbn [bind].
    rewrite Hs, Hpub.
    rewrite (diffieBase_agree _ promiser kp Hprom Hk).
    unfold Promise.diffieHellmanDecrypt. rewrite Hbuf.
    now rewrite Secret_Sub_Add.
  - unfold Promise.VerifyRevealedShare.
    replace ((Promise.n p <? i) || (i <? 0)) with false
      by (symmetry; apply orb_false_iff; split; apply Z.ltb_ge; lia).
    rewrite Hpoly.
    rewrite Check_Share by (rewrite insurerList_len; lia). reflexivity.
Qed.

(** The insurer's share check and its blame decide on the same share. *)
Lemma share_or_blame (p : Promise.T) (i : Z)
        (kp : config.KeyPair) (rand zkrand : Stream) :
  arraysSynchronised p -> 0 <= i < Promise.n p ->
  nth_error (Promise.insurers p) (Z.to_nat i) = Some (config.Public kp) ->
  honestKey (config.Suite kp) kp ->
  exists bp share,
    Promise.Blame p i kp rand zkrand = Ret bp
    /\ Promise.RevealShare p i kp = Ret share
    /\ if PubPoly_Check (Promise.pubPoly p) i share
       then Promise.VerifyShare p i kp = Ret tt
            /\ Promise.VerifyBlame p i bp = Err UnjustifiedBlame
       else Promise.VerifyShare p i kp = Err BadShare
            /\ Promise.VerifyBlame p i bp = Ret tt.
Proof.
  intros [Hl1 Hl2] Hi Hins Hhon.
  destruct (GoFacts.index_in_range (Promise.secrets p) i)
    as [sec [Hsec Hidx]]; [lia|].
  set (D := Point_Mul (Promise.shareSuite p) (Promise.pubKey p)
              (config.Secret kp)).
  destruct (decrypt_returns (Promise.shareSuite p) sec D) as [share Hdec].
  destruct (HashProve_complete (Promise.shareSuite p) protocolName zkrand
              (config.Secret kp) (Promise.pubKey p)) as [prf [Hprove Hver]].
  fold D in Hprove, Hver.
  unfold Promise.Blame. fold D. rewrite Hprove. cbn [bind].
  eexists. exists share. split; [reflexivity|].
  split.
  { unfold Promise.RevealShare. fold D. rewrite Hidx. exact Hdec. }
  assert (HVS : Promise.VerifyShare p i kp
                = if PubPoly_Check (Promise.pubPoly p) i share
                  then Ret tt else Err BadShare).
  { unfold Promise.VerifyShare.
    rewrite in_range_guard by assumption.
    rewrite (GoFacts.index_ok _ i _ ltac:(lia) Hins). cbn [bind].
    rewrite Point_Equal_refl. cbn [negb]. rewrite Hidx. cbn [bind].
    fold D. rewrite Hdec. cbn [bind].
    now destruct (PubPoly_Check _ _ _). }
  assert (HVB : Promise.VerifyBlame p i
                  (BlameProof.init (Promise.shareSuite p) D (Go.Bytes prf)
                     (Promise.sign p i kp sigBlameMsg rand))
                = if PubPoly_Check (Promise.pubPoly p) i share
                  then Err UnjustifiedBlame else Ret tt).
  { unfold Promise.VerifyBlame.
    cbn [BlameProof.signature BlameProof.init BlameProof.diffieKey
         BlameProof.diffieKeyProof].
    rewrite in_range_guard by assumption.
    rewrite verifySignature_sign by assumption. cbn [bind].
    rewrite Hver. cbn [bind]. rewrite Hidx. cbn [bind].
    rewrite Hdec. cbn [bind].
    now destruct (PubPoly_Check _ _ _). }
  rewrite HVS, HVB. destruct (PubPoly_Check _ _ _); split; reflexivity.
Qed.

(** X4. For the insurer of an in-range index, holding the key recorded
    at that index: Blame succeeds, and the blame is justified exactly
    when the insurer's own share verification fails the polynomial check.
    If the revealed share satisfies the polynomial, VerifyShare returns
    nil and VerifyBlame returns UnjustifiedBlame; otherwise VerifyShare
    returns the bad-share error and VerifyBlame returns nil. *)
Theorem blame_justified_iff_share_bad (p : Promise.T) (i : Z)
        (kp : config.KeyPair) (rand zkrand : Stream) :
  arraysSynchronised p -> 0 <= i < Promise.n p ->
  nth_error (Promise.insurers p) (Z.to_nat i) = Some (config.Public kp) ->
  honestKey (config.Suite kp) kp ->
  exists bp share,
    Promise.Blame p i kp rand zkrand = Ret bp
    /\ Promise.RevealShare p i kp = Ret share
    /\ if PubPoly_Check (Promise.pubPoly p) i share
       then Promise.VerifyShare p i kp = Ret tt
            /\ Promise.VerifyBlame p i bp = Err UnjustifiedBlame
       else Promise.VerifyShare p i kp = Err BadShare
            /\ Promise.VerifyBlame p i bp = Ret tt.
Proof. apply share_or_blame. Qed.

End PromiseContents.

(** ** Corrupted shares and the two signature tags *)

Section BlameScenarios.
Context `{G : Group} {PL : poly.Lib} {AL : anon.Lib} {ZL : proof.Lib}.
Context {GL : GroupLaws} {PLaws : PolyLaws} {ALaws : AnonLaws}
        {ZLaws : ProofLaws}.

Lemma set_nth_same {A : Type} (l : list A) (i : nat) (v : A) :
  (i < List.length l)%nat -> nth_error (Go.set_nth l i v) i = Some v.
Proof.
  revert i; induction l as [|x l IH]; intros i Hi; simpl in Hi; [lia|].
  destruct i; simpl; [reflexivity|]. apply IH. lia.
Qed.

Lemma set_nth_other {A : Type} (l : list A) (i j : nat) (v : A) :
  j <> i -> nth_error (Go.set_nth l i v) j = nth_error l j.
Proof.
  revert i j; induction l as [|x l IH]; intros i j Hne; [reflexivity|].
  destruct i, j; simpl; try reflexivity; try lia. apply IH. lia.
Qed.

Lemma assign_ok {A : Type} (l : list A) (i : Z) (v : A) :
  0 <= i < Go.len l -> Go.assign l i v = Ret (Go.set_nth l (Z.to_nat i) v).
Proof.
  intros Hi. unfold Go.assign. now rewrite in_range_guard.
Qed.

Lemma assign_out_of_range {A : Type} (l : list A) (i : Z) (v : A) :
  i < 0 \/ Go.len l <= i -> Go.assign l i v = Panic "index out of range".
Proof.
  intros Hi. unfold Go.assign. now rewrite out_of_range_guard.
Qed.

Lemma corruptShare_fields (p p' : Promise.T) (i : Z) (bad : Secret) :
  arraysSynchronised p -> 0 <= i < Promise.n p ->
  PromiseTest.corruptShare p i bad = Ret p' ->
  Promise.shareSuite p' = Promise.shareSuite p
  /\ Promise.t p' = Promise.t p /\ Promise.r p' = Promise.r p
  /\ Promise.n p' = Promise.n p /\ Promise.pubKey p' = Promise.pubKey p
  /\ Promise.pubPoly p' = Promise.pubPoly p
  /\ Promise.insurers p' = Promise.insurers p
  /\ Promise.secrets p' = Go.set_nth (Promise.secrets p) (Z.to_nat i) bad
  /\ arraysSynchronised p'.
Proof.
  intros [H1 H2] Hi. unfold PromiseTest.corruptShare.
  rewrite assign_ok by lia. cbn [bind]. intros H; injection H as <-.
  repeat (split; [reflexivity|]).
  unfold arraysSynchronised, Go.len in *.
  cbn [Promise.insurers Promise.secrets Promise.n].
  rewrite set_nth_length. auto.
Qed.

(** X5. When the promiser's share for insurer i is replaced by a scalar
    that decrypts, under the key shared with insurer i, to a value off
    the committed polynomial: VerifyShare(i, kp_i) fails with the
    bad-share error, the insurer's blame proof is accepted by VerifyBlame
    (nil), and every other insurer's share still verifies. *)
Theorem corrupted_share_is_blamed (rand sigrand zkrand : Stream)
        (secret promiser : config.KeyPair) (kps : list config.KeyPair)
        (t r : Z) (p p' : Promise.T) (i : Z) (kp : config.KeyPair)
        (bad : Secret) :
  let s := config.Suite secret in
  Promise.ConstructPromise rand secret promiser t r (insurerList kps)
  = Ret p ->
  honestKey s promiser -> Forall (honestKey s) kps ->
  0 <= i < Go.len kps -> nth_error kps (Z.to_nat i) = Some kp ->
  PromiseTest.corruptShare p i bad = Ret p' ->
  (forall share,
     Promise.diffieHellmanDecrypt s bad
       (Point_Mul s (config.Public promiser) (config.Secret kp))
     = Ret share ->
     PubPoly_Check (Promise.pubPoly p) i share = false) ->
  Promise.VerifyShare p' i kp = Err BadShare
  /\ (exists bp,
        Promise.Blame p' i kp sigrand zkrand = Ret bp
        /\ Promise.VerifyBlame p' i bp = Ret tt)
  /\ (forall j kpj,
        0 <= j < Go.len kps -> j <> i ->
        nth_error kps (Z.to_nat j) = Some kpj ->
        Promise.VerifyShare p' j kpj = Ret tt).
Proof.
  intros s Hret Hprom Hkps Hi Hkp Hcor Hbad.
  destruct (ConstructPromise_share rand secret promiser kps t r p Hret
              Hprom Hkps) as [Hs [Hnp [Hins [Hpub Hshare]]]].
  destruct (ConstructPromise_fields _ _ _ _ _ _ _ Hret)
    as [_ [_ [_ [_ [_ [Harr _]]]]]].
  destruct (corruptShare_fields p p' i bad Harr ltac:(lia) Hcor)
    as [Es [Et [Er [En [Ek [Ep [Ei [Esec Harr']]]]]]]].
  assert (Hhon : forall j kpj, nth_error kps (Z.to_nat j) = Some kpj ->
                               honestKey (config.Suite kpj) kpj).
  { intros j kpj Hj.
    assert (H : honestKey s kpj)
      by (eapply Forall_forall; [exact Hkps|eapply nth_error_In; exact Hj]).
    destruct H as [H1 H2]. split; [reflexivity|]. now rewrite H1. }
  assert (Hlen : (Z.to_nat i < List.length (Promise.secrets p))%nat).
  { destruct Harr as [_ H]. unfold Go.len in H. lia. }
  split; [|split].
  - destruct (share_or_blame p' i kp sigrand zkrand)
      as [bp [share [_ [Hrev Hcase]]]];
      [assumption|lia|rewrite Ei, Hins; now apply insurerList_nth
       |now apply (Hhon i)|].
    unfold Promise.RevealShare in Hrev.
    rewrite Esec, (GoFacts.index_ok _ i bad) in Hrev;
      [|lia|now apply set_nth_same].
    cbn [bind] in Hrev. rewrite Es, Ek, Hs, Hpub in Hrev.
    rewrite Ep in Hcase. rewrite (Hbad share Hrev) in Hcase. apply Hcase.
  - destruct (share_or_blame p' i kp sigrand zkrand)
      as [bp [share [Hbl [Hrev Hcase]]]];
      [assumption|lia|rewrite Ei, Hins; now apply insurerList_nth
       |now apply (Hhon i)|].
    unfold Promise.RevealShare in Hrev.
    rewrite Esec, (GoFacts.index_ok _ i bad) in Hrev;
      [|lia|now apply set_nth_same].
    cbn [bind] in Hrev. rewrite Es, Ek, Hs, Hpub in Hrev.
    rewrite Ep in Hcase. rewrite (Hbad share Hrev) in Hcase.
    exists bp. split; [exact Hbl|apply Hcase].
  - intros j kpj Hj Hne Hkpj.
    destruct (Hshare j kpj Hj Hkpj) as [sec [share [Hsec [Hdec Hchk]]]].
    destruct (share_or_blame p' j kpj sigrand zkrand)
      as [bp [share' [_ [Hrev Hcase]]]];
      [assumption|lia|rewrite Ei, Hins; now apply insurerList_nth
       |now apply (Hhon j)|].
    unfold Promise.RevealShare in Hrev.
    rewrite Esec, (GoFacts.index_ok _ j sec) in Hrev;
      [|lia|rewrite set_nth_other by lia; exact Hsec].
    cbn [bind] in Hrev. rewrite Es, Ek, Hs, Hpub in Hrev.
    rewrite Hdec in Hrev.
    assert (E : share' = share) by congruence. subst share'.
    rewrite Ep, Hchk in Hcase. apply Hcase.
Qed.

(** X6. The two signature tags are kept apart: the signature embedded in
    a blame proof built by Blame is rejected by VerifySignature at every
    index, and a blame proof carrying an endorsement made by Sign is
    rejected by VerifyBlame at every index. *)
Theorem signature_tags_separate (p : Promise.T) (i : Z)
        (kp : config.KeyPair) (rand zkrand : Stream) :
  arraysSynchronised p -> honestKey (config.Suite kp) kp ->
  (forall bp j,
     Promise.Blame p i kp rand zkrand = Ret bp ->
     exists e,
       Promise.VerifySignature p j (BlameProof.signature bp) = Err e)
  /\ (forall bp j,
        BlameProof.signature bp = Promise.Sign p i kp rand ->
        exists e, Promise.VerifyBlame p j bp = Err e).
Proof.
  intros [Hl1 Hl2] Hhon.
  assert (Hrej : forall j msg msg',
            msg' <> msg ->
            exists e,
              Promise.verifySignature p j (Promise.sign p i kp msg rand)
                msg' = Err e).
  { intros j msg msg' Hne.
    destruct (Z.lt_ge_cases j 0) as [Hneg|Hnn];
      [|destruct (Z.lt_ge_cases j (Promise.n p)) as [Hlt|Hge]].
    - rewrite verifySignature_out_of_range by lia.
      destruct (PromiseSignature.signature _); eauto.
    - destruct (GoFacts.index_in_range (Promise.insurers p) j)
        as [ins [Hins _]]; [lia|].
      apply verifySignature_sign_rejects with (ins := ins);
        [assumption|lia|assumption|now right].
    - rewrite verifySignature_out_of_range by lia.
      destruct (PromiseSignature.signature _); eauto. }
  split.
  - intros bp j Hbl. unfold Promise.Blame in Hbl.
    destruct (proof.HashProve_Rep _ _ _ _ _ _); try discriminate.
    cbn [bind] in Hbl. injection Hbl as <-.
    cbn [BlameProof.signature BlameProof.init].
    unfold Promise.VerifySignature. apply Hrej.
    intros H. apply sigMsg_differ. now symmetry.
  - intros bp j Hsig. unfold Promise.VerifyBlame.
    destruct ((j <? 0) || (Promise.n p <=? j));
      [eexists; reflexivity|].
    rewrite Hsig. unfold Promise.Sign.
    destruct (Hrej j sigMsg sigBlameMsg sigMsg_differ) as [e He].
    rewrite He. cbn [bind]. eexists; reflexivity.
Qed.

End BlameScenarios.

(** ** The accumulator: slots, threshold and repudiation *)

Section StateScenarios.
Context `{G : Group} {PL : poly.Lib} {AL : anon.Lib} {ZL : proof.Lib}.
Context {GL : GroupLaws} {PLaws : PolyLaws} {ALaws : AnonLaws}
        {ZLaws : ProofLaws}.

(** X7. AddSignature(i, sig) writes slot i without any check: for an
    index inside the signatures array it returns a state whose slot i
    holds sig (whatever it held before), with every other slot, the blame
    slots and the promise unchanged; for an index outside the array it
    panics. *)
Theorem AddSignature_slot (ps : PromiseState.T) (i : Z)
        (sig : PromiseSignature.T) :
  (0 <= i < Go.len (PromiseState.signatures ps) ->
   exists ps',
     PromiseState.AddSignature ps i sig = Ret ps'
     /\ PromiseState.Promise ps' = PromiseState.Promise ps
     /\ PromiseState.PriShares ps' = PromiseState.PriShares ps
     /\ PromiseState.blames ps' = PromiseState.blames ps
     /\ Go.len (PromiseState.signatures ps')
        = Go.len (PromiseState.signatures ps)
     /\ nth_error (PromiseState.signatures ps') (Z.to_nat i)
        = Some (Some sig)
     /\ forall j, j <> Z.to_nat i ->
          nth_error (PromiseState.signatures ps') j
          = nth_error (PromiseState.signatures ps) j)
  /\ (i < 0 \/ Go.len (PromiseState.signatures ps) <= i ->
      PromiseState.AddSignature ps i sig = Panic "index out of range").
Proof.
  split.
  - intros Hi. unfold PromiseState.AddSignature.
    rewrite assign_ok by assumption. cbn [bind].
    eexists; split; [reflexivity|]. cbn.
    repeat split.
    + unfold Go.len. now rewrite set_nth_length.
    + apply set_nth_same. unfold Go.len in Hi. lia.
    + intros j Hj. now apply set_nth_other.
  - intros Hi. unfold PromiseState.AddSignature.
    now rewrite assign_out_of_range.
Qed.

(** X8. AddBlameProof(i, proof) writes slot i of the blames without any
    check: inside the array the slot holds the proof afterwards and
    nothing else changes; outside it the call panics. *)
Theorem AddBlameProof_slot (ps : PromiseState.T) (i : Z)
        (bproof : BlameProof.T) :
  (0 <= i < Go.len (PromiseState.blames ps) ->
   exists ps',
     PromiseState.AddBlameProof ps i bproof = Ret ps'
     /\ PromiseState.Promise ps' = PromiseState.Promise ps
     /\ PromiseState.PriShares ps' = PromiseState.PriShares ps
     /\ PromiseState.signatures ps' = PromiseState.signatures ps
     /\ Go.len (PromiseState.blames ps') = Go.len (PromiseState.blames ps)
     /\ nth_error (PromiseState.blames ps') (Z.to_nat i)
        = Some (Some bproof)
     /\ forall j, j <> Z.to_nat i ->
          nth_error (PromiseState.blames ps') j
          = nth_error (PromiseState.blames ps) j)
  /\ (i < 0 \/ Go.len (PromiseState.blames ps) <= i ->
      PromiseState.AddBlameProof ps i bproof
      = Panic "index out of range").
Proof.
  split.
  - intros Hi. unfold PromiseState.AddBlameProof.
    rewrite assign_ok by assumption. cbn [bind].
    eexists; split; [reflexivity|]. cbn.
    repeat split.
    + unfold Go.len. now rewrite set_nth_length.
    + apply set_nth_same. unfold Go.len in Hi. lia.
    + intros j Hj. now apply set_nth_other.
  - intros Hi. unfold PromiseState.AddBlameProof.
    now rewrite assign_out_of_range.
Qed.

Lemma existsb_false_on {A : Type} (f : A -> bool) (l : list A) :
  (forall x, In x l -> f x = false) -> existsb f l = false.
Proof.
  intros H. destruct (existsb f l) eqn:E; [|reflexivity].
  apply existsb_exists in E. destruct E as [x [Hx Hf]].
  rewrite (H x Hx) in Hf. discriminate.
Qed.

Lemma indices_split (k num : Z) :
  0 <= k <= num ->
  indices num
  = indices k ++ map Z.of_nat (seq (Z.to_nat k) (Z.to_nat (num - k))).
Proof.
  intros Hk. unfold indices.
  replace (Z.to_nat num) with (Z.to_nat k + Z.to_nat (num - k))%nat by lia.
  now rewrite seq_app, map_app.
Qed.

Lemma filter_all {A : Type} (f : A -> bool) (l : list A) :
  (forall x, In x l -> f x = true) -> filter f l = l.
Proof.
  induction l as [|x l IH]; intros H; [reflexivity|]. simpl.
  rewrite (H x (or_introl eq_refl)). f_equal. apply IH.
  intros y Hy. apply H. now right.
Qed.

Lemma filter_none {A : Type} (f : A -> bool) (l : list A) :
  (forall x, In x l -> f x = false) -> filter f l = [].
Proof.
  induction l as [|x l IH]; intros H; [reflexivity|]. simpl.
  rewrite (H x (or_introl eq_refl)). apply IH.
  intros y Hy. apply H. now right.
Qed.

(** The first k indices hold valid signatures and the others do not:
    k valid signatures. *)
Lemma validSignatures_prefix (ps : PromiseState.T) (k : Z) :
  0 <= k <= Promise.n (PromiseState.Promise ps) ->
  (forall i, 0 <= i < Promise.n (PromiseState.Promise ps) ->
             validSignatureAt ps i = (i <? k)) ->
  validSignatures ps = k.
Proof.
  intros Hk Hv. unfold validSignatures.
  rewrite (indices_split k) by assumption.
  rewrite filter_app, filter_all, filter_none.
  - rewrite app_nil_r. unfold indices, Go.len.
    rewrite length_map, length_seq. lia.
  - intros i Hi. apply in_map_iff in Hi. destruct Hi as [j [<- Hj]].
    apply in_seq in Hj. rewrite Hv by lia. apply Z.ltb_ge. lia.
  - intros i Hi. apply indices_In in Hi. rewrite Hv by lia.
    apply Z.ltb_lt. lia.
Qed.

(** X9. Init panics for a promise with a negative n; otherwise it
    returns a state that stores the promise with n empty signature slots
    and n empty blame slots. On this fresh state PromiseCertified returns
    the error of VerifyPromise if there is one, else the
    not-enough-signatures error when r > 0 and nil when r <= 0. *)
Theorem Init_fresh (promise : Promise.T) (key : Point) :
  (Promise.n promise < 0 ->
   PromiseState.Init promise = Panic "makeslice: len out of range")
  /\ (0 <= Promise.n promise ->
      exists ps,
        PromiseState.Init promise = Ret ps
        /\ PromiseState.Promise ps = promise
        /\ slotsAllocated ps
        /\ (forall i, (i < Z.to_nat (Promise.n promise))%nat ->
              nth_error (PromiseState.signatures ps) i = Some None
              /\ nth_error (PromiseState.blames ps) i = Some None)
        /\ PromiseState.PromiseCertified ps key
           = match Promise.VerifyPromise promise key with
             | Ret _ => if 0 <? Promise.r promise
                        then Err InsufficientSignatures else Ret tt
             | Err e => Err e
             | Panic m => Panic m
             end).
Proof.
  split.
  - intros Hn. unfold PromiseState.Init.
    now replace (Promise.n promise <? 0) with true
      by (symmetry; apply Z.ltb_lt; lia).
  - intros Hn.
    destruct (PromiseState.Init promise) as [ps| |] eqn:E;
      unfold PromiseState.Init in E;
      replace (Promise.n promise <? 0) with false in E
        by (symmetry; apply Z.ltb_ge; lia);
      try discriminate.
    assert (E' := E). injection E' as E'.
    destruct (Init_allocated promise ps) as [Hp Hal].
    { unfold PromiseState.Init.
      now replace (Promise.n promise <? 0) with false
        by (symmetry; apply Z.ltb_ge; lia). }
    assert (Hslots : forall i, (i < Z.to_nat (Promise.n promise))%nat ->
              nth_error (PromiseState.signatures ps) i = Some None
              /\ nth_error (PromiseState.blames ps) i = Some None).
    { intros i Hi. subst ps. cbn [PromiseState.signatures
                                   PromiseState.blames].
      split; (rewrite nth_error_repeat; [reflexivity|assumption]). }
    exists ps. repeat split; try assumption; try apply Hal;
      try (apply Hslots; assumption).
    rewrite (PromiseCertified_eq ps key Hal). cbv zeta. rewrite Hp.
    destruct (Promise.VerifyPromise promise key); try reflexivity.
    rewrite existsb_false_on.
    2:{ intros i Hi. apply indices_In in Hi. unfold validBlameAt.
        rewrite (proj2 (Hslots (Z.to_nat i) ltac:(lia))). reflexivity. }
    rewrite (validSignatures_prefix ps 0).
    + reflexivity.
    + rewrite Hp. lia.
    + rewrite Hp. intros i Hi. unfold validSignatureAt.
      rewrite (proj1 (Hslots (Z.to_nat i) ltac:(lia))).
      symmetry. apply Z.ltb_ge. lia.
Qed.

End StateScenarios.

(** ** Endorsing a promise: the loop of the certification test *)

Section Endorsement.
Context `{G : Group} {PL : poly.Lib} {AL : anon.Lib} {ZL : proof.Lib}.
Context {GL : GroupLaws} {PLaws : PolyLaws} {ALaws : AnonLaws}
        {ZLaws : ProofLaws}.

(** Blame makes no check of its own: it returns a proof for every index
    and key pair. *)
Lemma Blame_returns (p : Promise.T) (i : Z) (kp : config.KeyPair)
      (rand zkrand : Stream) :
  exists bp, Promise.Blame p i kp rand zkrand = Ret bp.
Proof.
  destruct (HashProve_complete (Promise.shareSuite p) protocolName zkrand
              (config.Secret kp) (Promise.pubKey p)) as [prf [Hprove _]].
  unfold Promise.Blame. rewrite Hprove. cbn [bind]. eexists; reflexivity.
Qed.

(** The slots after the loop: the insurers i, i + 1, ... of [kps] hold
    their signature and their blame proof, the other slots are as
    before. *)
Lemma endorseLoop_slots (p : Promise.T) (rand zkrand : Stream)
      (kps : list config.KeyPair) :
  forall (i : Z) (ps : PromiseState.T),
    0 <= i -> i + Go.len kps <= Promise.n p ->
    PromiseState.Promise ps = p -> slotsAllocated ps ->
    exists ps',
      PromiseTest.endorseLoop p ps kps i rand zkrand = Ret ps'
      /\ PromiseState.Promise ps' = p
      /\ slotsAllocated ps'
      /\ (forall j kp,
            nth_error kps j = Some kp ->
            nth_error (PromiseState.signatures ps') (Z.to_nat i + j)
            = Some (Some (Promise.Sign p (i + Z.of_nat j) kp rand))
            /\ exists bp,
                 Promise.Blame p (i + Z.of_nat j) kp rand zkrand = Ret bp
                 /\ nth_error (PromiseState.blames ps') (Z.to_nat i + j)
                    = Some (Some bp))
      /\ (forall j,
            (j < Z.to_nat i \/ Z.to_nat i + List.length kps <= j)%nat ->
            nth_error (PromiseState.signatures ps') j
            = nth_error (PromiseState.signatures ps) j
            /\ nth_error (PromiseState.blames ps') j
               = nth_error (PromiseState.blames ps) j).
Proof.
  induction kps as [|kp others IH]; intros i ps Hi Hlen Hp Hal.
  - exists ps. cbn [PromiseTest.endorseLoop].
    split; [reflexivity|]. split; [exact Hp|]. split; [exact Hal|].
    split.
    + intros j kp Hj. destruct j; discriminate.
    + intros j _. split; reflexivity.
  - assert (Hlen' : i + 1 + Go.len others <= Promise.n p).
    { unfold Go.len in *. cbn [List.length] in Hlen. lia. }
    assert (Hin : 0 <= i < Promise.n p).
    { unfold Go.len in *. cbn [List.length] in Hlen. lia. }
    destruct Hal as [Hs Hb]. rewrite Hp in Hs, Hb.
    cbn [PromiseTest.endorseLoop].
    unfold PromiseState.AddSignature.
    rewrite assign_ok by lia. cbn [bind].
    destruct (Blame_returns p i kp rand zkrand) as [bp Hbp].
    rewrite Hbp. unfold PromiseState.AddBlameProof.
    cbn [PromiseState.blames PromiseState.signatures
         PromiseState.Promise PromiseState.PriShares].
    rewrite assign_ok by lia. cbn [bind].
    match goal with
    | |- exists ps', PromiseTest.endorseLoop _ ?st _ _ _ _ = _ /\ _ =>
        set (ps2 := st)
    end.
    destruct (IH (i + 1) ps2) as [ps' [Hrun [Hp' [Hal' [Hin' Hout']]]]];
      [lia|exact Hlen'|subst ps2; exact Hp| |].
    { subst ps2. unfold slotsAllocated, Go.len in *.
      cbn [PromiseState.blames PromiseState.signatures
           PromiseState.Promise].
      rewrite !set_nth_length, Hp. split; assumption. }
    exists ps'. split; [exact Hrun|]. split; [exact Hp'|].
    split; [exact Hal'|]. split.
    + intros j kpj Hj. destruct j as [|j].
      * injection Hj as <-.
        destruct (Hout' (Z.to_nat i)) as [Es Eb]; [lia|].
        rewrite Nat.add_0_r, Z.add_0_r. rewrite Es, Eb. subst ps2.
        cbn [PromiseState.blames PromiseState.signatures].
        unfold Go.len in Hs, Hb.
        rewrite !set_nth_same by lia.
        split; [reflexivity|]. exists bp. split; [exact Hbp|reflexivity].
      * cbn [nth_error] in Hj. destruct (Hin' j kpj Hj) as [Es Eb].
        replace (Z.to_nat i + S j)%nat with (Z.to_nat (i + 1) + j)%nat
          by lia.
        replace (i + Z.of_nat (S j)) with (i + 1 + Z.of_nat j) by lia.
        split; assumption.
    + intros j Hj. cbn [List.length] in Hj.
      destruct (Hout' j) as [Es Eb]; [lia|].
      rewrite Es, Eb. subst ps2.
      cbn [PromiseState.blames PromiseState.signatures].
      rewrite !set_nth_other by lia. split; reflexivity.
Qed.

(** The state reached by the loop of the test from a fresh state. *)
Lemma endorsed_state (p : Promise.T) (key : Point)
      (kps : list config.KeyPair) (rand zkrand : Stream) :
  Promise.VerifyPromise p key = Ret tt ->
  (forall j kp,
     nth_error kps j = Some kp ->
     honestKey (config.Suite kp) kp
     /\ nth_error (Promise.insurers p) j = Some (config.Public kp)) ->
  Go.len kps <= Promise.n p
  /\ exists ps0 ps,
       PromiseState.Init p = Ret ps0
       /\ PromiseTest.endorseLoop p ps0 kps 0 rand zkrand = Ret ps
       /\ PromiseState.Promise ps = p
       /\ slotsAllocated ps
       /\ (forall i, 0 <= i < Promise.n p ->
             validSignatureAt ps i = (i <? Go.len kps))
       /\ (forall i, 0 <= i < Promise.n p ->
             validBlameAt ps i
             = match nth_error kps (Z.to_nat i) with
               | Some kp => negb (is_nil (Promise.VerifyShare p i kp))
               | None => false
               end).
Proof.
  intros Hver Hkeys.
  assert (Harr := VerifyPromise_arrays p key Hver).
  assert (Hlen : Go.len kps <= Promise.n p).
  { destruct Harr as [<- _]. unfold Go.len.
    destruct (le_lt_dec (List.length kps)
                (List.length (Promise.insurers p))) as [Hle|Hgt]; [lia|].
    destruct (nth_error kps (List.length (Promise.insurers p)))
      as [kp|] eqn:Hk.
    - destruct (Hkeys _ _ Hk) as [_ Hin].
      assert (H : nth_error (Promise.insurers p)
                    (List.length (Promise.insurers p)) = None)
        by (apply nth_error_None; lia).
      congruence.
    - apply nth_error_None in Hk. lia. }
  split; [exact Hlen|].
  assert (Hn : 0 <= Promise.n p)
    by (pose proof (GoFacts.len_nonneg kps); lia).
  destruct (PromiseState.Init p) as [ps0| |] eqn:E0;
    unfold PromiseState.Init in E0;
    replace (Promise.n p <? 0) with false in E0
      by (symmetry; apply Z.ltb_ge; lia);
    try discriminate.
  assert (Hinit : PromiseState.Init p = Ret ps0).
  { unfold PromiseState.Init.
    now replace (Promise.n p <? 0) with false
      by (symmetry; apply Z.ltb_ge; lia). }
  destruct (Init_allocated p ps0 Hinit) as [Hp0 Hal0].
  destruct (endorseLoop_slots p rand zkrand kps 0 ps0)
    as [ps [Hrun [Hp [Hal [Hin Hout]]]]]; try assumption; try lia.
  exists ps0, ps. split; [reflexivity|]. split; [exact Hrun|].
  split; [exact Hp|]. split; [exact Hal|].
  assert (Hfresh : forall j, (j < Z.to_nat (Promise.n p))%nat ->
            nth_error (PromiseState.signatures ps0) j = Some None
            /\ nth_error (PromiseState.blames ps0) j = Some None).
  { intros j Hj. injection E0 as <-.
    cbn [PromiseState.signatures PromiseState.blames].
    split; (rewrite nth_error_repeat; [reflexivity|assumption]). }
  split.
  - intros i Hi. unfold validSignatureAt. rewrite Hp.
    destruct (nth_error kps (Z.to_nat i)) as [kp|] eqn:Hk.
    + destruct (Hin _ _ Hk) as [Es _]. destruct (Hkeys _ _ Hk) as [Hh Hi'].
      cbn [Z.to_nat Nat.add] in Es. rewrite Es.
      rewrite Z.add_0_l, Z2Nat.id by lia.
      unfold Promise.VerifySignature, Promise.Sign.
      rewrite verifySignature_sign by assumption. cbn [is_nil].
      symmetry. apply Z.ltb_lt.
      assert (H : (Z.to_nat i < List.length kps)%nat)
        by (apply nth_error_Some; congruence).
      unfold Go.len. lia.
    + apply nth_error_None in Hk.
      destruct (Hout (Z.to_nat i)) as [Es _]; [cbn; lia|].
      rewrite Es, (proj1 (Hfresh (Z.to_nat i) ltac:(lia))).
      symmetry. apply Z.ltb_ge. unfold Go.len. lia.
  - intros i Hi. unfold validBlameAt. rewrite Hp.
    destruct (nth_error kps (Z.to_nat i)) as [kp|] eqn:Hk.
    + destruct (Hin _ _ Hk) as [_ [bp [Hbp Eb]]].
      destruct (Hkeys _ _ Hk) as [Hh Hi'].
      cbn [Z.to_nat Nat.add] in Eb. rewrite Eb.
      rewrite Z.add_0_l, Z2Nat.id in Hbp by lia.
      destruct (share_or_blame p i kp rand zkrand Harr Hi Hi' Hh)
        as [bp' [share [Hbp' [_ Hcase]]]].
      assert (E : bp' = bp) by congruence. subst bp'.
      destruct (PubPoly_Check (Promise.pubPoly p) i share);
        destruct Hcase as [-> ->]; reflexivity.
    + apply nth_error_None in Hk.
      destruct (Hout (Z.to_nat i)) as [_ Eb]; [cbn; lia|].
      now rewrite Eb, (proj2 (Hfresh (Z.to_nat i) ltac:(lia))).
Qed.

(** X10. The certification threshold. Start from a fresh state of a
    promise that passes VerifyPromise and let the first k insurers, each
    holding the key recorded at its index, add their signature and their
    blame proof as the loop of the test does. If the share of each of
    them verifies, PromiseCertified returns nil when k >= r and the
    not-enough-signatures error when k < r: the unjustified blames do not
    change the result. *)
Theorem certified_after_r_signatures (p : Promise.T) (key : Point)
        (kps : list config.KeyPair) (rand zkrand : Stream) :
  Promise.VerifyPromise p key = Ret tt ->
  (forall j kp,
     nth_error kps j = Some kp ->
     honestKey (config.Suite kp) kp
     /\ nth_error (Promise.insurers p) j = Some (config.Public kp)
     /\ Promise.VerifyShare p (Z.of_nat j) kp = Ret tt) ->
  exists ps0 ps,
    PromiseState.Init p = Ret ps0
    /\ PromiseTest.endorseLoop p ps0 kps 0 rand zkrand = Ret ps
    /\ PromiseState.PromiseCertified ps key
       = if Go.len kps <? Promise.r p
         then Err InsufficientSignatures else Ret tt.
Proof.
  intros Hver Hkeys.
  destruct (endorsed_state p key kps rand zkrand Hver)
    as [Hlen [ps0 [ps [Hinit [Hrun [Hp [Hal [Hsig Hbl]]]]]]]].
  { intros j kp Hk. destruct (Hkeys j kp Hk) as [H1 [H2 _]]. now split. }
  exists ps0, ps. split; [exact Hinit|]. split; [exact Hrun|].
  rewrite (PromiseCertified_eq ps key Hal). cbv zeta. rewrite Hp, Hver.
  rewrite existsb_false_on.
  2:{ intros i Hi. apply indices_In in Hi. rewrite Hbl by assumption.
      destruct (nth_error kps (Z.to_nat i)) as [kp|] eqn:Hk;
        [|reflexivity].
      destruct (Hkeys _ _ Hk) as [_ [_ Hs]].
      rewrite Z2Nat.id in Hs by lia. now rewrite Hs. }
  rewrite (validSignatures_prefix ps (Go.len kps)).
  - reflexivity.
  - rewrite Hp. pose proof (GoFacts.len_nonneg kps). lia.
  - rewrite Hp. exact Hsig.
Qed.

(** X11. Repudiation. In the same loop, if the share of one of the
    endorsing insurers fails its verification with the bad-share error,
    PromiseCertified returns the repudiation error, however many
    signatures were added. *)
Theorem repudiated_by_one_bad_share (p : Promise.T) (key : Point)
        (kps : list config.KeyPair) (rand zkrand : Stream)
        (j : nat) (kpj : config.KeyPair) :
  Promise.VerifyPromise p key = Ret tt ->
  (forall j kp,
     nth_error kps j = Some kp ->
     honestKey (config.Suite kp) kp
     /\ nth_error (Promise.insurers p) j = Some (config.Public kp)) ->
  nth_error kps j = Some kpj ->
  Promise.VerifyShare p (Z.of_nat j) kpj = Err BadShare ->
  exists ps0 ps,
    PromiseState.Init p = Ret ps0
    /\ PromiseTest.endorseLoop p ps0 kps 0 rand zkrand = Ret ps
    /\ PromiseState.PromiseCertified ps key = Err PromiseRepudiated.
Proof.
  intros Hver Hkeys Hj Hbad.
  destruct (endorsed_state p key kps rand zkrand Hver Hkeys)
    as [Hlen [ps0 [ps [Hinit [Hrun [Hp [Hal [Hsig Hbl]]]]]]]].
  exists ps0, ps. split; [exact Hinit|]. split; [exact Hrun|].
  rewrite (PromiseCertified_eq ps key Hal). cbv zeta. rewrite Hp, Hver.
  assert (Hjlen : (j < List.length kps)%nat)
    by (apply nth_error_Some; congruence).
  replace (existsb (validBlameAt ps) (indices (Promise.n p))) with true;
    [reflexivity|].
  symmetry. apply existsb_exists. exists (Z.of_nat j). split.
  - apply indices_In. unfold Go.len in Hlen. lia.
  - rewrite Hbl by (unfold Go.len in Hlen; lia).
    rewrite Nat2Z.id, Hj, Hbad. reflexivity.
Qed.

End Endorsement.

(** ** Reading from and writing to streams *)

Module StreamFacts.

Lemma ReadFull_enough (r : io.Reader) (buf : list byte) :
  (List.length buf <= List.length (io.pending r))%nat ->
  io.ReadFull r buf
  = {| io.data := firstn (List.length buf) (io.pending r);
       io.n := Z.of_nat (List.length buf); io.err := None;
       io.after := {| io.pending :=
                        skipn (List.length buf) (io.pending r);
                      io.failure := io.failure r |} |}.
Proof.
  intros H. unfold io.ReadFull.
  now replace (List.length buf <=? List.length (io.pending r))%nat
    with true by (symmetry; apply Nat.leb_le; lia).
Qed.

Lemma ReadFull_short (r : io.Reader) (buf : list byte) :
  (List.length (io.pending r) < List.length buf)%nat ->
  io.ReadFull r buf
  = {| io.data := io.pending r
                  ++ skipn (List.length (io.pending r)) buf;
       io.n := Z.of_nat (List.length (io.pending r));
       io.err := Some (io.shortError r);
       io.after := {| io.pending := []; io.failure := io.failure r |} |}.
Proof.
  intros H. unfold io.ReadFull.
  now replace (List.length buf <=? List.length (io.pending r))%nat
    with false by (symmetry; apply Nat.leb_gt; lia).
Qed.

(** The header: [buf := make([]byte, k); n, err := io.ReadFull(r, buf)]. *)
Lemma header_enough (r : io.Reader) (k : Z) :
  0 <= k <= Go.len (io.pending r) ->
  io.ReadFull r (Go.zeros k)
  = {| io.data := firstn (Z.to_nat k) (io.pending r);
       io.n := k; io.err := None;
       io.after := {| io.pending := skipn (Z.to_nat k) (io.pending r);
                      io.failure := io.failure r |} |}.
Proof.
  intros Hk. unfold Go.len in Hk.
  rewrite ReadFull_enough; rewrite CodecFacts.zeros_length; try lia.
  now rewrite Z2Nat.id by lia.
Qed.

Lemma header_short (r : io.Reader) (k : Z) :
  Go.len (io.pending r) < k ->
  io.n (io.ReadFull r (Go.zeros k)) = Go.len (io.pending r)
  /\ io.err (io.ReadFull r (Go.zeros k)) = Some (io.shortError r)
  /\ io.after (io.ReadFull r (Go.zeros k))
     = {| io.pending := []; io.failure := io.failure r |}.
Proof.
  intros Hk. unfold Go.len in Hk.
  rewrite ReadFull_short by (rewrite CodecFacts.zeros_length; lia).
  repeat split.
Qed.

(** The body: [finalBuf := make([]byte, total); copy(finalBuf, hd);
    m, err2 := io.ReadFull(r, finalBuf[len(hd):])]. *)
Lemma body_enough (r : io.Reader) (hd : list byte) (total off : Z) :
  Go.len hd = off -> Go.len hd <= total ->
  total - Go.len hd <= Go.len (io.pending r) ->
  io.ReadFull_at r (Go.copy (Go.zeros total) hd) off
  = Ret {| io.data :=
             hd ++ firstn (Z.to_nat (total - Go.len hd)) (io.pending r);
           io.n := total - Go.len hd; io.err := None;
           io.after :=
             {| io.pending :=
                  skipn (Z.to_nat (total - Go.len hd)) (io.pending r);
                io.failure := io.failure r |} |}.
Proof.
  intros <- Hhd Hb. pose proof (GoFacts.len_nonneg hd) as H0.
  assert (E : Go.zeros total
              = Go.zeros (Go.len hd) ++ Go.zeros (total - Go.len hd))
    by (rewrite <- CodecFacts.zeros_add by lia; f_equal; lia).
  rewrite E.
  rewrite GoFacts.copy_fill
    by (rewrite CodecFacts.zeros_length; unfold Go.len; lia).
  unfold io.ReadFull_at.
  rewrite (GoFacts.slice_from_app hd) by reflexivity. cbn [bind].
  rewrite header_enough by lia. cbn [io.data io.n io.err io.after].
  unfold Go.len at 1. rewrite Nat2Z.id, firstn_app, firstn_all.
  now rewrite Nat.sub_diag, firstn_0, app_nil_r.
Qed.

Lemma body_short (r : io.Reader) (hd : list byte) (total off : Z) :
  Go.len hd = off -> Go.len hd <= total ->
  Go.len (io.pending r) < total - Go.len hd ->
  exists rd,
    io.ReadFull_at r (Go.copy (Go.zeros total) hd) off = Ret rd
    /\ io.n rd = Go.len (io.pending r)
    /\ io.err rd = Some (io.shortError r)
    /\ io.after rd = {| io.pending := []; io.failure := io.failure r |}.
Proof.
  intros <- Hhd Hb. pose proof (GoFacts.len_nonneg hd) as H0.
  assert (E : Go.zeros total
              = Go.zeros (Go.len hd) ++ Go.zeros (total - Go.len hd))
    by (rewrite <- CodecFacts.zeros_add by lia; f_equal; lia).
  rewrite E.
  rewrite GoFacts.copy_fill
    by (rewrite CodecFacts.zeros_length; unfold Go.len; lia).
  unfold io.ReadFull_at.
  rewrite (GoFacts.slice_from_app hd) by reflexivity. cbn [bind].
  eexists. split; [reflexivity|]. cbn [io.n io.err io.after].
  apply header_short. lia.
Qed.

Lemma firstn_firstn_skipn {A : Type} (l : list A) (a b : nat) :
  firstn a l ++ firstn b (skipn a l) = firstn (a + b) l.
Proof.
  revert l; induction a as [|a IH]; intros l; [reflexivity|].
  destruct l as [|x l]; [now rewrite !firstn_nil|].
  simpl. f_equal. apply IH.
Qed.

Lemma skipn_skipn' {A : Type} (l : list A) (a b : nat) :
  skipn b (skipn a l) = skipn (a + b) l.
Proof.
  revert l; induction a as [|a IH]; intros l; [reflexivity|].
  destruct l as [|x l]; [now rewrite !skipn_nil|].
  simpl. apply IH.
Qed.

Lemma len_firstn {A : Type} (l : list A) (k : Z) :
  0 <= k <= Go.len l -> Go.len (firstn (Z.to_nat k) l) = k.
Proof.
  intros Hk. unfold Go.len in *. rewrite length_firstn. lia.
Qed.

Lemma len_skipn {A : Type} (l : list A) (k : Z) :
  0 <= k <= Go.len l -> Go.len (skipn (Z.to_nat k) l) = Go.len l - k.
Proof.
  intros Hk. unfold Go.len in *. rewrite length_skipn. lia.
Qed.

(** The two reads of a message of [total] bytes whose header has [k]
    bytes deliver the first [total] bytes of the stream. *)
Lemma message_enough (r : io.Reader) (k total : Z) :
  0 <= k <= total -> total <= Go.len (io.pending r) ->
  io.ReadFull_at (io.after (io.ReadFull r (Go.zeros k)))
    (Go.copy (Go.zeros total) (io.data (io.ReadFull r (Go.zeros k))))
    (io.n (io.ReadFull r (Go.zeros k)))
  = Ret {| io.data := firstn (Z.to_nat total) (io.pending r);
           io.n := total - k; io.err := None;
           io.after :=
             {| io.pending := skipn (Z.to_nat total) (io.pending r);
                io.failure := io.failure r |} |}.
Proof.
  intros Hk Ht. rewrite header_enough by lia.
  cbn [io.data io.n io.err io.after].
  set (hd := firstn (Z.to_nat k) (io.pending r)).
  assert (Hhd : Go.len hd = k) by (apply len_firstn; lia).
  rewrite (body_enough _ hd total k Hhd); cbn [io.pending io.failure].
  - rewrite Hhd. subst hd.
    rewrite firstn_firstn_skipn, skipn_skipn'.
    now replace (Z.to_nat k + Z.to_nat (total - k))%nat
      with (Z.to_nat total) by lia.
  - lia.
  - rewrite Hhd, len_skipn by lia. lia.
Qed.

Lemma message_short (r : io.Reader) (k total : Z) :
  0 <= k <= Go.len (io.pending r) -> Go.len (io.pending r) < total ->
  exists rd,
    io.ReadFull_at (io.after (io.ReadFull r (Go.zeros k)))
      (Go.copy (Go.zeros total) (io.data (io.ReadFull r (Go.zeros k))))
      (io.n (io.ReadFull r (Go.zeros k)))
    = Ret rd
    /\ io.n rd = Go.len (io.pending r) - k
    /\ io.err rd
       = Some (io.shortError
                 {| io.pending := skipn (Z.to_nat k) (io.pending r);
                    io.failure := io.failure r |})
    /\ io.after rd = {| io.pending := []; io.failure := io.failure r |}.
Proof.
  intros Hk Ht. rewrite header_enough by lia.
  cbn [io.data io.n io.err io.after].
  set (hd := firstn (Z.to_nat k) (io.pending r)).
  assert (Hhd : Go.len hd = k) by (apply len_firstn; lia).
  destruct (body_short
              {| io.pending := skipn (Z.to_nat k) (io.pending r);
                 io.failure := io.failure r |} hd total k)
    as [rd [Hrd [Hn [He Ha]]]]; cbn [io.pending io.failure] in *.
  - exact Hhd.
  - lia.
  - rewrite Hhd, len_skipn by lia. lia.
  - exists rd. split; [exact Hrd|]. rewrite Hn, len_skipn by lia.
    repeat split; assumption.
Qed.

End StreamFacts.

Section StreamDecoding.
Context `{G : Group} {PL : poly.Lib} {AL : anon.Lib} {ZL : proof.Lib}.
Context {GL : GroupLaws} {PLaws : PolyLaws}.

Lemma Uint32_prefix (l l' : list byte) :
  firstn 4 l = firstn 4 l' -> Go.Uint32 l = Go.Uint32 l'.
Proof.
  intros H.
  destruct l as [|a0 [|a1 [|a2 [|a3 l]]]];
    destruct l' as [|c0 [|c1 [|c2 [|c3 l']]]];
    cbn [firstn] in H; try discriminate; try reflexivity.
  injection H as -> -> -> ->. reflexivity.
Qed.

Lemma Uint32_at_skipn (buf : list byte) (off : Z) :
  0 <= off <= Go.len buf ->
  Go.Uint32_at buf off = Go.Uint32 (skipn (Z.to_nat off) buf).
Proof.
  intros Hoff. unfold Go.Uint32_at.
  rewrite <- (firstn_skipn (Z.to_nat off) buf) at 1.
  rewrite (GoFacts.slice_from_app (firstn (Z.to_nat off) buf));
    [reflexivity|apply StreamFacts.len_firstn; lia].
Qed.

(** Reading a 32-bit field from a prefix of the buffer that contains
    it. *)
Lemma Uint32_at_firstn (buf : list byte) (k off : Z) :
  0 <= off -> off + 4 <= k -> k <= Go.len buf ->
  Go.Uint32_at (firstn (Z.to_nat k) buf) off = Go.Uint32_at buf off.
Proof.
  intros Hoff Hk Hlen.
  rewrite !Uint32_at_skipn
    by (try rewrite StreamFacts.len_firstn; lia).
  apply Uint32_prefix.
  rewrite skipn_firstn_comm, firstn_firstn. f_equal. lia.
Qed.

Lemma Uint32_at_app (buf more : list byte) (off : Z) :
  0 <= off -> off + 4 <= Go.len buf ->
  Go.Uint32_at (buf ++ more) off = Go.Uint32_at buf off.
Proof.
  intros Hoff Hlen.
  rewrite <- (Uint32_at_firstn (buf ++ more) (Go.len buf) off);
    [|lia|lia|rewrite GoFacts.len_app;
              pose proof (GoFacts.len_nonneg more); lia].
  unfold Go.len at 1. rewrite Nat2Z.id.
  now rewrite firstn_app, Nat.sub_diag, firstn_0, firstn_all, app_nil_r.
Qed.

Lemma Uint32_at_Ret_len (buf : list byte) (off v : Z) :
  Go.Uint32_at buf off = Ret v -> 0 <= off /\ off + 4 <= Go.len buf.
Proof.
  intros H.
  destruct (Z_lt_ge_dec off 0) as [Hneg|Hpos].
  { unfold Go.Uint32_at, Go.slice_from, Go.slice in H.
    replace (off <? 0) with true in H by (symmetry; apply Z.ltb_lt; lia).
    discriminate. }
  destruct (Z_lt_ge_dec (Go.len buf) off) as [Hbig|Hin].
  { unfold Go.Uint32_at, Go.slice_from, Go.slice in H.
    replace (Go.len buf <? off) with true in H
      by (symmetry; apply Z.ltb_lt; lia).
    rewrite orb_true_r in H. discriminate. }
  split; [lia|].
  rewrite Uint32_at_skipn in H by lia.
  destruct (Z_lt_ge_dec (Go.len (skipn (Z.to_nat off) buf)) 4)
    as [Hshort|Hok].
  - rewrite CodecFacts.Uint32_short in H by assumption. discriminate.
  - rewrite StreamFacts.len_skipn in Hok by lia. lia.
Qed.

(** ** PromiseSignature *)

Lemma PromiseSignature_UnmarshalFrom_cases (p : PromiseSignature.T)
      (r : io.Reader) :
  let avail := io.pending r in
  let drained := {| io.pending := []; io.failure := io.failure r |} in
  (Go.len avail < uint32Size ->
   PromiseSignature.UnmarshalFrom p r
   = Ret {| io.read := Go.len avail;
            io.outcome := Err (io.shortError r);
            io.rest := drained |})
  /\ (forall sigLen,
        Go.Uint32_at avail 0 = Ret sigLen ->
        (Go.len avail < uint32Size + sigLen ->
         PromiseSignature.UnmarshalFrom p r
         = Ret {| io.read := Go.len avail;
                  io.outcome :=
                    Err (io.shortError
                           {| io.pending :=
                                skipn (Z.to_nat uint32Size) avail;
                              io.failure := io.failure r |});
                  io.rest := drained |})
        /\ (uint32Size + sigLen <= Go.len avail ->
            PromiseSignature.UnmarshalFrom p r
            = Ret {| io.read := uint32Size + sigLen;
                     io.outcome :=
                       PromiseSignature.UnmarshalBinary p
                         (firstn (Z.to_nat (uint32Size + sigLen)) avail);
                     io.rest :=
                       {| io.pending :=
                            skipn (Z.to_nat (uint32Size + sigLen)) avail;
                          io.failure := io.failure r |} |})).
Proof.
  intros avail drained. split.
  - intros Hshort. unfold PromiseSignature.UnmarshalFrom.
    rewrite CodecFacts.make_zeros by (unfold uint32Size; lia).
    cbn [bind]. cbv zeta.
    destruct (StreamFacts.header_short r uint32Size Hshort)
      as [Hn [He Ha]].
    now rewrite He, Hn, Ha.
  - intros sigLen Hsig.
    destruct (Uint32_at_Ret_len _ _ _ Hsig) as [_ Hhdr].
    assert (Hrange : 0 <= sigLen < 2 ^ 32).
    { rewrite CodecFacts.Uint32_at_0 in Hsig.
      exact (GoFacts.Uint32_range _ _ Hsig). }
    assert (Hk : 0 <= uint32Size <= Go.len (io.pending r))
      by (fold avail; unfold uint32Size in *; lia).
    assert (Hlen : Go.Uint32_at
                     (io.data (io.ReadFull r (Go.zeros uint32Size))) 0
                   = Ret sigLen).
    { rewrite StreamFacts.header_enough by exact Hk. cbn [io.data].
      rewrite Uint32_at_firstn; [exact Hsig|unfold uint32Size in *; lia..]. }
    assert (Herr : io.err (io.ReadFull r (Go.zeros uint32Size)) = None)
      by now rewrite StreamFacts.header_enough.
    assert (Hn : io.n (io.ReadFull r (Go.zeros uint32Size)) = uint32Size)
      by now rewrite StreamFacts.header_enough.
    split.
    + intros Hshort. unfold PromiseSignature.UnmarshalFrom.
      rewrite CodecFacts.make_zeros by (unfold uint32Size; lia).
      cbn [bind]. cbv zeta. rewrite Herr, Hlen. cbn [bind].
      rewrite CodecFacts.make_zeros by (unfold uint32Size; lia).
      cbn [bind].
      destruct (StreamFacts.message_short r uint32Size
                  (uint32Size + sigLen))
        as [rd [Hrd [Hm [He Ha]]]]; [exact Hk|exact Hshort|].
      rewrite Hrd. cbn [bind]. rewrite He, Hn, Hm, Ha.
      fold avail. fold drained. do 3 f_equal. lia.
    + intros Hfull. unfold PromiseSignature.UnmarshalFrom.
      rewrite CodecFacts.make_zeros by (unfold uint32Size; lia).
      cbn [bind]. cbv zeta. rewrite Herr, Hlen. cbn [bind].
      rewrite CodecFacts.make_zeros by (unfold uint32Size; lia).
      cbn [bind].
      rewrite StreamFacts.message_enough by (fold avail; lia).
      cbn [bind io.err io.n io.data io.after]. rewrite Hn.
      fold avail.
      pose proof (PromiseSignature_Unmarshal_no_panic p
                    (firstn (Z.to_nat (uint32Size + sigLen)) avail)) as Hnp.
      unfold io.returning.
      destruct (PromiseSignature.UnmarshalBinary p _);
        [| |destruct Hnp]; do 2 f_equal; lia.
Qed.

(** ** BlameProof *)

Lemma BlameProof_UnmarshalFrom_cases (s : Suite) (r : io.Reader) :
  let avail := io.pending r in
  let drained := {| io.pending := []; io.failure := io.failure r |} in
  (Go.len avail < 2 * uint32Size ->
   BlameProof.UnmarshalFrom s r
   = Ret {| io.read := Go.len avail;
            io.outcome := Err (io.shortError r);
            io.rest := drained |})
  /\ (forall proofLen sigLen,
        Go.Uint32_at avail 0 = Ret proofLen ->
        Go.Uint32_at avail uint32Size = Ret sigLen ->
        let total := 2 * uint32Size + PointLen s + proofLen + sigLen in
        (Go.len avail < total ->
         BlameProof.UnmarshalFrom s r
         = Ret {| io.read := Go.len avail;
                  io.outcome :=
                    Err (io.shortError
                           {| io.pending :=
                                skipn (Z.to_nat (2 * uint32Size)) avail;
                              io.failure := io.failure r |});
                  io.rest := drained |})
        /\ (total <= Go.len avail ->
            BlameProof.UnmarshalFrom s r
            = Ret {| io.read := total;
                     io.outcome :=
                       BlameProof.UnmarshalBinary s
                         (firstn (Z.to_nat total) avail);
                     io.rest :=
                       {| io.pending := skipn (Z.to_nat total) avail;
                          io.failure := io.failure r |} |})).
Proof.
  intros avail drained. split.
  - intros Hshort. unfold BlameProof.UnmarshalFrom.
    rewrite CodecFacts.make_zeros by (unfold uint32Size; lia).
    cbn [bind]. cbv zeta.
    destruct (StreamFacts.header_short r (2 * uint32Size) Hshort)
      as [Hn [He Ha]].
    now rewrite He, Hn, Ha.
  - intros proofLen sigLen Hprf Hsig total.
    destruct (Uint32_at_Ret_len _ _ _ Hsig) as [_ Hhdr].
    destruct (CodecFacts.Uint32_at_ok avail 0) as [v0 [Hv0 Hr0]];
      [lia|unfold uint32Size in Hhdr; lia|].
    destruct (CodecFacts.Uint32_at_ok avail uint32Size)
      as [v1 [Hv1 Hr1]];
      [unfold uint32Size; lia|unfold uint32Size in *; lia|].
    assert (v0 = proofLen) by congruence.
    assert (v1 = sigLen) by congruence. subst v0 v1.
    pose proof (PointLen_nonneg s) as Hpl.
    assert (Hk : 0 <= 2 * uint32Size <= Go.len (io.pending r))
      by (fold avail; unfold uint32Size in *; lia).
    assert (Hl0 : Go.Uint32_at
                    (io.data (io.ReadFull r (Go.zeros (2 * uint32Size))))
                    0 = Ret proofLen).
    { rewrite StreamFacts.header_enough by exact Hk. cbn [io.data].
      rewrite Uint32_at_firstn; [exact Hprf|unfold uint32Size in *; lia..]. }
    assert (Hl1 : Go.Uint32_at
                    (io.data (io.ReadFull r (Go.zeros (2 * uint32Size))))
                    uint32Size = Ret sigLen).
    { rewrite StreamFacts.header_enough by exact Hk. cbn [io.data].
      rewrite Uint32_at_firstn; [exact Hsig|unfold uint32Size in *; lia..]. }
    assert (Herr : io.err (io.ReadFull r (Go.zeros (2 * uint32Size)))
                   = None)
      by now rewrite StreamFacts.header_enough.
    assert (Hn : io.n (io.ReadFull r (Go.zeros (2 * uint32Size)))
                 = 2 * uint32Size)
      by now rewrite StreamFacts.header_enough.
    assert (Htot : 0 <= total) by (unfold total, uint32Size; lia).
    split.
    + intros Hshort. unfold BlameProof.UnmarshalFrom.
      rewrite CodecFacts.make_zeros by (unfold uint32Size; lia).
      cbn [bind]. cbv zeta. rewrite Herr, Hl0. cbn [bind].
      rewrite Hl1. cbn [bind]. fold total.
      rewrite CodecFacts.make_zeros by exact Htot.
      cbn [bind].
      destruct (StreamFacts.message_short r (2 * uint32Size) total)
        as [rd [Hrd [Hm [He Ha]]]]; [exact Hk|exact Hshort|].
      rewrite Hrd. cbn [bind]. rewrite He, Hn, Hm, Ha.
      fold avail. fold drained. do 3 f_equal. lia.
    + intros Hfull. unfold BlameProof.UnmarshalFrom.
      rewrite CodecFacts.make_zeros by (unfold uint32Size; lia).
      cbn [bind]. cbv zeta. rewrite Herr, Hl0. cbn [bind].
      rewrite Hl1. cbn [bind]. fold total.
      rewrite CodecFacts.make_zeros by exact Htot.
      cbn [bind].
      rewrite StreamFacts.message_enough
        by (fold avail; unfold total, uint32Size in *; lia).
      cbn [bind io.err io.n io.data io.after]. rewrite Hn.
      fold avail.
      pose proof (proj1 (BlameProof_Unmarshal_total s
                    (firstn (Z.to_nat total) avail))) as Hnp.
      unfold io.returning.
      destruct (BlameProof.UnmarshalBinary s _);
        [| |destruct Hnp]; do 2 f_equal; lia.
Qed.

(** ** Promise *)

Lemma Promise_UnmarshalFrom_cases (s : Suite) (r : io.Reader) :
  let avail := io.pending r in
  let drained := {| io.pending := []; io.failure := io.failure r |} in
  (Go.len avail < 2 * uint32Size ->
   Promise.UnmarshalFrom s r
   = Ret {| io.read := Go.len avail;
            io.outcome := Err (io.shortError r);
            io.rest := drained |})
  /\ (forall pn pt,
        Go.Uint32_at avail 0 = Ret pn ->
        Go.Uint32_at avail uint32Size = Ret pt ->
        let total :=
          3 * uint32Size + PointLen s
          + PubPoly_MarshalSize (PubPoly_Init s pt)
          + pn * PointLen s + pn * SecretLen s in
        2 * uint32Size <= total ->
        (Go.len avail < total ->
         Promise.UnmarshalFrom s r
         = Ret {| io.read := Go.len avail;
                  io.outcome :=
                    Err (io.shortError
                           {| io.pending :=
                                skipn (Z.to_nat (2 * uint32Size)) avail;
                              io.failure := io.failure r |});
                  io.rest := drained |})
        /\ (total <= Go.len avail ->
            Promise.UnmarshalFrom s r
            = io.returning total
                (Promise.UnmarshalBinary s (firstn (Z.to_nat total) avail))
                {| io.pending := skipn (Z.to_nat total) avail;
                   io.failure := io.failure r |})).
Proof.
  intros avail drained. split.
  - intros Hshort. unfold Promise.UnmarshalFrom.
    rewrite CodecFacts.make_zeros by (unfold uint32Size; lia).
    cbn [bind]. cbv zeta.
    destruct (StreamFacts.header_short r (2 * uint32Size) Hshort)
      as [Hn [He Ha]].
    now rewrite He, Hn, Ha.
  - intros pn pt Hpn Hpt total Htot.
    destruct (Uint32_at_Ret_len _ _ _ Hpt) as [_ Hhdr].
    assert (Hk : 0 <= 2 * uint32Size <= Go.len (io.pending r))
      by (fold avail; unfold uint32Size in *; lia).
    assert (Hl0 : Go.Uint32_at
                    (io.data (io.ReadFull r (Go.zeros (2 * uint32Size))))
                    0 = Ret pn).
    { rewrite StreamFacts.header_enough by exact Hk. cbn [io.data].
      rewrite Uint32_at_firstn; [exact Hpn|unfold uint32Size in *; lia..]. }
    assert (Hl1 : Go.Uint32_at
                    (io.data (io.ReadFull r (Go.zeros (2 * uint32Size))))
                    uint32Size = Ret pt).
    { rewrite StreamFacts.header_enough by exact Hk. cbn [io.data].
      rewrite Uint32_at_firstn; [exact Hpt|unfold uint32Size in *; lia..]. }
    assert (Herr : io.err (io.ReadFull r (Go.zeros (2 * uint32Size)))
                   = None)
      by now rewrite StreamFacts.header_enough.
    assert (Hn : io.n (io.ReadFull r (Go.zeros (2 * uint32Size)))
                 = 2 * uint32Size)
      by now rewrite StreamFacts.header_enough.
    split.
    + intros Hshort. unfold Promise.UnmarshalFrom.
      rewrite CodecFacts.make_zeros by (unfold uint32Size; lia).
      cbn [bind]. cbv zeta. rewrite Herr, Hl0. cbn [bind].
      rewrite Hl1. cbn [bind]. fold total.
      rewrite CodecFacts.make_zeros by (unfold uint32Size in *; lia).
      cbn [bind].
      destruct (StreamFacts.message_short r (2 * uint32Size) total)
        as [rd [Hrd [Hm [He Ha]]]]; [exact Hk|exact Hshort|].
      rewrite Hrd. cbn [bind]. rewrite He, Hn, Hm, Ha.
      fold avail. fold drained. do 3 f_equal. lia.
    + intros Hfull. unfold Promise.UnmarshalFrom.
      rewrite CodecFacts.make_zeros by (unfold uint32Size; lia).
      cbn [bind]. cbv zeta. rewrite Herr, Hl0. cbn [bind].
      rewrite Hl1. cbn [bind]. fold total.
      rewrite CodecFacts.make_zeros by (unfold uint32Size in *; lia).
      cbn [bind].
      rewrite StreamFacts.message_enough
        by (fold avail; unfold uint32Size in *; lia).
      cbn [bind io.err io.n io.data io.after]. rewrite Hn.
      fold avail. f_equal. lia.
Qed.

End StreamDecoding.

Section StreamRoundTrip.
Context `{G : Group} {PL : poly.Lib} {AL : anon.Lib} {ZL : proof.Lib}.
Context {GL : GroupLaws} {PLaws : PolyLaws}.

Lemma Ret_inj {A : Type} (a b : A) : @Ret A a = Ret b -> a = b.
Proof. congruence. Qed.

(** Writing to a writer that takes every byte. *)
Lemma writing_unbounded (c : result (list byte)) (buf : list byte)
      (w : io.Writer) :
  c = Ret buf -> io.room w = None ->
  io.writing c w
  = Ret {| io.count := Go.len buf; io.werr := None;
           io.wafter := {| io.written := io.written w ++ buf;
                           io.room := None;
                           io.shortWrite := io.shortWrite w |} |}.
Proof.
  intros -> Hroom. unfold io.writing, io.Write. now rewrite Hroom.
Qed.

Lemma firstn_len_prefix (buf more : list byte) :
  firstn (Z.to_nat (Go.len buf)) (buf ++ more) = buf.
Proof.
  unfold Go.len. rewrite Nat2Z.id.
  now rewrite firstn_app, Nat.sub_diag, firstn_0, firstn_all, app_nil_r.
Qed.

Lemma skipn_len_prefix (buf more : list byte) :
  skipn (Z.to_nat (Go.len buf)) (buf ++ more) = more.
Proof.
  unfold Go.len. rewrite Nat2Z.id.
  now rewrite skipn_app, Nat.sub_diag, skipn_all.
Qed.

(** The header of a buffer that Promise.UnmarshalBinary decodes. *)
Lemma Promise_Unmarshal_header (s : Suite) (buf : list byte)
      (x : Promise.T) :
  Promise.UnmarshalBinary s buf = Ret x ->
  Go.Uint32_at buf 0 = Ret (Promise.n x)
  /\ Go.Uint32_at buf uint32Size = Ret (Promise.t x).
Proof.
  unfold Promise.UnmarshalBinary. cbv zeta.
  destruct (Go.Uint32_at buf 0) as [pn| |]; cbn [bind]; try discriminate.
  destruct (Go.Uint32_at buf uint32Size) as [pt| |]; cbn [bind];
    try discriminate.
  destruct (Go.Uint32_at buf (2 * uint32Size)) as [pr| |]; cbn [bind];
    try discriminate.
  destruct (Go.slice buf _ _) as [keyBuf| |]; cbn [bind];
    try discriminate.
  destruct (Point_UnmarshalBinary s keyBuf) as [key| |]; cbn [bind];
    try discriminate.
  destruct (Go.slice buf _ _) as [polyBuf| |]; cbn [bind];
    try discriminate.
  destruct (PubPoly_UnmarshalBinary _ polyBuf) as [pub| |]; cbn [bind];
    try discriminate.
  destruct (Promise.unmarshalLoop (Point_UnmarshalBinary s) _ _ _ _ _)
    as [ins| |]; cbn [bind]; try discriminate.
  destruct (Promise.unmarshalLoop (Secret_UnmarshalBinary s) _ _ _ _ _)
    as [secs| |]; cbn [bind]; try discriminate.
  intros H. injection H as <-. split; reflexivity.
Qed.

(** X15. A populated PromiseSignature written by MarshalTo to a writer
    that takes every byte appends MarshalSize bytes and reports that
    count with a nil error; UnmarshalFrom on a stream that delivers these
    bytes first reads exactly MarshalSize bytes, rebuilds the signature
    and leaves the rest of the stream unread. *)
Theorem PromiseSignature_stream_roundtrip (x : PromiseSignature.T)
        (w : io.Writer) (more : list byte) (f : error) :
  populatedSignature x -> io.room w = None ->
  exists buf wr,
    PromiseSignature.MarshalTo x w = Ret wr
    /\ io.count wr = PromiseSignature.MarshalSize x
    /\ io.werr wr = None
    /\ io.written (io.wafter wr) = io.written w ++ buf
    /\ PromiseSignature.UnmarshalFrom
         (PromiseSignature.UnmarshalInit (PromiseSignature.suite x))
         {| io.pending := buf ++ more; io.failure := f |}
       = Ret {| io.read := PromiseSignature.MarshalSize x;
                io.outcome := Ret x;
                io.rest := {| io.pending := more; io.failure := f |} |}.
Proof.
  intros Hpop Hroom.
  destruct (PromiseSignature_roundtrip x Hpop) as [buf [Hm [Hsize Hun]]].
  exists buf. eexists. split.
  { unfold PromiseSignature.MarshalTo.
    apply (writing_unbounded _ buf); assumption. }
  cbn [io.count io.werr io.wafter io.written].
  split; [now rewrite Hsize|]. split; [reflexivity|].
  split; [reflexivity|].
  destruct Hpop as [l [Hl Hlen]].
  assert (Hbuf : buf = Go.le32 (Go.len l) ++ l).
  { rewrite PromiseSignature_Marshal_eq in Hm. rewrite Hl in Hm.
    unfold Go.blen in Hm. cbn [Go.data] in Hm.
    rewrite GoFacts.uint32_small in Hm
      by (pose proof (GoFacts.len_nonneg l); lia).
    congruence. }
  assert (Hms : PromiseSignature.MarshalSize x = uint32Size + Go.len l).
  { unfold PromiseSignature.MarshalSize. now rewrite Hl. }
  assert (Hsig : Go.Uint32_at (buf ++ more) 0 = Ret (Go.len l)).
  { rewrite Hbuf, <- app_assoc.
    apply FillFacts.Uint32_first.
    pose proof (GoFacts.len_nonneg l); lia. }
  destruct (PromiseSignature_UnmarshalFrom_cases
              (PromiseSignature.UnmarshalInit (PromiseSignature.suite x))
              {| io.pending := buf ++ more; io.failure := f |})
    as [_ Hcases].
  cbn [io.pending io.failure] in Hcases.
  destruct (Hcases (Go.len l) Hsig) as [_ Hfull].
  rewrite Hfull.
  - rewrite <- Hms, Hsize, firstn_len_prefix, skipn_len_prefix, Hun.
    reflexivity.
  - rewrite <- Hms, Hsize, GoFacts.len_app.
    pose proof (GoFacts.len_nonneg more). lia.
Qed.

(** X16. The same for a populated BlameProof. *)
Theorem BlameProof_stream_roundtrip (x : BlameProof.T)
        (w : io.Writer) (more : list byte) (f : error) :
  populatedBlame x -> io.room w = None ->
  exists buf wr,
    BlameProof.MarshalTo x w = Ret wr
    /\ io.count wr = BlameProof.MarshalSize x
    /\ io.werr wr = None
    /\ io.written (io.wafter wr) = io.written w ++ buf
    /\ BlameProof.UnmarshalFrom (BlameProof.suite x)
         {| io.pending := buf ++ more; io.failure := f |}
       = Ret {| io.read := BlameProof.MarshalSize x;
                io.outcome := Ret x;
                io.rest := {| io.pending := more; io.failure := f |} |}.
Proof.
  intros Hpop Hroom.
  destruct (BlameProof_roundtrip x Hpop) as [buf [Hm [Hsize Hun]]].
  exists buf. eexists. split.
  { unfold BlameProof.MarshalTo.
    apply (writing_unbounded _ buf); assumption. }
  cbn [io.count io.werr io.wafter io.written].
  split; [now rewrite Hsize|]. split; [reflexivity|].
  split; [reflexivity|].
  destruct Hpop as [Hsuite [[prf [Hprf Hplen]] [l [Hl Hllen]]]].
  destruct (Point_Marshal_ok (BlameProof.suite x) (BlameProof.diffieKey x))
    as [pointBuf [Hpb Hpblen]].
  pose proof (GoFacts.len_nonneg prf) as Hp0.
  pose proof (GoFacts.len_nonneg l) as Hl0.
  assert (Hss : PromiseSignature.MarshalSize (BlameProof.signature x)
                = uint32Size + Go.len l).
  { unfold PromiseSignature.MarshalSize. now rewrite Hl. }
  assert (Hbuf : exists body,
             buf = Go.le32 (Go.len prf)
                   ++ Go.le32 (uint32Size + Go.len l) ++ body).
  { rewrite (BlameProof_Marshal_eq x pointBuf Hpb Hpblen) in Hm.
    cbv zeta in Hm. rewrite Hss, Hprf, Hl in Hm. unfold Go.blen in Hm.
    cbn [Go.data] in Hm.
    rewrite !GoFacts.uint32_small in Hm by (unfold uint32Size in *; lia).
    apply Ret_inj in Hm. eexists. symmetry. exact Hm. }
  destruct Hbuf as [body Hbuf].
  assert (Hms : BlameProof.MarshalSize x
                = 2 * uint32Size + PointLen (BlameProof.suite x)
                  + Go.len prf + (uint32Size + Go.len l)).
  { unfold BlameProof.MarshalSize. now rewrite Hss, Hprf. }
  assert (H0 : Go.Uint32_at (buf ++ more) 0 = Ret (Go.len prf)).
  { rewrite Hbuf, <- !app_assoc. apply FillFacts.Uint32_first. lia. }
  assert (H1 : Go.Uint32_at (buf ++ more) uint32Size
               = Ret (uint32Size + Go.len l)).
  { rewrite Hbuf, <- !app_assoc. apply CodecFacts.Uint32_at_le32.
    - unfold Go.len. now rewrite GoFacts.le32_length.
    - unfold uint32Size in *. lia. }
  destruct (BlameProof_UnmarshalFrom_cases (BlameProof.suite x)
              {| io.pending := buf ++ more; io.failure := f |})
    as [_ Hcases].
  cbn [io.pending io.failure] in Hcases.
  destruct (Hcases _ _ H0 H1) as [_ Hfull]. cbv zeta in Hfull.
  rewrite Hfull.
  - rewrite <- Hms, Hsize, firstn_len_prefix, skipn_len_prefix, Hun.
    reflexivity.
  - rewrite <- Hms, Hsize, GoFacts.len_app.
    pose proof (GoFacts.len_nonneg more). lia.
Qed.

(** X17. The same for a populated Promise: UnmarshalFrom computes the
    length of the message from the n and t at its head and reads exactly
    MarshalSize bytes. *)
Theorem Promise_stream_roundtrip (x : Promise.T)
        (w : io.Writer) (more : list byte) (f : error) :
  populatedPromise x -> io.room w = None ->
  exists buf wr,
    Promise.MarshalTo x w = Ret wr
    /\ io.count wr = Promise.MarshalSize x
    /\ io.werr wr = None
    /\ io.written (io.wafter wr) = io.written w ++ buf
    /\ Promise.UnmarshalFrom (Promise.shareSuite x)
         {| io.pending := buf ++ more; io.failure := f |}
       = Ret {| io.read := Promise.MarshalSize x;
                io.outcome := Ret x;
                io.rest := {| io.pending := more; io.failure := f |} |}.
Proof.
  intros Hpop Hroom.
  destruct (Promise_roundtrip x Hpop) as [buf [Hm [Hsize Hun]]].
  exists buf. eexists. split.
  { unfold Promise.MarshalTo.
    apply (writing_unbounded _ buf); assumption. }
  cbn [io.count io.werr io.wafter io.written].
  split; [now rewrite Hsize|]. split; [reflexivity|].
  split; [reflexivity|].
  destruct (Promise_Unmarshal_header _ _ _ Hun) as [Hn Ht].
  destruct (Uint32_at_Ret_len _ _ _ Hn) as [_ Hn4].
  destruct (Uint32_at_Ret_len _ _ _ Ht) as [_ Ht4].
  destruct Hpop as [_ [_ [_ [_ [Hpoly _]]]]].
  assert (Hms : Promise.MarshalSize x
                = 3 * uint32Size + PointLen (Promise.shareSuite x)
                  + PubPoly_MarshalSize
                      (PubPoly_Init (Promise.shareSuite x) (Promise.t x))
                  + Promise.n x * PointLen (Promise.shareSuite x)
                  + Promise.n x * SecretLen (Promise.shareSuite x)).
  { unfold Promise.MarshalSize. now rewrite Hpoly. }
  destruct (Promise_UnmarshalFrom_cases (Promise.shareSuite x)
              {| io.pending := buf ++ more; io.failure := f |})
    as [_ Hcases].
  cbn [io.pending io.failure] in Hcases.
  destruct (Hcases (Promise.n x) (Promise.t x)) as [_ Hfull].
  - rewrite Uint32_at_app; [exact Hn|lia|lia].
  - rewrite Uint32_at_app; [exact Ht|unfold uint32Size; lia|lia].
  - rewrite <- Hms, Hsize. unfold uint32Size in *. lia.
  - rewrite Hfull.
    + rewrite <- Hms, Hsize, firstn_len_prefix, skipn_len_prefix, Hun.
      reflexivity.
    + rewrite <- Hms, Hsize, GoFacts.len_app.
      pose proof (GoFacts.len_nonneg more). lia.
Qed.

End StreamRoundTrip.

(** ** Equal *)

Section EqualFacts.
Context `{G : Group} {PL : poly.Lib}.

Lemma Suite_eqb_eq (a b : Suite) : Suite_eqb a b = true <-> a = b.
Proof.
  unfold Suite_eqb. destruct (Suite_eq_dec a b); split; congruence.
Qed.

Lemma Point_Equal_eq (a b : Point) : Point_Equal a b = true <-> a = b.
Proof.
  unfold Point_Equal. destruct (Point_eq_dec a b); split; congruence.
Qed.

Lemma Secret_Equal_eq (a b : Secret) : Secret_Equal a b = true <-> a = b.
Proof.
  unfold Secret_Equal. destruct (Secret_eq_dec a b); split; congruence.
Qed.

Lemma DeepEqual_eq (a b : Go.bytes) : Go.DeepEqual a b = true <-> a = b.
Proof.
  destruct a as [|x], b as [|y]; cbn [Go.DeepEqual];
    try (split; congruence).
  unfold Go.list_byte_eqb.
  destruct (list_eq_dec Byte.byte_eq_dec x y); split; congruence.
Qed.

Lemma PromiseSignature_Equal_eq (x y : PromiseSignature.T) :
  PromiseSignature.Equal x y = true <-> x = y.
Proof.
  unfold PromiseSignature.Equal. rewrite !andb_true_iff.
  rewrite Suite_eqb_eq, DeepEqual_eq.
  destruct x, y; cbn [PromiseSignature.suite PromiseSignature.signature].
  split; [intros [_ [-> ->]]; reflexivity|].
  intros H; injection H as -> ->. auto.
Qed.

(** X18. Equal on signatures and on blame proofs holds exactly for
    identical values: every field is compared, and a nil byte string
    differs from an empty one. In particular a signature that was never
    filled in is not Equal to what its encoding decodes to. *)
Theorem Equal_iff_identical :
  (forall x y : PromiseSignature.T,
     PromiseSignature.Equal x y = true <-> x = y)
  /\ (forall x y : BlameProof.T, BlameProof.Equal x y = true <-> x = y)
  /\ (forall s : Suite,
        exists buf y,
          PromiseSignature.MarshalBinary (PromiseSignature.UnmarshalInit s)
          = Ret buf
          /\ PromiseSignature.UnmarshalBinary
               (PromiseSignature.UnmarshalInit s) buf = Ret y
          /\ PromiseSignature.Equal (PromiseSignature.UnmarshalInit s) y
             = false).
Proof.
  split; [exact PromiseSignature_Equal_eq|]. split.
  - intros x y. unfold BlameProof.Equal. rewrite !andb_true_iff.
    rewrite Suite_eqb_eq, Point_Equal_eq, DeepEqual_eq,
      PromiseSignature_Equal_eq.
    destruct x, y;
      cbn [BlameProof.suite BlameProof.diffieKey BlameProof.diffieKeyProof
           BlameProof.signature].
    split; [intros [[[-> ->] ->] ->]; reflexivity|].
    intros H; injection H as -> -> -> ->. auto.
  - intros s. eexists. eexists. split; [reflexivity|].
    split; [reflexivity|].
    unfold PromiseSignature.Equal.
    cbn [PromiseSignature.signature PromiseSignature.UnmarshalInit
         Go.DeepEqual].
    now rewrite !andb_false_r.
Qed.

(** The loop of Promise.Equal compares the entries i, ..., i + k - 1 of
    both arrays. *)
Lemma equalLoop_spec (p p2 : Promise.T) (k : nat) :
  forall i : nat,
    (i + k <= List.length (Promise.secrets p))%nat ->
    (i + k <= List.length (Promise.secrets p2))%nat ->
    (i + k <= List.length (Promise.insurers p))%nat ->
    (i + k <= List.length (Promise.insurers p2))%nat ->
    exists b,
      Promise.equalLoop p p2 k (Z.of_nat i) = Ret b
      /\ (b = true <->
          forall j, (i <= j < i + k)%nat ->
            nth_error (Promise.secrets p) j
            = nth_error (Promise.secrets p2) j
            /\ nth_error (Promise.insurers p) j
               = nth_error (Promise.insurers p2) j).
Proof.
  induction k as [|k IH]; intros i H1 H2 H3 H4.
  - exists true. split; [reflexivity|]. split; [intros _ j Hj; lia|auto].
  - cbn [Promise.equalLoop].
    destruct (GoFacts.index_in_range (Promise.secrets p) (Z.of_nat i))
      as [s1 [Hs1 ->]]; [unfold Go.len; lia|].
    destruct (GoFacts.index_in_range (Promise.secrets p2) (Z.of_nat i))
      as [s2 [Hs2 ->]]; [unfold Go.len; lia|].
    destruct (GoFacts.index_in_range (Promise.insurers p) (Z.of_nat i))
      as [i1 [Hi1 ->]]; [unfold Go.len; lia|].
    destruct (GoFacts.index_in_range (Promise.insurers p2) (Z.of_nat i))
      as [i2 [Hi2 ->]]; [unfold Go.len; lia|].
    rewrite Nat2Z.id in Hs1, Hs2, Hi1, Hi2. cbn [bind].
    destruct (Secret_Equal s1 s2) eqn:Es; cbn [negb].
    2:{ exists false. split; [reflexivity|]. split; [discriminate|].
        intros H. destruct (H i ltac:(lia)) as [E _].
        assert (s1 = s2) by congruence.
        apply Secret_Equal_eq in H0. congruence. }
    destruct (Point_Equal i1 i2) eqn:Ei; cbn [negb].
    2:{ exists false. split; [reflexivity|]. split; [discriminate|].
        intros H. destruct (H i ltac:(lia)) as [_ E].
        assert (i1 = i2) by congruence.
        apply Point_Equal_eq in H0. congruence. }
    apply Secret_Equal_eq in Es. apply Point_Equal_eq in Ei. subst s2 i2.
    replace (Z.of_nat i + 1) with (Z.of_nat (S i)) by lia.
    destruct (IH (S i)) as [b [Hb Hiff]]; try lia.
    exists b. split; [exact Hb|]. rewrite Hiff. split.
    + intros H j Hj. destruct (Nat.eq_dec j i) as [->|Hne].
      * split; congruence.
      * apply H. lia.
    + intros H j Hj. apply H. lia.
Qed.

Lemma nth_error_ext_upto {A : Type} (l l' : list A) :
  List.length l = List.length l' ->
  (forall j, (j < List.length l)%nat -> nth_error l j = nth_error l' j) ->
  l = l'.
Proof.
  revert l'; induction l as [|x l IH]; intros [|y l'] Hlen H;
    try discriminate; [reflexivity|].
  cbn [List.length] in *.
  pose proof (H 0%nat ltac:(lia)) as H0. cbn in H0.
  injection H0 as ->. f_equal. apply IH; [lia|].
  intros j Hj. apply (H (S j)). lia.
Qed.

(** X19. On two promises whose arrays have their recorded length,
    Promise.Equal returns without a panic, and it returns true exactly
    when suite, t, r, n, the promiser's key, the insurers and the secrets
    are the same and the commitments are Equal. *)
Theorem Promise_Equal_iff (p p2 : Promise.T) :
  arraysSynchronised p -> arraysSynchronised p2 ->
  exists b,
    Promise.Equal p p2 = Ret b
    /\ (b = true <->
        Promise.shareSuite p = Promise.shareSuite p2
        /\ Promise.t p = Promise.t p2 /\ Promise.r p = Promise.r p2
        /\ Promise.n p = Promise.n p2
        /\ Promise.pubKey p = Promise.pubKey p2
        /\ Promise.insurers p = Promise.insurers p2
        /\ Promise.secrets p = Promise.secrets p2
        /\ PubPoly_Equal (Promise.pubPoly p) (Promise.pubPoly p2) = true).
Proof.
  intros [Hi Hs] [Hi2 Hs2]. unfold Promise.Equal.
  destruct (Promise.n p =? Promise.n p2) eqn:En; cbn [negb].
  2:{ exists false. split; [reflexivity|]. split; [discriminate|].
      intros [_ [_ [_ [H _]]]]. apply Z.eqb_neq in En. contradiction. }
  apply Z.eqb_eq in En. unfold Go.len in *.
  destruct (equalLoop_spec p p2 (Z.to_nat (Promise.n p)) 0)
    as [b [Hb Hiff]]; try lia.
  change (Z.of_nat 0) with 0 in Hb. rewrite Hb. cbn [bind].
  destruct b; cbn [negb].
  2:{ exists false. split; [reflexivity|]. split; [discriminate|].
      intros [_ [_ [_ [_ [_ [Ei [Es _]]]]]]].
      apply Hiff. intros j _. now rewrite Ei, Es. }
  assert (Hall := proj1 Hiff eq_refl).
  assert (Esec : Promise.secrets p = Promise.secrets p2).
  { apply nth_error_ext_upto; [lia|].
    intros j Hj. apply Hall. lia. }
  assert (Eins : Promise.insurers p = Promise.insurers p2).
  { apply nth_error_ext_upto; [lia|].
    intros j Hj. apply Hall. lia. }
  eexists. split; [reflexivity|].
  rewrite !andb_true_iff, Suite_eqb_eq, Point_Equal_eq, !Z.eqb_eq.
  split.
  - intros [[[[[H1 H2] H3] H4] H5] H6]. repeat split; assumption.
  - intros [H1 [H2 [H3 [H4 [H5 [_ [_ H8]]]]]]]. repeat split; assumption.
Qed.

End EqualFacts.

(** ** Decoding a buffer with bytes after the message *)

Section TrailingBytes.
Context `{G : Group} {PL : poly.Lib}.







End TrailingBytes.

(** ** What VerifyPromise buys, and what AddSignature changes *)

Section AfterVerifyPromise.
Context `{G : Group} {PL : poly.Lib} {AL : anon.Lib} {ZL : proof.Lib}.
Context {GL : GroupLaws} {PLaws : PolyLaws} {ALaws : AnonLaws}
        {ZLaws : ProofLaws}.



Lemma indices_three (i num : Z) :
  0 <= i < num ->
  indices num
  = indices i ++ [i]
    ++ map Z.of_nat (seq (Z.to_nat (i + 1)) (Z.to_nat (num - (i + 1)))).
Proof.
  intros Hi. rewrite (indices_split (i + 1) num) by lia.
  rewrite (app_assoc (indices i)). f_equal.
  unfold indices.
  replace (Z.to_nat (i + 1)) with (Z.to_nat i + 1)%nat by lia.
  rewrite seq_app, map_app. cbn [seq map Nat.add]. f_equal.
  f_equal. lia.
Qed.

Lemma filter_ext_in' {A : Type} (f g : A -> bool) (l : list A) :
  (forall x, In x l -> f x = g x) -> filter f l = filter g l.
Proof.
  induction l as [|x l IH]; intros H; [reflexivity|]. cbn [filter].
  rewrite (H x (or_introl eq_refl)), IH; [reflexivity|].
  intros y Hy. apply H. now right.
Qed.

Lemma existsb_ext_in {A : Type} (f g : A -> bool) (l : list A) :
  (forall x, In x l -> f x = g x) -> existsb f l = existsb g l.
Proof.
  induction l as [|x l IH]; intros H; [reflexivity|]. cbn [existsb].
  rewrite (H x (or_introl eq_refl)), IH; [reflexivity|].
  intros y Hy. apply H. now right.
Qed.

(** X21. AddSignature changes the count of valid signatures through
    slot i only: on a state with allocated slots and 0 <= i < n, the new
    count is the old one, minus one if slot i held a valid signature,
    plus one if the new signature is valid at i; the valid blames are
    those of before. So a valid signature in an empty slot adds one, and
    overwriting a valid signature with an invalid one takes one away. *)
Theorem AddSignature_counts (ps : PromiseState.T) (i : Z)
        (sig : PromiseSignature.T) :
  slotsAllocated ps -> 0 <= i < Promise.n (PromiseState.Promise ps) ->
  exists ps',
    PromiseState.AddSignature ps i sig = Ret ps'
    /\ validSignatures ps'
       = validSignatures ps
         - Z.b2z (validSignatureAt ps i)
         + Z.b2z (is_nil (Promise.VerifySignature
                            (PromiseState.Promise ps) i sig))
    /\ existsb (validBlameAt ps')
         (indices (Promise.n (PromiseState.Promise ps')))
       = existsb (validBlameAt ps)
           (indices (Promise.n (PromiseState.Promise ps))).
Proof.
  intros [Hs Hb] Hi. unfold PromiseState.AddSignature.
  rewrite assign_ok by lia. cbn [bind]. eexists. split; [reflexivity|].
  set (ps' := {| PromiseState.Promise := _ |}).
  assert (Hp : PromiseState.Promise ps' = PromiseState.Promise ps)
    by reflexivity.
  assert (Hother : forall j, 0 <= j -> j <> i ->
            validSignatureAt ps' j = validSignatureAt ps j).
  { intros j Hj Hne. unfold validSignatureAt. rewrite Hp. subst ps'.
    cbn [PromiseState.signatures].
    now rewrite set_nth_other by lia. }
  assert (Hat : validSignatureAt ps' i
                = is_nil (Promise.VerifySignature
                            (PromiseState.Promise ps) i sig)).
  { unfold validSignatureAt. rewrite Hp. subst ps'.
    cbn [PromiseState.signatures].
    now rewrite set_nth_same by (unfold Go.len in Hs; lia). }
  split.
  - unfold validSignatures. rewrite Hp.
    rewrite (indices_three i) by assumption.
    rewrite !filter_app, !GoFacts.len_app.
    rewrite (filter_ext_in' (validSignatureAt ps') (validSignatureAt ps)
               (indices i)).
    2:{ intros j Hj. apply indices_In in Hj. apply Hother; lia. }
    rewrite (filter_ext_in' (validSignatureAt ps') (validSignatureAt ps)
               (map Z.of_nat _)).
    2:{ intros j Hj. apply in_map_iff in Hj. destruct Hj as [k [<- Hk]].
        apply in_seq in Hk. apply Hother; lia. }
    cbn [filter]. rewrite Hat.
    destruct (validSignatureAt ps i), (is_nil _); cbn [Z.b2z Go.len];
      unfold Go.len; cbn [List.length]; lia.
  - rewrite Hp. apply existsb_ext_in. intros j Hj.
    unfold validBlameAt. rewrite Hp. reflexivity.
Qed.

End AfterVerifyPromise.

(** ** Decoding from a stream *)

Section StreamTheorems.
Context `{G : Group} {PL : poly.Lib} {AL : anon.Lib} {ZL : proof.Lib}.
Context {GL : GroupLaws} {PLaws : PolyLaws}.

(** X12. PromiseSignature.UnmarshalFrom never panics and never reads
    past the message. On a stream with fewer than 4 bytes it reads them
    all and returns the error of the reader; when the 4-byte prefix
    declares sigLen and fewer than 4 + sigLen bytes are there, it reads
    them all and returns the error the reader gives after the prefix
    (io.EOF, not io.ErrUnexpectedEOF, when the stream ends right after the
    prefix); otherwise it reads exactly 4 + sigLen bytes, returns what
    UnmarshalBinary returns on them and leaves the rest of the stream. *)
Theorem PromiseSignature_UnmarshalFrom_stream (p : PromiseSignature.T)
        (r : io.Reader) :
  let avail := io.pending r in
  let drained := {| io.pending := []; io.failure := io.failure r |} in
  (Go.len avail < uint32Size ->
   PromiseSignature.UnmarshalFrom p r
   = Ret {| io.read := Go.len avail;
            io.outcome := Err (io.shortError r);
            io.rest := drained |})
  /\ (forall sigLen,
        Go.Uint32_at avail 0 = Ret sigLen ->
        (Go.len avail < uint32Size + sigLen ->
         PromiseSignature.UnmarshalFrom p r
         = Ret {| io.read := Go.len avail;
                  io.outcome :=
                    Err (io.shortError
                           {| io.pending :=
                                skipn (Z.to_nat uint32Size) avail;
                              io.failure := io.failure r |});
                  io.rest := drained |})
        /\ (uint32Size + sigLen <= Go.len avail ->
            PromiseSignature.UnmarshalFrom p r
            = Ret {| io.read := uint32Size + sigLen;
                     io.outcome :=
                       PromiseSignature.UnmarshalBinary p
                         (firstn (Z.to_nat (uint32Size + sigLen)) avail);
                     io.rest :=
                       {| io.pending :=
                            skipn (Z.to_nat (uint32Size + sigLen)) avail;
                          io.failure := io.failure r |} |})).
Proof. apply PromiseSignature_UnmarshalFrom_cases. Qed.

(** X13. BlameProof.UnmarshalFrom never panics and never reads past the
    message: with fewer than 8 bytes, or fewer than the
    8 + PLEN + proofLen + sigLen bytes that the two prefixes declare, it
    reads all there is and returns the error of the reader; otherwise it
    reads exactly that many bytes and returns what UnmarshalBinary returns
    on them. *)
Theorem BlameProof_UnmarshalFrom_stream (s : Suite) (r : io.Reader) :
  let avail := io.pending r in
  let drained := {| io.pending := []; io.failure := io.failure r |} in
  (Go.len avail < 2 * uint32Size ->
   BlameProof.UnmarshalFrom s r
   = Ret {| io.read := Go.len avail;
            io.outcome := Err (io.shortError r);
            io.rest := drained |})
  /\ (forall proofLen sigLen,
        Go.Uint32_at avail 0 = Ret proofLen ->
        Go.Uint32_at avail uint32Size = Ret sigLen ->
        let total := 2 * uint32Size + PointLen s + proofLen + sigLen in
        (Go.len avail < total ->
         BlameProof.UnmarshalFrom s r
         = Ret {| io.read := Go.len avail;
                  io.outcome :=
                    Err (io.shortError
                           {| io.pending :=
                                skipn (Z.to_nat (2 * uint32Size)) avail;
                              io.failure := io.failure r |});
                  io.rest := drained |})
        /\ (total <= Go.len avail ->
            BlameProof.UnmarshalFrom s r
            = Ret {| io.read := total;
                     io.outcome :=
                       BlameProof.UnmarshalBinary s
                         (firstn (Z.to_nat total) avail);
                     io.rest :=
                       {| io.pending := skipn (Z.to_nat total) avail;
                          io.failure := io.failure r |} |})).
Proof. apply BlameProof_UnmarshalFrom_cases. Qed.

(** X14. Promise.UnmarshalFrom reads the 8 bytes holding n and t,
    computes the length of the message from them (MarshalSize for that n
    and a commitment initialised for that t) and reads exactly that many
    bytes; a shorter stream is read to its end and the error of the
    reader is returned. On a full message it returns what UnmarshalBinary
    returns on it, a panic of UnmarshalBinary included. *)
Theorem Promise_UnmarshalFrom_stream (s : Suite) (r : io.Reader) :
  let avail := io.pending r in
  let drained := {| io.pending := []; io.failure := io.failure r |} in
  (Go.len avail < 2 * uint32Size ->
   Promise.UnmarshalFrom s r
   = Ret {| io.read := Go.len avail;
            io.outcome := Err (io.shortError r);
            io.rest := drained |})
  /\ (forall pn pt,
        Go.Uint32_at avail 0 = Ret pn ->
        Go.Uint32_at avail uint32Size = Ret pt ->
        let total :=
          3 * uint32Size + PointLen s
          + PubPoly_MarshalSize (PubPoly_Init s pt)
          + pn * PointLen s + pn * SecretLen s in
        2 * uint32Size <= total ->
        (Go.len avail < total ->
         Promise.UnmarshalFrom s r
         = Ret {| io.read := Go.len avail;
                  io.outcome :=
                    Err (io.shortError
                           {| io.pending :=
                                skipn (Z.to_nat (2 * uint32Size)) avail;
                              io.failure := io.failure r |});
                  io.rest := drained |})
        /\ (total <= Go.len avail ->
            Promise.UnmarshalFrom s r
            = io.returning total
                (Promise.UnmarshalBinary s (firstn (Z.to_nat total) avail))
                {| io.pending := skipn (Z.to_nat total) avail;
                   io.failure := io.failure r |})).
Proof. apply Promise_UnmarshalFrom_cases. Qed.

End StreamTheorems.

(** ** Further runs on the small instance *)

Section FurtherRuns.
#[local] Existing Instance Toy.group.
#[local] Existing Instance Toy.polylib.
#[local] Existing Instance Toy.anonlib.
#[local] Existing Instance Toy.prooflib.
#[local] Existing Instance ToyFacts.group_laws.
#[local] Existing Instance ToyFacts.poly_laws.
#[local] Existing Instance ToyFacts.anon_laws.
#[local] Existing Instance ToyFacts.proof_laws.
Import Toy.

Lemma basicPromise_synchronised :
  arraysSynchronised (G:=group) (PL:=polylib) basicPromise.
Proof. split; reflexivity. Qed.

Lemma corruptedPromise_synchronised :
  arraysSynchronised (G:=group) (PL:=polylib) corruptedPromise.
Proof. split; reflexivity. Qed.

Lemma keyPair_honest (x : F5) :
  honestKey (G:=group) (config.Suite (keyPair x)) (keyPair x).
Proof. split; reflexivity. Qed.

Lemma insurerKeys_recorded (p : Promise.T (G:=group) (PL:=polylib)) :
  Promise.insurers p = [f1; f2; f3] ->
  forall j kp,
    nth_error insurerKeys j = Some kp ->
    honestKey (G:=group) (config.Suite kp) kp
    /\ nth_error (Promise.insurers p) j = Some (config.Public kp).
Proof.
  intros -> j kp H.
  unfold insurerKeys in H.
  destruct j as [|[|[|j]]]; cbn [nth_error] in H;
    [| | |destruct j; discriminate];
    injection H as <-; repeat split; reflexivity.
Qed.

Lemma ConstructPromise_stores_witness :
  Promise.ConstructPromise (G:=group) (PL:=polylib) rand secretKey
    promiserKey 2 2 (insurerList insurerKeys) = Ret basicPromise
  /\ Promise.pubKey basicPromise = config.Public promiserKey
  /\ Promise.n basicPromise = 3.
Proof.
  split; [exact basicPromise_built|].
  destruct (ConstructPromise_stores (G:=group) (PL:=polylib) rand secretKey
              promiserKey 2 2 (insurerList insurerKeys) basicPromise
              basicPromise_built) as [_ [H2 [_ [H4 _]]]].
  split; [exact H2|exact H4].
Defined.

Lemma VerifyPromise_ConstructPromise_witness :
  Promise.ConstructPromise (G:=group) (PL:=polylib) rand secretKey
    promiserKey 2 2 (insurerList insurerKeys) = Ret basicPromise
  /\ Promise.VerifyPromise basicPromise f2 = Ret tt.
Proof.
  split; [exact basicPromise_built|].
  exact (proj1 (VerifyPromise_ConstructPromise (G:=group) (PL:=polylib)
                  rand secretKey promiserKey 2 2 (insurerList insurerKeys)
                  basicPromise basicPromise_built)).
Defined.

Lemma RevealShare_ConstructPromise_witness :
  exists share,
    Promise.RevealShare basicPromise 1 (keyPair f2) = Ret share
    /\ Promise.VerifyRevealedShare basicPromise 1 share = Ret tt.
Proof.
  eexists.
  apply (RevealShare_ConstructPromise (G:=group) (PL:=polylib) rand
           secretKey promiserKey insurerKeys 2 2 basicPromise 1
           (keyPair f2) basicPromise_built promiserKey_honest
           insurerKeys_honest).
  - unfold Go.len; simpl; lia.
  - reflexivity.
Defined.

Lemma blame_justified_iff_share_bad_witness :
  exists bp,
    Promise.Blame corruptedPromise 0 (keyPair f1) [] [] = Ret bp
    /\ Promise.VerifyShare corruptedPromise 0 (keyPair f1) = Err BadShare
    /\ Promise.VerifyBlame corruptedPromise 0 bp = Ret tt.
Proof.
  destruct (blame_justified_iff_share_bad (G:=group) (PL:=polylib)
              corruptedPromise 0 (keyPair f1) [] []
              corruptedPromise_synchronised)
    as [bp [share [Hbl [Hrev Hcase]]]].
  - simpl; lia.
  - reflexivity.
  - apply keyPair_honest.
  - exists bp. split; [exact Hbl|].
    vm_compute in Hrev. injection Hrev as <-. exact Hcase.
Defined.

Lemma corrupted_share_is_blamed_witness :
  Promise.VerifyShare corruptedPromise 0 (keyPair f1) = Err BadShare
  /\ Promise.VerifyShare corruptedPromise 1 (keyPair f2) = Ret tt.
Proof.
  destruct (corrupted_share_is_blamed (G:=group) (PL:=polylib) rand [] []
              secretKey promiserKey insurerKeys 2 2 basicPromise
              corruptedPromise 0 (keyPair f1) f0 basicPromise_built
              promiserKey_honest insurerKeys_honest)
    as [H1 [_ H3]].
  - unfold Go.len; simpl; lia.
  - reflexivity.
  - reflexivity.
  - intros share H.
    vm_compute in H. injection H as <-. reflexivity.
  - split; [exact H1|].
    apply H3; [unfold Go.len; simpl; lia|lia|reflexivity].
Defined.

Lemma signature_tags_separate_witness :
  exists e,
    Promise.VerifyBlame basicPromise 0
      (BlameProof.init (G:=group) tt f2 (Go.Bytes [])
         (Promise.Sign basicPromise 0 (keyPair f1) []))
    = Err e.
Proof.
  apply (proj2 (signature_tags_separate (G:=group) (PL:=polylib)
                  basicPromise 0 (keyPair f1) [] []
                  basicPromise_synchronised (keyPair_honest f1))).
  reflexivity.
Defined.

Lemma AddSignature_slot_witness :
  exists ps',
    PromiseState.AddSignature twoSignatures 2
      (Promise.Sign basicPromise 2 (keyPair f3) []) = Ret ps'
    /\ nth_error (PromiseState.signatures ps') 2
       = Some (Some (Promise.Sign basicPromise 2 (keyPair f3) [])).
Proof.
  destruct (proj1 (AddSignature_slot (G:=group) (PL:=polylib) twoSignatures
                     2 (Promise.Sign basicPromise 2 (keyPair f3) [])))
    as [ps' [H1 [_ [_ [_ [_ [H6 _]]]]]]].
  - unfold Go.len; simpl; lia.
  - exists ps'. split; [exact H1|exact H6].
Defined.

Lemma AddBlameProof_slot_witness :
  PromiseState.AddBlameProof twoSignatures 3
    (BlameProof.init (G:=group) tt f2 (Go.Bytes [])
       (Promise.Sign basicPromise 0 (keyPair f1) []))
  = Panic "index out of range".
Proof.
  apply (proj2 (AddBlameProof_slot (G:=group) (PL:=polylib) twoSignatures 3
                  (BlameProof.init (G:=group) tt f2 (Go.Bytes [])
                     (Promise.Sign basicPromise 0 (keyPair f1) [])))).
  right. unfold Go.len; simpl; lia.
Defined.

Lemma Init_fresh_witness :
  exists ps,
    PromiseState.Init basicPromise = Ret ps
    /\ PromiseState.PromiseCertified ps f2 = Err InsufficientSignatures.
Proof.
  destruct (proj2 (Init_fresh (G:=group) (PL:=polylib) basicPromise f2))
    as [ps [H1 [_ [_ [_ H5]]]]].
  - simpl; lia.
  - exists ps. split; [exact H1|]. rewrite H5. reflexivity.
Defined.

Lemma basicPromise_shares (j : nat) (kp : @config.KeyPair group) :
  nth_error insurerKeys j = Some kp ->
  honestKey (G:=group) (config.Suite kp) kp
  /\ nth_error (Promise.insurers basicPromise) j = Some (config.Public kp)
  /\ Promise.VerifyShare basicPromise (Z.of_nat j) kp = Ret tt.
Proof.
  intros H.
  unfold insurerKeys in H.
  destruct j as [|[|[|j]]]; cbn [nth_error] in H;
    [| | |destruct j; discriminate];
    injection H as <-; repeat split; reflexivity.
Qed.

Lemma certified_after_r_signatures_witness :
  exists ps0 ps,
    PromiseState.Init basicPromise = Ret ps0
    /\ PromiseTest.endorseLoop basicPromise ps0 insurerKeys 0 [] [] = Ret ps
    /\ PromiseState.PromiseCertified ps f2 = Ret tt.
Proof.
  destruct (certified_after_r_signatures (G:=group) (PL:=polylib)
              basicPromise f2 insurerKeys [] [] eq_refl basicPromise_shares)
    as [ps0 [ps [H1 [H2 H3]]]].
  exists ps0, ps. split; [exact H1|]. split; [exact H2|].
  rewrite H3. reflexivity.
Defined.

Lemma repudiated_by_one_bad_share_witness :
  exists ps0 ps,
    PromiseState.Init corruptedPromise = Ret ps0
    /\ PromiseTest.endorseLoop corruptedPromise ps0 insurerKeys 0 [] []
       = Ret ps
    /\ PromiseState.PromiseCertified ps f2 = Err PromiseRepudiated.
Proof.
  apply (repudiated_by_one_bad_share (G:=group) (PL:=polylib)
           corruptedPromise f2 insurerKeys [] [] 0 (keyPair f1) eq_refl
           (insurerKeys_recorded corruptedPromise eq_refl) eq_refl eq_refl).
Defined.

Lemma PromiseSignature_UnmarshalFrom_stream_witness :
  PromiseSignature.UnmarshalFrom
    (PromiseSignature.UnmarshalInit (G:=group) tt) shortStream
  = Ret {| io.read := 5;
           io.outcome := Err io.ErrUnexpectedEOF;
           io.rest := {| io.pending := []; io.failure := io.EOF |} |}.
Proof.
  apply (proj1 (proj2 (PromiseSignature_UnmarshalFrom_stream (G:=group)
                         (PromiseSignature.UnmarshalInit (G:=group) tt)
                         shortStream) 2 eq_refl)).
  unfold Go.len, uint32Size; simpl; lia.
Defined.

Lemma BlameProof_UnmarshalFrom_stream_witness :
  BlameProof.UnmarshalFrom (G:=group) tt shortStream
  = Ret {| io.read := 5;
           io.outcome := Err io.ErrUnexpectedEOF;
           io.rest := {| io.pending := []; io.failure := io.EOF |} |}.
Proof.
  apply (proj1 (BlameProof_UnmarshalFrom_stream (G:=group) tt shortStream)).
  unfold Go.len, uint32Size; simpl; lia.
Defined.

Lemma Promise_UnmarshalFrom_stream_witness :
  Promise.UnmarshalFrom (G:=group) (PL:=polylib) tt shortStream
  = Ret {| io.read := 5;
           io.outcome := Err io.ErrUnexpectedEOF;
           io.rest := {| io.pending := []; io.failure := io.EOF |} |}.
Proof.
  apply (proj1 (Promise_UnmarshalFrom_stream (G:=group) (PL:=polylib) tt
                  shortStream)).
  unfold Go.len, uint32Size; simpl; lia.
Defined.

Lemma endorsement_populated :
  populatedSignature (G:=group) (Promise.Sign basicPromise 0 (keyPair f1) []).
Proof. eexists. split; [reflexivity|]. vm_compute. reflexivity. Qed.

Lemma endorsementAsBlame_populated :
  populatedBlame (G:=group) endorsementAsBlame.
Proof.
  split; [reflexivity|]. split.
  - eexists. split; [reflexivity|]. vm_compute. reflexivity.
  - eexists. split; [reflexivity|]. vm_compute. reflexivity.
Qed.

Lemma PromiseSignature_stream_roundtrip_witness :
  exists buf wr,
    PromiseSignature.MarshalTo
      (Promise.Sign basicPromise 0 (keyPair f1) []) sink = Ret wr
    /\ io.written (io.wafter wr) = io.written sink ++ buf
    /\ PromiseSignature.UnmarshalFrom
         (PromiseSignature.UnmarshalInit (G:=group) tt)
         {| io.pending := buf ++ [x09]; io.failure := io.EOF |}
       = Ret {| io.read :=
                  PromiseSignature.MarshalSize
                    (Promise.Sign basicPromise 0 (keyPair f1) []);
                io.outcome :=
                  Ret (Promise.Sign basicPromise 0 (keyPair f1) []);
                io.rest := {| io.pending := [x09];
                              io.failure := io.EOF |} |}.
Proof.
  destruct (PromiseSignature_stream_roundtrip (G:=group)
              (Promise.Sign basicPromise 0 (keyPair f1) []) sink [x09]
              io.EOF endorsement_populated eq_refl)
    as [buf [wr [H1 [_ [_ [H4 H5]]]]]].
  exists buf, wr. split; [exact H1|]. split; [exact H4|exact H5].
Defined.

Lemma BlameProof_stream_roundtrip_witness :
  exists buf wr,
    BlameProof.MarshalTo endorsementAsBlame sink = Ret wr
    /\ io.written (io.wafter wr) = io.written sink ++ buf
    /\ BlameProof.UnmarshalFrom (G:=group) tt
         {| io.pending := buf ++ [x09]; io.failure := io.EOF |}
       = Ret {| io.read := BlameProof.MarshalSize endorsementAsBlame;
                io.outcome := Ret endorsementAsBlame;
                io.rest := {| io.pending := [x09];
                              io.failure := io.EOF |} |}.
Proof.
  destruct (BlameProof_stream_roundtrip (G:=group)
              endorsementAsBlame sink [x09] io.EOF
              endorsementAsBlame_populated eq_refl)
    as [buf [wr [H1 [_ [_ [H4 H5]]]]]].
  exists buf, wr. split; [exact H1|]. split; [exact H4|exact H5].
Defined.

Lemma Promise_stream_roundtrip_witness :
  exists buf wr,
    Promise.MarshalTo basicPromise sink = Ret wr
    /\ io.written (io.wafter wr) = io.written sink ++ buf
    /\ Promise.UnmarshalFrom (G:=group) (PL:=polylib) tt
         {| io.pending := buf ++ [x09]; io.failure := io.EOF |}
       = Ret {| io.read := Promise.MarshalSize basicPromise;
                io.outcome := Ret basicPromise;
                io.rest := {| io.pending := [x09];
                              io.failure := io.EOF |} |}.
Proof.
  destruct (Promise_stream_roundtrip (G:=group) (PL:=polylib)
              basicPromise sink [x09] io.EOF basicPromise_populated
              eq_refl)
    as [buf [wr [H1 [_ [_ [H4 H5]]]]]].
  exists buf, wr. split; [exact H1|]. split; [exact H4|exact H5].
Defined.

Lemma Equal_iff_identical_witness :
  BlameProof.Equal endorsementAsBlame endorsementAsBlame = true
  /\ PromiseSignature.Equal (PromiseSignature.UnmarshalInit (G:=group) tt)
       {| PromiseSignature.suite := tt;
          PromiseSignature.signature := Go.Bytes [] |} = false.
Proof.
  destruct (Equal_iff_identical (G:=group)) as [H1 [H2 _]].
  split.
  - apply (proj2 (H2 endorsementAsBlame endorsementAsBlame)). reflexivity.
  - destruct (PromiseSignature.Equal _ _) eqn:E; [|reflexivity].
    apply (proj1 (H1 _ _)) in E. discriminate E.
Defined.

Lemma Promise_Equal_iff_witness :
  Promise.Equal basicPromise corruptedPromise = Ret false.
Proof.
  destruct (Promise_Equal_iff (G:=group) (PL:=polylib) basicPromise
              corruptedPromise basicPromise_synchronised
              corruptedPromise_synchronised) as [b [H1 H2]].
  rewrite H1. destruct b; [|reflexivity].
  destruct (proj1 H2 eq_refl) as [_ [_ [_ [_ [_ [_ [H _]]]]]]].
  discriminate H.
Defined.


Lemma AddSignature_counts_witness :
  exists ps',
    PromiseState.AddSignature twoSignatures 1
      (PromiseSignature.UnmarshalInit (G:=group) tt) = Ret ps'
    /\ validSignatures ps' = 1.
Proof.
  destruct (AddSignature_counts (G:=group) (PL:=polylib) twoSignatures 1
              (PromiseSignature.UnmarshalInit (G:=group) tt))
    as [ps' [H1 [H2 _]]].
  - split; reflexivity.
  - simpl; lia.
  - exists ps'. split; [exact H1|]. rewrite H2. reflexivity.
Defined.


End FurtherRuns.
